(** * slonik-plus: record mapping, batched writes and result reconciliation

    A shallow embedding of the query workers of slonik-plus
    ([src/db-record.ts], [src/query/set-worker.ts], [src/query/get-worker.ts],
    [src/query/delete-worker.ts], [src/pool-proto.ts], [utils/general]) and the
    properties of them that the specification states.

    Conventions of the embedding
    - JavaScript values are the inductive [JsValue]; numbers are integers,
      with [JsNaN] kept apart because it is falsy and unequal to itself;
      objects (dates and the like) are references compared by identity.
    - A plain object used as a dictionary is a [gmap string JsValue]; an
      object or [Map] whose iteration order the code relies on is an
      insertion-ordered association list ([JsMap]).  Property names are
      taken to be neither array indices nor members of [DbRecord].
    - A [Set] of strings is a [gset string].
    - Record instances are mutable objects: they live in a heap and the
      array handed to a worker is a list of references into it.
    - [throw] is the [Throw] outcome of [JsResult]; a loop whose termination
      depends on a run-time number takes fuel and reports [OutOfFuel].
    - The database is a parameter: a function from a statement and a
      database state to an answer and a new state.  Statements are syntax
      trees ([SqlToken]); what the database makes of them is not modelled. *)

From Stdlib Require Import ZArith String Ascii List Lia.
From stdpp Require Import base option list list_numbers sorting gmap strings sets.

Open Scope string_scope.
Open Scope Z_scope.

(** ** JavaScript values *)

Inductive JsValue :=
| JsUndefined
| JsNull
| JsBool (b : bool)
| JsNum (n : Z)
| JsNaN
| JsStr (s : string)
| JsObj (ref : nat).

#[global] Instance JsValue_eq_dec : EqDecision JsValue.
Proof. solve_decision. Defined.

(** [!!v] *)
Definition truthy (v : JsValue) : bool :=
  match v with
  | JsUndefined | JsNull | JsNaN => false
  | JsBool b => b
  | JsNum n => negb (n =? 0)
  | JsStr s => negb (String.eqb s "")
  | JsObj _ => true
  end.

(** [a === b]: no coercion, objects by reference, NaN unequal to itself. *)
Definition strictEq (a b : JsValue) : bool :=
  match a, b with
  | JsUndefined, JsUndefined => true
  | JsNull, JsNull => true
  | JsBool x, JsBool y => Bool.eqb x y
  | JsNum x, JsNum y => x =? y
  | JsStr x, JsStr y => String.eqb x y
  | JsObj x, JsObj y => Nat.eqb x y
  | _, _ => false
  end.

(** [v == null], true of [null] and [undefined] only. *)
Definition isNullish (v : JsValue) : bool :=
  match v with
  | JsUndefined | JsNull => true
  | _ => false
  end.

(** [a ?? b] *)
Definition nullishCoalesce (a b : JsValue) : JsValue :=
  if isNullish a then b else a.

(** [o[k]] on a dictionary object: a missing property reads as [undefined]. *)
Definition getProp (o : gmap string JsValue) (k : string) : JsValue :=
  default JsUndefined (o !! k).

(** [Object.assign(target, source)]: every property of [source] is written
    onto [target]. *)
Definition objectAssign (target source : gmap string JsValue) : gmap string JsValue :=
  source ∪ target.

(** ** Insertion-ordered maps

[new Map(entries)], [map.set], [map.get], [map.values()], [map.size], and
plain objects read through [Object.entries]: a key that is set again keeps
its position and takes the new value. *)

Module JsMap.
Section JsMap.
Context {V : Type}.

Fixpoint set (k : string) (v : V) (m : list (string * V)) : list (string * V) :=
  match m with
  | [] => [(k, v)]
  | (k', v') :: m' =>
      if String.eqb k k' then (k, v) :: m' else (k', v') :: set k v m'
  end.

Fixpoint get (k : string) (m : list (string * V)) : option V :=
  match m with
  | [] => None
  | (k', v') :: m' => if String.eqb k k' then Some v' else get k m'
  end.

Definition has (k : string) (m : list (string * V)) : bool :=
  match get k m with Some _ => true | None => false end.

Definition ofEntries (es : list (string * V)) : list (string * V) :=
  foldl (fun m kv => set kv.1 kv.2 m) [] es.

Definition values (m : list (string * V)) : list V := map snd m.

Definition keys (m : list (string * V)) : list string := map fst m.

Definition size (m : list (string * V)) : nat := length m.
End JsMap.
End JsMap.

(** ** Errors and outcomes *)

(** The errors the workers raise.  The source throws plain [Error] objects
    (and one [NoColumnsToUpdateError]); each constructor stands for one
    [throw] site and is named after the specification's taxonomy. *)
Inductive JsError :=
| EmptyBatch            (* "No records provided for DB ..." *)
| IncompatibleOptions   (* "Cannot pass both alterSql and syncRecords ..." *)
| MissingTable          (* "... No table specified!" *)
| MixedTypes            (* "All DB Objects must be the same type for bulk ..." *)
| NoColumnsToUpdate     (* NoColumnsToUpdateError *)
| MissingPrimaryKey     (* "Cannot update ... No primary keys specified for record." *)
| InvalidIdentifier (s : string)  (* "Invalid Postgres identifier: ..." *)
| MissingPredicate      (* "Cannot delete from table without a where clause. ..." *)
| MissingKeyValue (k : string)    (* "Cannot find value for primary key: ..." *)
| UndefinedBinding      (* the SQL tag refuses an undefined value *)
| TypeError             (* property access or Object.assign on undefined *)
| DriverError (code : nat)        (* a failure reported by the database driver *)
| BadReference          (* the model's heap holds no object at a reference *)
| OutOfFuel.            (* the model's loop budget ran out: the loop did not end *)

#[global] Instance JsError_eq_dec : EqDecision JsError.
Proof. solve_decision. Defined.

Inductive JsResult (A : Type) :=
| Ok (a : A)
| Throw (e : JsError).

Arguments Ok {A} a.
Arguments Throw {A} e.

Definition bindR {A B} (r : JsResult A) (k : A -> JsResult B) : JsResult B :=
  match r with
  | Ok a => k a
  | Throw e => Throw e
  end.

Notation "'let!' x ':=' c 'in' k" := (bindR c (fun x => k))
  (at level 10, x name, c at level 100, k at level 200).

(** [xs.map(f)] for an [f] that may throw: the first failure ends the map. *)
Fixpoint mapR {A B} (f : A -> JsResult B) (xs : list A) : JsResult (list B) :=
  match xs with
  | [] => Ok []
  | x :: xs' => let! y := f x in let! ys := mapR f xs' in Ok (y :: ys)
  end.

(** ** utils/general *)

Definition isAlphaUnderscore (c : ascii) : bool :=
  let n := nat_of_ascii c in
  ((65 <=? n) && (n <=? 90) || (97 <=? n) && (n <=? 122) || (n =? 95))%nat.

Definition isIdentifierTail (c : ascii) : bool :=
  let n := nat_of_ascii c in
  (isAlphaUnderscore c || (48 <=? n) && (n <=? 57) || (n =? 36))%nat.

Fixpoint allChars (p : ascii -> bool) (s : string) : bool :=
  match s with
  | EmptyString => true
  | String c s' => p c && allChars p s'
  end.

(** [/^[A-Za-z_][A-Za-z_0-9$]*$/.test(s)] *)
Definition isValidPostgresIdentifier (s : string) : bool :=
  match s with
  | EmptyString => false
  | String c s' => isAlphaUnderscore c && allChars isIdentifierTail s'
  end.

(** ** The SQL builder (slonik's [sql] tag), as syntax

The builder is an external collaborator; statements are kept as trees
so that their shape can be inspected.  Layout white space of the
template literals carries no meaning and is reduced to single blanks. *)

#[warnings="-register-all"]
Inductive SqlToken :=
| SqlText (s : string)                           (* literal template text, [sqlRaw] *)
| SqlIdentifier (names : list string)            (* [sql.identifier(names)] *)
| SqlBind (v : JsValue)                          (* an interpolated value *)
| SqlJsonb (payload : list (gmap string JsValue)) (* [sql.jsonb(objects)] *)
| SqlJoin (members : list SqlToken) (glue : SqlToken) (* [sql.join] *)
| SqlTemplate (parts : list SqlToken).           (* a tagged template *)

Abbreviation QuerySqlToken := SqlToken (only parsing).
Abbreviation FragmentSqlToken := SqlToken (only parsing).

(** The double quote character, and an identifier as it is printed. *)
Definition dq : string := String (ascii_of_nat 34) EmptyString.

Definition quoteIdent (s : string) : string := dq ++ s ++ dq.

Fixpoint joinStrings (glue : string) (xs : list string) : string :=
  match xs with
  | [] => ""
  | [x] => x
  | x :: xs' => x ++ glue ++ joinStrings glue xs'
  end.

(** The text of a statement; a bound value prints as [?] and a jsonb
    payload as [$jsonb]. *)
Fixpoint renderSql (t : SqlToken) : string :=
  match t with
  | SqlText s => s
  | SqlIdentifier names => joinStrings "." (map quoteIdent names)
  | SqlBind _ => "?"
  | SqlJsonb _ => "$jsonb"
  | SqlJoin members glue => joinStrings (renderSql glue) (map renderSql members)
  | SqlTemplate parts => String.concat "" (map renderSql parts)
  end.

(** [s.split('.')] *)
Fixpoint splitDotsAux (acc : string) (s : string) : list string :=
  match s with
  | EmptyString => [acc]
  | String c s' =>
      if Ascii.eqb c "."%char then acc :: splitDotsAux "" s'
      else splitDotsAux (acc ++ String c EmptyString) s'
  end.

Definition splitDots (s : string) : list string := splitDotsAux "" s.

(** ** db-record.ts *)

(** [in] and [out] of a column: a flag, or a transformer. *)
Inductive Inclusion :=
| InclFlag (b : bool)
| InclFn (f : JsValue -> JsValue).

(** [incl !== false] *)
Definition notFalse (i : Inclusion) : bool :=
  match i with
  | InclFlag false => false
  | _ => true
  end.

(** [primaryKey?: true | number] *)
Inductive PrimaryKeyOption :=
| PkTrue
| PkOrdinal (n : Z).

(** [+primaryKey], for a primary key that is set. *)
Definition pkNumber (p : PrimaryKeyOption) : Z :=
  match p with
  | PkTrue => 1
  | PkOrdinal n => n
  end.

(** A column configuration after [ColumnConfig.defaults] were merged in:
    [exclude], [in], [out], [autoLoad] and [transformTimestamps] are set;
    [name], [excludeFromUpdate] and [primaryKey] may be missing (a missing
    [excludeFromUpdate] is falsy and is kept as [false]). *)
Record ColumnConfig := {
  exclude : bool;
  cfg_in : Inclusion;
  cfg_out : Inclusion;
  excludeFromUpdate : bool;
  name : option string;
  type : string;
  autoLoad : bool;
  primaryKey : option PrimaryKeyOption;
  transformTimestamps : bool
}.

Record ColumnDetail := {
  cd_name : string;
  dbName : string;
  config : ColumnConfig
}.

Inductive ColumnsOption :=
| ColumnsAll
| ColumnsList (names : list string).

Record GetQueryOptions := {
  gq_override : option QuerySqlToken;
  gq_append : option FragmentSqlToken;
  gq_columns : option ColumnsOption;
  gq_tableName : option string
}.

Record RecordConfig := {
  table : option string;
  convertCases : option bool;
  query : option GetQueryOptions
}.

(** [RecordConfig.WithColumns]; [columns] is the object read through
    [Object.entries], in property order. *)
Record WithColumns := {
  recordConfig : RecordConfig;
  columns : list (string * ColumnConfig)
}.

(** A record class: its name, its identity and its static [_config]. *)
Record Ctor := {
  ctorName : string;
  ctorId : nat;
  _config : WithColumns
}.

Definition getConfig (c : Ctor) : WithColumns := _config c.

(** [config.name!]: registration gives every column a name (lemma
    [record_names_set]); an unset one is read as the empty string. *)
Definition nameOf (c : ColumnConfig) : string := default "" (name c).

Definition toDetail (e : string * ColumnConfig) : ColumnDetail :=
  {| cd_name := e.1; dbName := nameOf e.2; config := e.2 |}.

Definition getInsertColumns (c : Ctor) : list ColumnDetail :=
  map toDetail
    (filter (fun e => notFalse (cfg_out e.2) && negb (exclude e.2) = true)
       (columns (getConfig c))).

Definition getSelectColumns (c : Ctor) : list ColumnDetail :=
  map toDetail
    (filter (fun e => notFalse (cfg_in e.2) && negb (exclude e.2) = true)
       (columns (getConfig c))).

(** Stable insertion sort, standing for [Array.prototype.sort] with the
    comparator [(a, b) => +a.primaryKey - +b.primaryKey]. *)
Fixpoint insertByKey {A} (key : A -> Z) (x : A) (l : list A) : list A :=
  match l with
  | [] => [x]
  | y :: l' => if key y <=? key x then y :: insertByKey key x l' else x :: y :: l'
  end.

Definition sortByKey {A} (key : A -> Z) (l : list A) : list A :=
  foldl (fun acc x => insertByKey key x acc) [] l.

(** [+primaryKey >= 0]; [+undefined] is NaN and fails the test. *)
Definition isPrimaryKey (c : ColumnConfig) : bool :=
  match primaryKey c with
  | Some p => 0 <=? pkNumber p
  | None => false
  end.

Definition pkOrder (c : ColumnConfig) : Z :=
  match primaryKey c with
  | Some p => pkNumber p
  | None => 0
  end.

Definition getPrimaryKeys (c : Ctor) : list string :=
  map nameOf
    (sortByKey pkOrder
       (filter (fun cfg => isPrimaryKey cfg = true) (map snd (columns (getConfig c))))).

(** An instance: its enumerable own properties, and the hidden [_original]
    snapshot. *)
Record DbRecord := {
  constructor : Ctor;
  props : gmap string JsValue;
  _original : option (gmap string JsValue)
}.

(** [this._original = omit(this, '_original')] *)
Definition saveState (r : DbRecord) : DbRecord :=
  {| constructor := constructor r; props := props r; _original := Some (props r) |}.

Definition getChangedColumns (r : DbRecord) : list ColumnDetail :=
  match _original r with
  | None => getInsertColumns (constructor r)
  | Some orig =>
      filter (fun col => negb (strictEq (getProp orig (cd_name col))
                                        (getProp (props r) (cd_name col))) = true)
        (getInsertColumns (constructor r))
  end.

(** [getWhereClause(noLeadingWhere)]; [None] is the [undefined] returned
    for a type without primary keys. *)
Definition whereCondition (r : DbRecord) (k : string) : JsResult SqlToken :=
  match List.find (fun c => String.eqb (dbName c) k) (getInsertColumns (constructor r)) with
  | None => Throw TypeError
  | Some c =>
      let value := getProp (props r) (cd_name c) in
      if truthy value
      then Ok (SqlTemplate [SqlIdentifier [k]; SqlText " = "; SqlBind value])
      else Throw (MissingKeyValue k)
  end.

Definition getWhereClause (r : DbRecord) (noLeadingWhere : bool)
  : JsResult (option SqlToken) :=
  let primaryKeys := getPrimaryKeys (constructor r) in
  if (length primaryKeys =? 0)%nat then Ok None
  else
    let! conditions := mapR (whereCondition r) primaryKeys in
    Ok (Some (if noLeadingWhere
              then SqlJoin conditions (SqlText " AND ")
              else SqlTemplate [SqlText "WHERE "; SqlJoin conditions (SqlText " AND ")])).

(** *** The [record] decorator (schema registration) *)

Section Registration.
(** [camelToSnake] of utils/case-converters, an external helper. *)
Variable camelToSnake : string -> string.

(** [mergeConfigs([RecordConfig.defaults, cfg])] *)
Definition mergeRecordDefaults (cfg : RecordConfig) : RecordConfig :=
  {| table := table cfg;
     convertCases := Some (default true (convertCases cfg));
     query := query cfg |}.

(** [if (!config.name) config.name = ...] *)
Definition withName (convert : bool) (key : string) (c : ColumnConfig) : ColumnConfig :=
  let missing := match name c with
                 | None => true
                 | Some n => String.eqb n ""
                 end in
  if missing
  then {| exclude := exclude c; cfg_in := cfg_in c; cfg_out := cfg_out c;
          excludeFromUpdate := excludeFromUpdate c;
          name := Some (if convert then camelToSnake key else key);
          type := type c; autoLoad := autoLoad c; primaryKey := primaryKey c;
          transformTimestamps := transformTimestamps c |}
  else c.

Definition addOwnColumns (convert : bool) (own : list (string * ColumnConfig))
  : list (string * ColumnConfig) :=
  foldl (fun out e => JsMap.set e.1 (withName convert e.1 e.2) out) [] own.

(** One step of the lineage loop: the columns of an ancestor that the
    output does not have yet. *)
Definition addLineageColumns (out : list (string * ColumnConfig)) (cols : list (string * ColumnConfig))
  : list (string * ColumnConfig) :=
  foldl (fun out e => if JsMap.has e.1 out then out else JsMap.set e.1 e.2 out) out cols.

(** The walk up the prototype chain; an ancestor whose [getConfig()] is
    undefined makes [.columns] a type error. *)
Fixpoint addLineage (out : list (string * ColumnConfig)) (lineage : list (option WithColumns))
  : JsResult (list (string * ColumnConfig)) :=
  match lineage with
  | [] => Ok out
  | None :: _ => Throw TypeError
  | Some anc :: rest => addLineage (addLineageColumns out (columns anc)) rest
  end.

(** [DbRecord.record(cfg)(ctor)]: [ownColumnsConfig] is the metadata the
    [column] decorators left on [ctor], [lineage] the configurations of its
    ancestors, nearest first.  The result is what is stored as
    [ctor._config]. *)
Definition record (cfg : RecordConfig)
    (ownColumnsConfig : option (list (string * ColumnConfig)))
    (lineage : list (option WithColumns)) : JsResult WithColumns :=
  let recordConfig := mergeRecordDefaults cfg in
  let outputColumns :=
    match ownColumnsConfig with
    | Some own => addOwnColumns (default true (convertCases recordConfig)) own
    | None => []
    end in
  let! outputColumns := addLineage outputColumns lineage in
  Ok {| recordConfig := recordConfig; columns := outputColumns |}.
End Registration.

(** ** Arrays *)

(** [T | T[]] and [[ x ].flat()] *)
Inductive OneOrMore (A : Type) :=
| One (a : A)
| More (l : list A).

Arguments One {A} a.
Arguments More {A} l.

Definition flatten {A} (x : OneOrMore A) : list A :=
  match x with
  | One a => [a]
  | More l => l
  end.

(** A relative index of [Array.prototype.slice]. *)
Definition relIndex (len k : Z) : Z :=
  if k <? 0 then Z.max (len + k) 0 else Z.min k len.

(** [xs.slice(from, to)] *)
Definition jsSlice {A} (from to : Z) (xs : list A) : list A :=
  let len := Z.of_nat (length xs) in
  let a := relIndex len from in
  let b := relIndex len to in
  take (Z.to_nat (b - a)) (drop (Z.to_nat a) xs).

(** The chunking loop both workers use,
    [for (let i = 0; i < xs.length; i += max) { ... xs.slice(i, i + max) ... }],
    started at [i]; [body] builds the statement of one chunk. *)
Fixpoint chunkLoop {A B} (fuel : nat) (max : Z) (i : Z) (xs : list A)
    (body : list A -> JsResult B) : JsResult (list B) :=
  match fuel with
  | O => Throw OutOfFuel
  | S fuel' =>
      if i <? Z.of_nat (length xs)
      then
        let nextI := i + max in
        let! q := body (jsSlice i nextI xs) in
        let! rest := chunkLoop fuel' max nextI xs body in
        Ok (q :: rest)
      else Ok []
  end.

(** ** Options of the workers

The [transaction] option only chooses the connection the statements run
on and is left out. *)

Module DeleteQueryOptions.
Record t := {
  startingQuery : option QuerySqlToken;
  finalQuery : option QuerySqlToken;
  tableName : option string;
  whereClause : option SqlToken
}.

(** [{ ...undefined }] *)
Definition empty : t :=
  {| startingQuery := None; finalQuery := None; tableName := None; whereClause := None |}.
End DeleteQueryOptions.

Inductive SetQueryResultType :=
| ResultNone
| ResultRecord
| ResultPrimaryKeys.

#[global] Instance SetQueryResultType_eq_dec : EqDecision SetQueryResultType.
Proof. solve_decision. Defined.

Inductive Mode := insert | upsert | update.

#[global] Instance Mode_eq_dec : EqDecision Mode.
Proof. solve_decision. Defined.

Module SetQueryOptions.
Record t := {
  startingQuery : option QuerySqlToken;
  finalQuery : option QuerySqlToken;
  conflictKey : option (OneOrMore string);
  columns : option ColumnsOption;
  tableName : option string;
  alterSql : option (QuerySqlToken -> QuerySqlToken);
  syncRecords : option bool;
  resultType : option SetQueryResultType
}.

Definition empty : t :=
  {| startingQuery := None; finalQuery := None; conflictKey := None; columns := None;
     tableName := None; alterSql := None; syncRecords := None; resultType := None |}.
End SetQueryOptions.

(** [a || b] on optional strings: the empty string is falsy. *)
Definition orString (a b : option string) : option string :=
  match a with
  | Some s => if String.eqb s "" then b else Some s
  | None => b
  end.

(** [!s] on an optional string. *)
Definition noString (a : option string) : bool :=
  match a with
  | Some s => String.eqb s ""
  | None => true
  end.

(** ** pool-proto.ts and the state of the world *)

Record QueryResult := {
  rows : list (gmap string JsValue)
}.

Record DatabasePoolPlusConfig := {
  deleteChunkMax : Z;
  insertChunkMax : Z
}.

(** [poolConfig], the defaults of [createPoolPlus]. *)
Definition poolConfig : DatabasePoolPlusConfig :=
  {| deleteChunkMax := 2000; insertChunkMax := 2000 |}.

Section Workers.
(** The database behind the transaction connection: [t.query(q)] answers
    with a result or a failure and moves the database on. *)
Context {DbState : Type}.
Variable tquery : QuerySqlToken -> DbState -> JsResult QueryResult * DbState.

(** What a worker can read and change: the statements handed to the
    driver so far, the database, and the heap of record instances. *)
Record World := {
  sent : list QuerySqlToken;
  db : DbState;
  heap : gmap nat DbRecord
}.

Definition M (A : Type) : Type := World -> JsResult A * World.

Definition ret {A} (a : A) : M A := fun w => (Ok a, w).

Definition raise {A} (e : JsError) : M A := fun w => (Throw e, w).

Definition bindM {A B} (m : M A) (k : A -> M B) : M B :=
  fun w => match m w with
           | (Ok a, w') => k a w'
           | (Throw e, w') => (Throw e, w')
           end.

Definition liftR {A} (r : JsResult A) : M A := fun w => (r, w).

(** [await t.query(q)] *)
Definition queryM (q : QuerySqlToken) : M QueryResult :=
  fun w =>
    let '(r, d) := tquery q (db w) in
    (r, {| sent := sent w ++ [q]; db := d; heap := heap w |}).

Fixpoint queryAll (qs : list QuerySqlToken) : M (list QueryResult) :=
  match qs with
  | [] => ret []
  | q :: qs' =>
      bindM (queryM q) (fun r =>
      bindM (queryAll qs') (fun rs => ret (r :: rs)))
  end.

(** [performQueries(queries, startingQuery, finalQuery, transaction)]:
    the statements run in order on one connection, a supplied transaction
    or a fresh one; commit and rollback are the driver's. *)
Definition performQueries (queries : list QuerySqlToken)
    (startingQuery finalQuery : option QuerySqlToken) : M (list QueryResult) :=
  queryAll (option_list startingQuery ++ queries ++ option_list finalQuery).

(** The instances an array of references points to. *)
Definition deref (refs : list nat) : M (list DbRecord) :=
  fun w =>
    (mapR (fun r => match heap w !! r with
                    | Some o => Ok o
                    | None => Throw BadReference
                    end) refs, w).

(** [record.forEach(rec => rec.saveState())] *)
Definition saveStates (refs : list nat) : M unit :=
  fun w =>
    (Ok tt,
     {| sent := sent w; db := db w;
        heap := foldl (fun h r => alter saveState r h) (heap w) refs |}).

Notation "'do!' x ':=' c 'in' k" := (bindM c (fun x => k))
  (at level 10, x name, c at level 100, k at level 200).

(** *** query/delete-worker.ts *)

(** The first argument of [delete]: a record class, or instances. *)
Inductive DeleteTarget :=
| OfType (c : Ctor)
| OfRecords (r : OneOrMore nat).

(** [sql.fragment`(${r.getWhereClause(true)!})`] *)
Definition whereOfRecord (r : DbRecord) : JsResult SqlToken :=
  let! w := getWhereClause r true in
  match w with
  | Some w => Ok (SqlTemplate [SqlText "("; w; SqlText ")"])
  | None => Throw UndefinedBinding
  end.

Definition deleteChunkQuery (tableName : string) (chunk : list DbRecord)
  : JsResult QuerySqlToken :=
  let! whereClauseSql := mapR whereOfRecord chunk in
  Ok (SqlTemplate [SqlText "DELETE FROM "; SqlIdentifier (splitDots tableName);
                   SqlText " WHERE "; SqlJoin whereClauseSql (SqlText " OR ");
                   SqlText ";"]).

Definition deleteWhereQuery (tableName : string) (whereClause : SqlToken) : QuerySqlToken :=
  SqlTemplate [SqlText "DELETE FROM "; SqlIdentifier (splitDots tableName);
               SqlText " WHERE "; whereClause; SqlText ";"].

(** The statements of a delete: everything up to [performQueries]. *)
Definition deleteQueries (fuel : nat) (config : DatabasePoolPlusConfig)
    (ctor : option Ctor) (record : option (list DbRecord))
    (options : DeleteQueryOptions.t) : JsResult (list QuerySqlToken) :=
  if match record with Some [] => true | _ => false end
  then Throw EmptyBatch
  else if match record, DeleteQueryOptions.whereClause options with
          | None, None => true
          | _, _ => false
          end
  then Throw MissingPredicate
  else
    match ctor with
    | None => Throw TypeError
    | Some ctor =>
        let tableName := orString (DeleteQueryOptions.tableName options)
                                  (table (recordConfig (getConfig ctor))) in
        if noString tableName then Throw MissingTable
        else
          let tableName := default "" tableName in
          match DeleteQueryOptions.whereClause options with
          | None =>
              match record with
              | None => Throw TypeError
              | Some record =>
                  chunkLoop fuel (deleteChunkMax config) 0 record
                    (deleteChunkQuery tableName)
              end
          | Some whereClause => Ok [deleteWhereQuery tableName whereClause]
          end
    end.

Definition dbDeleteWorker (fuel : nat) (config : DatabasePoolPlusConfig)
    (recordOrCtor : DeleteTarget) (options : DeleteQueryOptions.t)
  : M (list QueryResult) :=
  let refs := match recordOrCtor with
              | OfType _ => None
              | OfRecords r => Some (flatten r)
              end in
  do! record := match refs with
                | None => ret None
                | Some refs => do! rs := deref refs in ret (Some rs)
                end in
  let ctor := match recordOrCtor with
              | OfType c => Some c
              | OfRecords _ => option_map constructor (record ≫= head)
              end in
  do! queries := liftR (deleteQueries fuel config ctor record options) in
  do! res := performQueries queries (DeleteQueryOptions.startingQuery options)
               (DeleteQueryOptions.finalQuery options) in
  do! _ := saveStates (default [] refs) in
  ret res.

(** *** query/set-worker.ts *)

(** [!!options.syncRecords] *)
Definition isSet (b : option bool) : bool := default false b.

(** The first lines of [dbSetWorker]: [resultType ??= None], then the
    promotion that [syncRecords] asks for. *)
Definition normalizeOptions (opt : SetQueryOptions.t) : SetQueryOptions.t :=
  let resultType := default ResultNone (SetQueryOptions.resultType opt) in
  let resultType :=
    if isSet (SetQueryOptions.syncRecords opt) && bool_decide (resultType = ResultNone)
    then ResultRecord else resultType in
  {| SetQueryOptions.startingQuery := SetQueryOptions.startingQuery opt;
     SetQueryOptions.finalQuery := SetQueryOptions.finalQuery opt;
     SetQueryOptions.conflictKey := SetQueryOptions.conflictKey opt;
     SetQueryOptions.columns := SetQueryOptions.columns opt;
     SetQueryOptions.tableName := SetQueryOptions.tableName opt;
     SetQueryOptions.alterSql := SetQueryOptions.alterSql opt;
     SetQueryOptions.syncRecords := SetQueryOptions.syncRecords opt;
     SetQueryOptions.resultType := Some resultType |}.

(** [options.conflictKey] as a condition: a string is truthy unless
    empty, an array always. *)
Definition conflictKeyGiven (k : option (OneOrMore string)) : bool :=
  match k with
  | None => false
  | Some (One s) => negb (String.eqb s "")
  | Some (More _) => true
  end.

(** The loop that validates the instances and collects [knownKeys]. *)
Fixpoint collectKnownKeys (ctor : Ctor) (knownKeys : gset string) (record : list DbRecord)
  : JsResult (gset string) :=
  match record with
  | [] => Ok knownKeys
  | rec :: rest =>
      if negb (ctorId (constructor rec) =? ctorId ctor)%nat then Throw MixedTypes
      else collectKnownKeys ctor
             (knownKeys ∪ filter (fun key => key ≠ "_original") (dom (props rec))) rest
  end.

Section SetWorker.
(** What the helpers of [dbSetWorker] close over. *)
Variable thisConfig : DatabasePoolPlusConfig.  (* [this.config] *)
Variable mode : Mode.
Variable options : SetQueryOptions.t.
Variable ctor : Ctor.
Variable tableName : string.
Variable primaryKeys : list string.
Variable primaryKeyColumns : list ColumnDetail.
Variable knownKeys : gset string.

Definition isUpdate : bool := bool_decide (mode = update).

Definition allChangedNames (records : list DbRecord) : gset string :=
  foldl (fun acc rec => acc ∪ list_to_set (map cd_name (getChangedColumns rec))) ∅ records.

(** [getColumns(records)]: the insertable and the updatable columns. *)
Definition getColumns (records : list DbRecord) : list ColumnDetail * list ColumnDetail :=
  let columns := filter (fun c => cd_name c ∈ knownKeys) (getInsertColumns ctor) in
  let columns :=
    match SetQueryOptions.columns options with
    | Some (ColumnsList names) => filter (fun c => cd_name c ∈ names) columns
    | _ =>
        if isUpdate
        then filter (fun c => cd_name c ∈ allChangedNames records) columns
        else columns
    end in
  let updatableColumns :=
    filter (fun c => excludeFromUpdate (config c) = false) columns in
  (columns, updatableColumns).

Variable insertableColumns : list ColumnDetail.
Variable updatableColumns : list ColumnDetail.

Definition keyMap : list (string * string) :=
  JsMap.ofEntries (map (fun c => (cd_name c, dbName c)) insertableColumns).

Definition updatableKeyMap : list (string * string) :=
  JsMap.ofEntries (map (fun c => (cd_name c, dbName c)) updatableColumns).

Definition transformerMap : list (string * Inclusion) :=
  JsMap.ofEntries (map (fun c => (cd_name c, cfg_out (config c))) insertableColumns).

(** [(value != null && typeof transformer === 'function') ? transformer(value) : value] *)
Definition applyTransformer (transformer : option Inclusion) (value : JsValue) : JsValue :=
  match transformer with
  | Some (InclFn f) => if isNullish value then value else f value
  | _ => value
  end.

(** The output columns of [createOutputObjects]. *)
Definition outputColumns : list (string * ColumnDetail) :=
  let outputColumns := JsMap.ofEntries (map (fun c => (cd_name c, c)) insertableColumns) in
  if (bool_decide (mode = upsert) && negb (conflictKeyGiven (SetQueryOptions.conflictKey options)))
     || isUpdate
  then foldl (fun m pkCol => JsMap.set (cd_name pkCol) pkCol m) outputColumns primaryKeyColumns
  else outputColumns.

(** [config.primaryKey !== undefined] *)
Definition hasPrimaryKey (c : ColumnConfig) : bool :=
  match primaryKey c with Some _ => true | None => false end.

(** The column definition list, up to the closing index column. *)
Fixpoint colDefinitions (cols : list ColumnDetail) : JsResult (list SqlToken) :=
  match cols with
  | [] => Ok []
  | c :: rest =>
      if negb (isValidPostgresIdentifier (dbName c))
      then Throw (InvalidIdentifier (dbName c))
      else
        let own := SqlText (quoteIdent (dbName c) ++ " " ++ type (config c)) in
        let orig :=
          if isUpdate && hasPrimaryKey (config c)
          then [SqlText (quoteIdent ("original_" ++ dbName c) ++ " " ++ type (config c))]
          else [] in
        let! more := colDefinitions rest in
        Ok (own :: orig ++ more)%list
  end.

(** One step of the inner loop of [records.map]: a column written into
    the output object [res]. *)
Definition writeColumn (rec : DbRecord) (res : gmap string JsValue) (col : ColumnDetail)
  : gmap string JsValue :=
  let recordKey := cd_name col in
  let dbKey := dbName col in
  let isPrimaryKey := hasPrimaryKey (config col) in
  let value :=
    nullishCoalesce (getProp (props rec) recordKey)
      (if bool_decide (recordKey ∈ knownKeys) then JsNull else JsUndefined) in
  let transformer := JsMap.get recordKey transformerMap in
  let res := <[dbKey := applyTransformer transformer value]> res in
  if isUpdate && isPrimaryKey
  then <["original_" ++ dbKey := getProp (default (props rec) (_original rec)) recordKey]> res
  else res.

Definition outputObject (recordIndex : nat) (rec : DbRecord) : gmap string JsValue :=
  let res := foldl (writeColumn rec) ∅ (JsMap.values outputColumns) in
  objectAssign res {[ "__dbRecordIndex__" := JsNum (Z.of_nat recordIndex) ]}.

(** [createOutputObjects(records)]: the column definition list and the
    output objects. *)
Definition createOutputObjects (records : list DbRecord)
  : JsResult (list SqlToken * list (gmap string JsValue)) :=
  let! defs := colDefinitions (JsMap.values outputColumns) in
  let colDefinitionList :=
    (defs ++ [SqlText (quoteIdent "__dbRecordIndex__" ++ " int4")])%list in
  Ok (colDefinitionList, imap outputObject records).

(** [sql.fragment`, `] and friends: a template without interpolation. *)
Definition fragment (text : string) : SqlToken := SqlTemplate [SqlText text].

Definition identifiers (names : list string) : SqlToken :=
  SqlJoin (map (fun k => SqlIdentifier [k]) names) (fragment ", ").

Record PrepareQueryOptions := {
  keyIdentifiers : SqlToken;
  updatableKeyIdentifiers : SqlToken;
  tableIdentifier : SqlToken;
  isResultTypeQuery : bool;
  upsertStatement : option SqlToken;
  updateSetClauseTokens : option (list SqlToken);
  updateWhereClauseTokens : option (list SqlToken);
  fromAlias : SqlToken;
  pq_primaryKeyColumns : SqlToken;
  pq_selectColumns : SqlToken
}.

Definition resultTypeOf : SetQueryResultType :=
  default ResultNone (SetQueryOptions.resultType options).

(** [map.size < 2 ? s : sql.fragment`(${s})`] *)
Definition parenthesizeIfMultipleKeys {V} (map : list (string * V)) (s : SqlToken) : SqlToken :=
  if (JsMap.size map <? 2)%nat then s else SqlTemplate [SqlText "("; s; SqlText ")"].

(** The conflict keys of insert and upsert. *)
Definition conflictKeys : list string :=
  match SetQueryOptions.conflictKey options with
  | Some k => if conflictKeyGiven (Some k) then flatten k else primaryKeys
  | None => primaryKeys
  end.

(** The upsert clause that [createQueries] prepares. *)
Definition makeUpsertStatement (updatableKeyIds : SqlToken) : SqlToken :=
  if bool_decide (mode = upsert) && negb (length conflictKeys =? 0)%nat
  then
    let updateSetValues :=
      SqlJoin (map (fun k => SqlTemplate [SqlText "EXCLUDED."; SqlIdentifier [k]])
                 (JsMap.values updatableKeyMap))
        (fragment ", ") in
    SqlTemplate [SqlText "ON CONFLICT ("; identifiers conflictKeys;
                 SqlText ") DO UPDATE SET ";
                 parenthesizeIfMultipleKeys keyMap updatableKeyIds;
                 SqlText " = ";
                 parenthesizeIfMultipleKeys updatableKeyMap updateSetValues]
  else SqlTemplate [].

(** The first half of [createQueries]: the options handed to
    [prepareQuery], prepared by mode. *)
Definition makePrepareQueryOptions : JsResult PrepareQueryOptions :=
  let fromAlias := fragment "__source__" in
  let base :=
    {| fromAlias := fromAlias;
       isResultTypeQuery := negb (bool_decide (resultTypeOf = ResultNone));
       pq_primaryKeyColumns :=
         SqlJoin (map (fun pk => SqlBind (JsStr (dbName pk))) primaryKeyColumns) (fragment ", ");
       pq_selectColumns :=
         SqlJoin (map (fun pk => SqlBind (JsStr (dbName pk))) (getSelectColumns ctor))
           (fragment ", ");
       keyIdentifiers := identifiers (JsMap.values keyMap);
       updatableKeyIdentifiers := identifiers (JsMap.values updatableKeyMap);
       tableIdentifier := SqlIdentifier (splitDots tableName);
       upsertStatement := None;
       updateSetClauseTokens := None;
       updateWhereClauseTokens := None |} in
  match mode with
  | insert | upsert =>
      Ok {| fromAlias := fromAlias;
            isResultTypeQuery := isResultTypeQuery base;
            pq_primaryKeyColumns := pq_primaryKeyColumns base;
            pq_selectColumns := pq_selectColumns base;
            keyIdentifiers := keyIdentifiers base;
            updatableKeyIdentifiers := updatableKeyIdentifiers base;
            tableIdentifier := tableIdentifier base;
            upsertStatement := Some (makeUpsertStatement (updatableKeyIdentifiers base));
            updateSetClauseTokens := None;
            updateWhereClauseTokens := None |}
  | update =>
      if (length primaryKeys =? 0)%nat then Throw MissingPrimaryKey
      else
        Ok {| fromAlias := fromAlias;
              isResultTypeQuery := isResultTypeQuery base;
              pq_primaryKeyColumns := pq_primaryKeyColumns base;
              pq_selectColumns := pq_selectColumns base;
              keyIdentifiers := keyIdentifiers base;
              updatableKeyIdentifiers := updatableKeyIdentifiers base;
              tableIdentifier := tableIdentifier base;
              upsertStatement := None;
              updateSetClauseTokens :=
                Some (map (fun k => SqlTemplate [SqlIdentifier [k]; SqlText " = ";
                                                 fromAlias; SqlText "."; SqlIdentifier [k]])
                        (JsMap.values updatableKeyMap));
              updateWhereClauseTokens :=
                Some (map (fun k => SqlTemplate [SqlText "__update_table__.";
                                                 SqlIdentifier [k]; SqlText " = ";
                                                 fromAlias; SqlText ".";
                                                 SqlIdentifier ["original_" ++ k]])
                        primaryKeys) |}
  end.

Variable colDefinitionList : list SqlToken.
Variable outputObjects : list (gmap string JsValue).

Definition returningColumns : list ColumnDetail :=
  if bool_decide (resultTypeOf = ResultRecord) then getSelectColumns ctor
  else primaryKeyColumns.

Definition prepareQuery (objectBlock : list (gmap string JsValue))
    (o : PrepareQueryOptions) : QuerySqlToken :=
  let dbRecordsJsonbSql :=
    SqlTemplate [SqlText "jsonb_to_recordset("; SqlJsonb objectBlock; SqlText ") AS ";
                 (if negb (isResultTypeQuery o) then fromAlias o else fragment "__db_records__");
                 SqlText " ("; SqlJoin colDefinitionList (fragment ", "); SqlText ")"] in
  let setSql :=
    match mode with
    | insert | upsert =>
        let returningClause :=
          if isResultTypeQuery o
          then SqlTemplate [SqlText "RETURNING ";
                            SqlJoin (map (fun c => SqlTemplate [SqlIdentifier [dbName c]])
                                       returningColumns) (fragment ", ")]
          else SqlTemplate [] in
        SqlTemplate [SqlText "INSERT INTO "; tableIdentifier o; SqlText " (";
                     keyIdentifiers o; SqlText ") SELECT "; keyIdentifiers o;
                     SqlText " FROM ";
                     (if negb (isResultTypeQuery o) then dbRecordsJsonbSql
                      else SqlTemplate [SqlText "__db_records__ as "; fromAlias o;
                                        SqlText " ORDER BY "; fromAlias o;
                                        SqlText ("." ++ quoteIdent "__row_number__")]);
                     SqlText " "; default (SqlTemplate []) (upsertStatement o);
                     SqlText " "; returningClause]
    | update =>
        let returningClause :=
          if isResultTypeQuery o
          then SqlTemplate [SqlText "RETURNING ";
                            SqlJoin (map (fun c => SqlTemplate [SqlText "__update_table__.";
                                                               SqlIdentifier [dbName c]])
                                       returningColumns) (fragment ", ")]
          else SqlTemplate [] in
        SqlTemplate [SqlText "UPDATE "; tableIdentifier o; SqlText " __update_table__ SET ";
                     SqlJoin (default [] (updateSetClauseTokens o)) (fragment ", ");
                     SqlText " FROM ";
                     (if negb (isResultTypeQuery o) then dbRecordsJsonbSql
                      else SqlTemplate
                             [SqlText ("(SELECT * FROM __db_records__ ORDER BY __db_records__."
                                       ++ quoteIdent "__row_number__" ++ ") ");
                              fromAlias o]);
                     SqlText " WHERE ";
                     SqlJoin (default [] (updateWhereClauseTokens o)) (fragment " AND ");
                     SqlText " "; returningClause]
    end in
  if negb (isResultTypeQuery o) then setSql
  else
    SqlTemplate
      [SqlText ("WITH __db_records__ AS (SELECT __db_records__.*, "
                ++ "row_number() OVER(ORDER BY __db_records__."
                ++ quoteIdent "__dbRecordIndex__" ++ ") as __row_number__ FROM ");
       dbRecordsJsonbSql;
       SqlText "), set_res as ("; setSql;
       SqlText ("), new_records as (select set_res.*, row_number() over() as "
                ++ "__row_number__ from set_res) SELECT rec."
                ++ quoteIdent "__dbRecordIndex__"
                ++ ", new_records.* FROM __db_records__ rec "
                ++ "INNER JOIN new_records USING(__row_number__)")].

(** [addQuery]: the statement, altered when [alterSql] is given. *)
Definition addQuery (q : QuerySqlToken) : QuerySqlToken :=
  match SetQueryOptions.alterSql options with
  | Some alter => alter q
  | None => q
  end.

Definition createQueries (fuel : nat) : JsResult (list QuerySqlToken) :=
  let! prepareQueryOptions := makePrepareQueryOptions in
  chunkLoop fuel (insertChunkMax thisConfig) 0 outputObjects
    (fun objectBlock => Ok (addQuery (prepareQuery objectBlock prepareQueryOptions))).

(** **** Reconciliation *)

(** The array [record] of the worker, as references into the heap. *)
Variable record : list nat.

(** [record[row.__dbRecordIndex__]]; the index is typed as a number. *)
Definition recordAt (row : gmap string JsValue) : option nat :=
  match row !! "__dbRecordIndex__" with
  | Some (JsNum n) => if 0 <=? n then record !! Z.to_nat n else None
  | _ => None
  end.

Definition columnSet : list ColumnDetail :=
  if bool_decide (resultTypeOf = ResultPrimaryKeys) then primaryKeyColumns
  else getSelectColumns ctor.

(** The loop over the column set that fills [columnData]; [None] is the
    [return] taken when the row lacks a column or the column is
    configured with [in: false]. *)
Fixpoint fillColumnData (cols : list ColumnDetail) (row columnData : gmap string JsValue)
  : option (gmap string JsValue) :=
  match cols with
  | [] => Some columnData
  | col :: rest =>
      let dbKey := dbName col in
      let objKey := cd_name col in
      if negb (bool_decide (is_Some (row !! dbKey))) then None
      else if negb (notFalse (cfg_in (config col))) then None
      else
        let value := getProp row dbKey in
        let transformer := cfg_in (config col) in
        fillColumnData rest row
          (<[objKey := applyTransformer (Some transformer) value]> columnData)
  end.

(** How a loop body ends: it goes on, or the enclosing function
    returned. *)
Inductive Flow :=
| Continue (h : gmap nat DbRecord)
| Return (h : gmap nat DbRecord).

(** [Object.assign(dbRecordObject, columnData)] on the heap. *)
Definition assignRecord (columnData : gmap string JsValue) (r : DbRecord) : DbRecord :=
  {| constructor := constructor r;
     props := objectAssign (props r) columnData;
     _original := _original r |}.

(** The body of the loop over the rows of one result. *)
Definition reconcileRow (h : gmap nat DbRecord) (row : gmap string JsValue)
  : JsResult Flow :=
  let dbRecordObject := recordAt row in
  match fillColumnData columnSet row ∅ with
  | None => Ok (Return h)
  | Some columnData =>
      match dbRecordObject with
      | None => Throw TypeError
      | Some ref => Ok (Continue (alter (assignRecord columnData) ref h))
      end
  end.

Fixpoint reconcileRows (h : gmap nat DbRecord) (rows : list (gmap string JsValue))
  : JsResult Flow :=
  match rows with
  | [] => Ok (Continue h)
  | row :: rest =>
      let! f := reconcileRow h row in
      match f with
      | Continue h' => reconcileRows h' rest
      | Return h' => Ok (Return h')
      end
  end.

Fixpoint reconcileResults (h : gmap nat DbRecord) (results : list QueryResult)
  : JsResult Flow :=
  match results with
  | [] => Ok (Continue h)
  | result :: rest =>
      let! f := reconcileRows h (rows result) in
      match f with
      | Continue h' => reconcileResults h' rest
      | Return h' => Ok (Return h')
      end
  end.

Definition flowHeap (f : Flow) : gmap nat DbRecord :=
  match f with
  | Continue h => h
  | Return h => h
  end.

(** [updateDbRecordObjects(results)], on a heap. *)
Definition updateDbRecordObjects (results : list QueryResult) (h : gmap nat DbRecord)
  : JsResult (gmap nat DbRecord) :=
  let! f := reconcileResults h results in Ok (flowHeap f).
End SetWorker.

(** [updateDbRecordObjects] as a step of the worker. *)
Definition updateRecordsM (options : SetQueryOptions.t) (ctor : Ctor)
    (primaryKeyColumns : list ColumnDetail) (record : list nat)
    (results : list QueryResult) : M unit :=
  fun w =>
    match updateDbRecordObjects options ctor primaryKeyColumns record results (heap w) with
    | Ok h => (Ok tt, {| sent := sent w; db := db w; heap := h |})
    | Throw e => (Throw e, w)
    end.

(** Everything [dbSetWorker] does before it talks to the database: the
    validation and the statements.  The result also carries what the
    reconciliation needs. *)
Definition setQueries (fuel : nat) (thisConfig : DatabasePoolPlusConfig)
    (record : list DbRecord) (mode : Mode) (options : SetQueryOptions.t)
  : JsResult (Ctor * list ColumnDetail * list QuerySqlToken) :=
  match record with
  | [] => Throw EmptyBatch
  | first :: _ =>
      if match SetQueryOptions.alterSql options with Some _ => true | None => false end
         && isSet (SetQueryOptions.syncRecords options)
      then Throw IncompatibleOptions
      else
        let ctor := constructor first in
        let tableName := orString (SetQueryOptions.tableName options)
                                  (table (recordConfig (getConfig ctor))) in
        if noString tableName then Throw MissingTable
        else
          let tableName := default "" tableName in
          let primaryKeys := getPrimaryKeys ctor in
          let primaryKeyColumns :=
            filter (fun c => dbName c ∈ primaryKeys) (getSelectColumns ctor) in
          let! knownKeys := collectKnownKeys ctor ∅ record in
          let '(insertableColumns, updatableColumns) :=
            getColumns mode options ctor knownKeys record in
          if (bool_decide (mode = update) && (length updatableColumns =? 0)%nat)
             || (length insertableColumns =? 0)%nat
          then Throw NoColumnsToUpdate
          else
            let! out := createOutputObjects mode options primaryKeyColumns knownKeys
                          insertableColumns record in
            let '(colDefinitionList, outputObjects) := out in
            let! queries := createQueries thisConfig mode options ctor tableName primaryKeys
                              primaryKeyColumns insertableColumns updatableColumns
                              colDefinitionList outputObjects fuel in
            Ok (ctor, primaryKeyColumns, queries)
  end.

Definition dbSetWorker (fuel : nat) (thisConfig : DatabasePoolPlusConfig)
    (record : OneOrMore nat) (mode : Mode) (opt : SetQueryOptions.t)
  : M (list QueryResult) :=
  let options := normalizeOptions opt in
  let record := flatten record in
  do! instances := deref record in
  do! built := liftR (setQueries fuel thisConfig instances mode options) in
  let '(ctor, primaryKeyColumns, queries) := built in
  do! res := performQueries queries (SetQueryOptions.startingQuery options)
               (SetQueryOptions.finalQuery options) in
  do! _ := (if negb (bool_decide (SetQueryOptions.resultType options = Some ResultNone))
            then updateRecordsM options ctor primaryKeyColumns record res
            else ret tt) in
  do! _ := saveStates record in
  ret res.
End Workers.

(** ** query/get-worker.ts *)

(** [mergeConfigs([ctorConfig.query, opt])]: an option of the call wins over
    the one of the record type. *)
Definition mergeGetOptions (base : option GetQueryOptions) (opt : option GetQueryOptions)
  : GetQueryOptions :=
  let pick {A} (f : GetQueryOptions -> option A) : option A :=
    match opt ≫= f with
    | Some a => Some a
    | None => base ≫= f
    end in
  {| gq_override := pick gq_override; gq_append := pick gq_append;
     gq_columns := pick gq_columns; gq_tableName := pick gq_tableName |}.

(** What a pool method hands back: a row object, an array of rows, or
    something that is not an object. *)
Inductive Fetched :=
| FetchedRow (row : list (string * JsValue))
| FetchedRows (rows : list (list (string * JsValue)))
| FetchedOther (v : JsValue).

Inductive Hydrated :=
| HydratedOne (r : DbRecord)
| HydratedMany (rs : list DbRecord)
| HydratedOther (v : JsValue).

Section GetWorker.
Context {DbState : Type}.
(** [(options.transaction || this)[poolMethodKey](query)] *)
Variable poolMethod : string -> QuerySqlToken -> DbState -> JsResult Fetched * DbState.

Variable ctor : Ctor.
Variable options : GetQueryOptions.

(** The columns to read. *)
Definition selectedColumns : list ColumnDetail :=
  filter (fun c =>
            match gq_columns options with
            | Some ColumnsAll => true
            | Some (ColumnsList names) => bool_decide (cd_name c ∈ names)
            | None => autoLoad (config c)
            end = true)
    (getSelectColumns ctor).

Definition getKeyMap : list (string * string) :=
  JsMap.ofEntries (map (fun c => (dbName c, cd_name c)) selectedColumns).

Definition getTransformerMap : list (string * Inclusion) :=
  JsMap.ofEntries (map (fun c => (dbName c, cfg_in (config c))) selectedColumns).

(** The value stored for one entry of a row:
    [(typeof maybeTransformer === 'function') ? maybeTransformer(value) : value ?? undefined] *)
Definition fixupValue (key : string) (value : JsValue) : JsValue :=
  match JsMap.get key getTransformerMap with
  | Some (InclFn maybeTransformer) => maybeTransformer value
  | _ => nullishCoalesce value JsUndefined
  end.

(** [keyMap.get(key) ?? key] *)
Definition resKeyOf (key : string) : string :=
  default key (JsMap.get key getKeyMap).

(** The loop of [fixupResult] over [Object.entries(obj)]. *)
Definition fixedObjOf (obj : list (string * JsValue)) : gmap string JsValue :=
  foldl (fun fixedObj e => <[resKeyOf e.1 := fixupValue e.1 e.2]> fixedObj) ∅ obj.

(** [new ctor(data)]: the hidden fields start undefined and the data is
    assigned onto the instance. *)
Definition construct (data : gmap string JsValue) : DbRecord :=
  {| constructor := ctor; props := objectAssign ∅ data; _original := None |}.

Definition fixupResult (obj : list (string * JsValue)) : DbRecord :=
  saveState (construct (fixedObjOf obj)).

Definition getQuery (tableName : option string) : QuerySqlToken :=
  match gq_override options with
  | Some override =>
      SqlTemplate [override; SqlText " "; default (SqlTemplate []) (gq_append options)]
  | None =>
      SqlTemplate [SqlText "SELECT ";
                   SqlJoin (map (fun c => SqlIdentifier [dbName c]) selectedColumns)
                     (SqlTemplate [SqlText ", "]);
                   SqlText " FROM "; SqlIdentifier (splitDots (default "" tableName));
                   SqlText " "; default (SqlTemplate []) (gq_append options)]
  end.

Definition dbGetWorkerWith (poolMethodKey : string) (d : DbState)
  : JsResult Hydrated * DbState :=
  let tableName := orString (gq_tableName options) (table (recordConfig (getConfig ctor))) in
  if noString tableName && match gq_override options with None => true | Some _ => false end
  then (Throw MissingTable, d)
  else
    match poolMethod poolMethodKey (getQuery tableName) d with
    | (Throw e, d') => (Throw e, d')
    | (Ok (FetchedOther v), d') => (Ok (HydratedOther v), d')
    | (Ok (FetchedRows rows), d') => (Ok (HydratedMany (map fixupResult rows)), d')
    | (Ok (FetchedRow row), d') => (Ok (HydratedOne (fixupResult row)), d')
    end.
End GetWorker.

(** [dbGetWorker(poolMethodKey, ctor, opt)] *)
Definition dbGetWorker {DbState : Type}
    (poolMethod : string -> QuerySqlToken -> DbState -> JsResult Fetched * DbState)
    (poolMethodKey : string) (ctor : Ctor) (opt : option GetQueryOptions) (d : DbState)
  : JsResult Hydrated * DbState :=
  dbGetWorkerWith poolMethod ctor (mergeGetOptions (query (recordConfig (getConfig ctor))) opt)
    poolMethodKey d.

(** ** More of db-record.ts and utils/object-utils *)

(** [getColumnOutputValue(key)]: the value of a property as it is written,
    run through the write transformer of its column when there is one. *)
Definition getColumnOutputValue (r : DbRecord) (key : string) : JsValue :=
  let transformer :=
    option_map (fun c => cfg_out (config c))
      (List.find (fun c => String.eqb (cd_name c) key) (getInsertColumns (constructor r))) in
  match transformer with
  | Some (InclFn transformer) => transformer (getProp (props r) key)
  | _ => getProp (props r) key
  end.

(** [getColumnOutputKey(key)]: the database name of a write column, or
    [undefined]. *)
Definition getColumnOutputKey (r : DbRecord) (key : string) : option string :=
  option_map dbName
    (List.find (fun c => String.eqb (cd_name c) key) (getInsertColumns (constructor r))).

(** [pick(obj, ...keys)]: the own properties of [obj] named in [keys]. *)
Definition pick (obj : gmap string JsValue) (keys : list string) : gmap string JsValue :=
  filter (fun e => e.1 ∈ keys) obj.

(** [omit(obj, ...keys)]: the own properties of [obj] not named in [keys]. *)
Definition omit (obj : gmap string JsValue) (keys : list string) : gmap string JsValue :=
  filter (fun e => e.1 ∉ keys) obj.

(** ** Notions the statements are phrased in *)

(** [ceil(n / c)] for a positive [c]. *)
Definition ceilDiv (n c : Z) : Z := (n + c - 1) / c.

(** The slice the [k]-th round of the chunking loop takes. *)
Definition sliceAt {A} (c : Z) (xs : list A) (k : Z) : list A :=
  jsSlice (k * c) (k * c + c) xs.

Definition chunks {A} (c : Z) (xs : list A) : list (list A) :=
  map (sliceAt c xs) (seqZ 0 (ceilDiv (Z.of_nat (length xs)) c)).

(** The chunking law: [ceil(n / c)] chunks, the [j]-th being the [c]
    elements from position [j * c] on (fewer at the end, never none), which
    put together give the array back. *)
Definition chunkingLaw {A} (c : Z) (xs : list A) (chs : list (list A)) : Prop :=
  Z.of_nat (length chs) = ceilDiv (Z.of_nat (length xs)) c
  ∧ concat chs = xs
  ∧ ∀ (j : nat) ch, chs !! j = Some ch →
      ch = take (Z.to_nat c) (drop (j * Z.to_nat c) xs)
      ∧ (0 < length ch ≤ Z.to_nat c)%nat.

(** The value an instance holds for the primary key column [k]: the
    property of the write column whose database name is [k]. *)
Definition primaryKeyValue (r : DbRecord) (k : string) : option JsValue :=
  c ← List.find (fun c => String.eqb (dbName c) k) (getInsertColumns (constructor r));
  Some (getProp (props r) (cd_name c)).

(** An instance that can be asked for its where clause: its type declares
    a primary key, and every primary key column is a write column. *)
Definition keyed (r : DbRecord) : Prop :=
  getPrimaryKeys (constructor r) ≠ []
  ∧ ∀ k, k ∈ getPrimaryKeys (constructor r) → is_Some (primaryKeyValue r k).

Definition isMissingKeyValue (e : JsError) : Prop := ∃ k, e = MissingKeyValue k.

(** Every column has a database name. *)
Definition allNamed (cols : list (string * ColumnConfig)) : Prop :=
  Forall (fun e => is_Some (name e.2)) cols.

(** All the rows of a list of results, in the order the reconciliation
    visits them. *)
Definition allRows (results : list QueryResult) : list (gmap string JsValue) :=
  concat (map rows results).

Section ReconciliationNotions.
Variable options : SetQueryOptions.t.
Variable ctor : Ctor.
Variable primaryKeyColumns : list ColumnDetail.
Variable record : list nat.

(** A row that has every column of the column set. *)
Definition completeRow (row : gmap string JsValue) : Prop :=
  is_Some (fillColumnData (columnSet options ctor primaryKeyColumns) row ∅).

(** The values a complete row assigns. *)
Definition columnDataOf (row : gmap string JsValue) : gmap string JsValue :=
  default ∅ (fillColumnData (columnSet options ctor primaryKeyColumns) row ∅).

(** A row whose record index points into the array [record]. *)
Definition indexedRow (row : gmap string JsValue) : Prop :=
  is_Some (recordAt record row).

(** The heap after each row was assigned to the instance its index names. *)
Definition applyRows (rs : list (gmap string JsValue)) (h : gmap nat DbRecord)
  : gmap nat DbRecord :=
  foldl (fun h row =>
           match recordAt record row with
           | Some ref => alter (assignRecord (columnDataOf row)) ref h
           | None => h
           end) h rs.
End ReconciliationNotions.

(** The [name] property of the instance at a reference. *)
Definition nameAt (h : gmap nat DbRecord) (ref : nat) : option JsValue :=
  r ← h !! ref; props r !! "name".

(** Every column of a record type, whether read or written. *)
Definition allDetails (ctor : Ctor) : list ColumnDetail :=
  map toDetail (columns (getConfig ctor)).

(** The keys one output column writes into an output object, and the keys
    all of them write. *)
Definition keysOf (mode : Mode) (c : ColumnDetail) : list string :=
  dbName c :: (if isUpdate mode && hasPrimaryKey (config c)
               then ["original_" ++ dbName c] else []).

Definition writtenKeys (mode : Mode) (cols : list ColumnDetail) : list string :=
  concat (map (keysOf mode) cols).

(** The value [writeColumn] computes for a column of an instance. *)
Definition writtenValue (knownKeys : gset string) (insertableColumns : list ColumnDetail)
    (rec : DbRecord) (c : ColumnDetail) : JsValue :=
  applyTransformer (JsMap.get (cd_name c) (transformerMap insertableColumns))
    (nullishCoalesce (getProp (props rec) (cd_name c))
       (if bool_decide (cd_name c ∈ knownKeys) then JsNull else JsUndefined)).

(** The column configuration an ancestor chain hands down for a key: that
    of the nearest ancestor that has one. *)
Fixpoint inherited (key : string) (lineage : list (option WithColumns))
  : option ColumnConfig :=
  match lineage with
  | [] => None
  | None :: _ => None
  | Some anc :: rest =>
      match JsMap.get key (columns anc) with
      | Some c => Some c
      | None => inherited key rest
      end
  end.

(** The row a select of [columns] returns for an instance whose payload
    was stored as it was written: under each database name the value of the
    payload, or [null] where the payload has none. *)
Definition storedRow (columns : list ColumnDetail) (payload : gmap string JsValue)
  : list (string * JsValue) :=
  map (fun c => (dbName c, nullishCoalesce (getProp payload (dbName c)) JsNull)) columns.

(** The jsonb payloads a statement binds, in the order in which they
    appear in its text. *)
Fixpoint joinLists {A} (glue : list A) (xs : list (list A)) : list A :=
  match xs with
  | [] => []
  | [x] => x
  | x :: xs' => x ++ glue ++ joinLists glue xs'
  end.

Fixpoint payloads (t : SqlToken) : list (list (gmap string JsValue)) :=
  match t with
  | SqlJsonb payload => [payload]
  | SqlJoin members glue => joinLists (payloads glue) (map payloads members)
  | SqlTemplate parts => concat (map payloads parts)
  | _ => []
  end.

(** The options of a write with another [alterSql]. *)
Definition withAlterSql (alter : option (QuerySqlToken -> QuerySqlToken))
    (o : SetQueryOptions.t) : SetQueryOptions.t :=
  {| SetQueryOptions.startingQuery := SetQueryOptions.startingQuery o;
     SetQueryOptions.finalQuery := SetQueryOptions.finalQuery o;
     SetQueryOptions.conflictKey := SetQueryOptions.conflictKey o;
     SetQueryOptions.columns := SetQueryOptions.columns o;
     SetQueryOptions.tableName := SetQueryOptions.tableName o;
     SetQueryOptions.alterSql := alter;
     SetQueryOptions.syncRecords := SetQueryOptions.syncRecords o;
     SetQueryOptions.resultType := SetQueryOptions.resultType o |}.

(** An instance whose snapshot is its present state. *)
Definition snapshotted (r : DbRecord) : Prop := _original r = Some (props r).

(** The instance at every reference of a batch is snapshotted. *)
Definition allSnapshotted (h : gmap nat DbRecord) (refs : list nat) : Prop :=
  ∀ ref, ref ∈ refs → ∃ r, h !! ref = Some r ∧ snapshotted r.

(** Two heaps hold the same instances up to their snapshots: same
    references, same types, same properties. *)
Definition sameProps (h h' : gmap nat DbRecord) : Prop :=
  ∀ ref, (fun r => (constructor r, props r)) <$> h' !! ref
         = (fun r => (constructor r, props r)) <$> h !! ref.

(** [h'] comes from [h] by assignments to instances of the batch
    [record]. *)
Definition assignedFrom (record : list nat) (h h' : gmap nat DbRecord) : Prop :=
  ∀ ref,
    match h !! ref, h' !! ref with
    | Some r, Some r' =>
        constructor r' = constructor r ∧ _original r' = _original r
        ∧ dom (props r) ⊆ dom (props r') ∧ (ref ∉ record → r' = r)
    | None, None => True
    | _, _ => False
    end.

(** ** A sample schema

    A record type [User] with a primary key [id] and a column [name], a few
    instances of it, and a database that answers every statement with no
    rows.  The examples and the checks of the theorems on concrete inputs
    run on these. *)

Module Sample.
Definition column (dbName type : string) (pk : option PrimaryKeyOption) : ColumnConfig :=
  {| exclude := false; cfg_in := InclFlag true; cfg_out := InclFlag true;
     excludeFromUpdate := false; name := Some dbName; type := type; autoLoad := true;
     primaryKey := pk; transformTimestamps := true |}.

Definition userConfig : WithColumns :=
  {| recordConfig := {| table := Some "users"; convertCases := Some true; query := None |};
     columns := [("id", column "id" "int4" (Some PkTrue)); ("name", column "name" "text" None)] |}.

Definition User : Ctor := {| ctorName := "User"; ctorId := 1; _config := userConfig |}.

Definition user (id : Z) (name : string) : DbRecord :=
  {| constructor := User;
     props := {[ "id" := JsNum id; "name" := JsStr name ]};
     _original := None |}.

Definition alice : DbRecord := user 1 "alice".
Definition bob : DbRecord := user 2 "bob".
Definition carol : DbRecord := user 3 "carol".

(** Two statements' worth of three instances. *)
Definition smallChunks : DatabasePoolPlusConfig :=
  {| deleteChunkMax := 2; insertChunkMax := 2 |}.

Definition userKeys : gset string := {[ "id"; "name" ]}.

Definition userPrimaryKeyColumns : list ColumnDetail :=
  filter (fun c => dbName c ∈ getPrimaryKeys User) (getSelectColumns User).

(** A database that accepts everything and returns no rows. *)
Definition quietDb (q : QuerySqlToken) (d : unit) : JsResult QueryResult * unit :=
  (Ok {| rows := [] |}, d).

Definition emptyWorld (h : gmap nat DbRecord) : @World unit :=
  {| sent := []; db := tt; heap := h |}.
(** Options that only ask for the records to be synchronised. *)
Definition syncOnly : SetQueryOptions.t :=
  {| SetQueryOptions.startingQuery := None; SetQueryOptions.finalQuery := None;
     SetQueryOptions.conflictKey := None; SetQueryOptions.columns := None;
     SetQueryOptions.tableName := None; SetQueryOptions.alterSql := None;
     SetQueryOptions.syncRecords := Some true; SetQueryOptions.resultType := None |}.

(** A user whose primary key is the number zero, and a heap holding it. *)
Definition zed : DbRecord := user 0 "zed".

Definition zedHeap : gmap nat DbRecord := {[ 0%nat := zed ]}.

(** A record type whose column [title] is stored under a name that is
    not an unquoted identifier, as registration leaves it, with one
    instance on the heap. *)
Definition articleConfig : RecordConfig :=
  {| table := Some "articles"; convertCases := None; query := None |}.

Definition articleColumns : list (string * ColumnConfig) :=
  [("title", column "bad name" "text" None)].

Definition Article : Ctor :=
  {| ctorName := "Article"; ctorId := 2;
     _config := {| recordConfig := mergeRecordDefaults articleConfig;
                   columns := articleColumns |} |}.

Definition articleHeap : gmap nat DbRecord :=
  {[ 0%nat := {| constructor := Article; props := {[ "title" := JsStr "On maps" ]};
                 _original := None |} ]}.

(** A record type with a read transformer that tells [null] and
    [undefined] apart, and a row read from its table in which both columns
    are null. *)
Definition probe (v : JsValue) : JsValue :=
  match v with
  | JsNull => JsStr "transformer saw null"
  | JsUndefined => JsStr "transformer saw undefined"
  | _ => v
  end.

Definition Event : Ctor :=
  {| ctorName := "Event"; ctorId := 3;
     _config :=
       {| recordConfig := {| table := Some "events"; convertCases := Some true;
                             query := None |};
          columns :=
            [("createdAt",
              {| exclude := false; cfg_in := InclFn probe; cfg_out := InclFlag true;
                 excludeFromUpdate := false; name := Some "created_at";
                 type := "timestamptz"; autoLoad := true; primaryKey := None;
                 transformTimestamps := true |});
             ("note", column "note" "text" None)] |} |}.

Definition noGetOptions : GetQueryOptions :=
  {| gq_override := None; gq_append := None; gq_columns := None; gq_tableName := None |}.

Definition eventRow : list (string * JsValue) :=
  [("created_at", JsNull); ("note", JsNull)].

(** Two users on the heap, the rows a synchronising write gets back for
    them, a row of some other statement, and a row that lost a column. *)
Definition userHeap : gmap nat DbRecord := {[ 0%nat := alice; 1%nat := bob ]}.

Definition returned (index id : Z) (name : string) : gmap string JsValue :=
  {[ "__dbRecordIndex__" := JsNum index; "id" := JsNum id; "name" := JsStr name ]}.

Definition stored0 : gmap string JsValue := returned 0 10 "alice, stored".
Definition stored1 : gmap string JsValue := returned 1 20 "bob, stored".

Definition stray : gmap string JsValue := {[ "n" := JsNum 1 ]}.

Definition partial0 : gmap string JsValue :=
  {[ "__dbRecordIndex__" := JsNum 0; "id" := JsNum 10 ]}.

Definition syncOptions : SetQueryOptions.t := normalizeOptions syncOnly.

(** A write that synchronises and is preceded by a statement of the
    caller. *)
Definition syncAfterStarting : SetQueryOptions.t :=
  {| SetQueryOptions.startingQuery := Some (SqlTemplate [SqlText "SELECT 1 AS n"]);
     SetQueryOptions.finalQuery := None;
     SetQueryOptions.conflictKey := None; SetQueryOptions.columns := None;
     SetQueryOptions.tableName := None; SetQueryOptions.alterSql := None;
     SetQueryOptions.syncRecords := Some true; SetQueryOptions.resultType := None |}.

(** A database that answers the statements with the results it was
    given, one after the other. *)
Definition cannedDb (q : QuerySqlToken) (d : list QueryResult)
  : JsResult QueryResult * list QueryResult :=
  match d with
  | r :: d' => (Ok r, d')
  | [] => (Ok {| rows := [] |}, [])
  end.

Definition cannedWorld (answers : list QueryResult) (h : gmap nat DbRecord)
  : @World (list QueryResult) :=
  {| sent := []; db := answers; heap := h |}.

(** Users as an update meets them: one renamed since it was loaded, one
    unchanged since it was saved, and one built with its key alone and
    never loaded. *)
Definition renamed : DbRecord :=
  {| constructor := User;
     props := {[ "id" := JsNum 1; "name" := JsStr "alicia" ]};
     _original := Some {[ "id" := JsNum 1; "name" := JsStr "alice" ]} |}.

Definition bobSaved : DbRecord := saveState bob.

Definition newcomer : DbRecord :=
  {| constructor := User; props := {[ "id" := JsNum 5 ]}; _original := None |}.

Definition nameColumn : ColumnDetail := toDetail ("name", column "name" "text" None).

(** A heap with a user that was saved and not touched since; an event,
    whose type declares no primary key; a configuration without room for a
    single instance in a statement. *)
Definition savedHeap : gmap nat DbRecord := {[ 0%nat := bobSaved ]}.

Definition launch : DbRecord :=
  {| constructor := Event; props := {[ "note" := JsStr "launch" ]}; _original := None |}.

Definition eventHeap : gmap nat DbRecord := {[ 0%nat := launch ]}.

Definition noChunks : DatabasePoolPlusConfig :=
  {| deleteChunkMax := 0; insertChunkMax := 0 |}.

(** What a caller may pass as [alterSql]. *)
Definition explain (q : QuerySqlToken) : QuerySqlToken :=
  SqlTemplate [SqlText "EXPLAIN "; q].

(** A user whose key was changed after it was loaded. *)
Definition idColumn : ColumnDetail := toDetail ("id", column "id" "int4" (Some PkTrue)).

Definition rekeyed : DbRecord :=
  {| constructor := User;
     props := {[ "id" := JsNum 7; "name" := JsStr "alice" ]};
     _original := Some {[ "id" := JsNum 1; "name" := JsStr "alice" ]} |}.

(** The columns an administrator declares on top of those of a user: its
    own [name], and a [level] that is left without a database name. *)
Definition adminConfig : RecordConfig :=
  {| table := Some "admins"; convertCases := Some false; query := None |}.

Definition adminColumns : list (string * ColumnConfig) :=
  [("name", column "admin_name" "text" None); ("level", column "" "int4" None)].

(** A row of an event with a column that is none of the type's. *)
Definition countedRow : list (string * JsValue) :=
  [("note", JsStr "launch"); ("total", JsNull)].
End Sample.

(** * Properties *)

(** ** Chunking *)

Section Chunking.
Context {A : Type}.
Implicit Types (xs : list A) (c k n : Z).

Lemma jsSlice_take_drop xs i m :
  0 ≤ i → 0 ≤ m →
  jsSlice i (i + m) xs = take (Z.to_nat m) (drop (Z.to_nat i) xs).
Proof.
  intros Hi Hm. unfold jsSlice, relIndex.
  destruct (Z.ltb_spec i 0); [lia|].
  destruct (Z.ltb_spec (i + m) 0); [lia|].
  destruct (Z.le_gt_cases (Z.of_nat (length xs)) i) as [Hge|Hlt].
  - rewrite !drop_ge by lia. by rewrite !take_nil.
  - rewrite (Z.min_l i) by lia.
    destruct (Z.le_gt_cases (i + m) (Z.of_nat (length xs))).
    + rewrite Z.min_l by lia. f_equal. lia.
    + rewrite Z.min_r by lia.
      rewrite !take_ge; [done| |]; rewrite length_drop; lia.
Qed.

Lemma ceilDiv_gt c n k : 0 < c → k * c < n ↔ k < ceilDiv n c.
Proof.
  intros Hc. unfold ceilDiv. split; intros H.
  - assert (k + 1 ≤ (n + c - 1) / c); [|lia].
    apply Z.div_le_lower_bound; lia.
  - assert (c * ((n + c - 1) / c) ≤ n + c - 1) by (apply Z.mul_div_le; lia).
    nia.
Qed.

Lemma ceilDiv_nonneg c n : 0 < c → 0 ≤ n → 0 ≤ ceilDiv n c.
Proof. intros. unfold ceilDiv. apply Z.div_pos; lia. Qed.

(** With a positive step and fuel for every round, the loop is a map over
    the slices still to come. *)
Lemma chunkLoop_slices {B} (body : list A → JsResult B) xs c :
  0 < c →
  ∀ fuel k, 0 ≤ k →
    (Z.to_nat (ceilDiv (Z.of_nat (length xs)) c - k) < fuel)%nat →
    chunkLoop fuel c (k * c) xs body =
      mapR body (map (sliceAt c xs) (seqZ k (ceilDiv (Z.of_nat (length xs)) c - k))).
Proof.
  intros Hc. induction fuel as [|fuel IH]; intros k Hk Hfuel; [lia|].
  simpl. destruct (Z.ltb_spec (k * c) (Z.of_nat (length xs))) as [Hlt|Hge].
  - apply ceilDiv_gt in Hlt; [|done].
    rewrite seqZ_cons by lia. simpl. unfold sliceAt at 1.
    destruct (body _); [|done]. simpl.
    replace (k * c + c) with ((Z.succ k) * c) by lia.
    rewrite IH by lia.
    by replace (Z.pred (ceilDiv (Z.of_nat (length xs)) c - k))
      with (ceilDiv (Z.of_nat (length xs)) c - Z.succ k) by lia.
  - rewrite seqZ_nil; [done|].
    assert (¬ k < ceilDiv (Z.of_nat (length xs)) c); [|lia].
    rewrite <- ceilDiv_gt by done. lia.
Qed.

Lemma ceilDiv_le_length xs c :
  0 < c → (Z.to_nat (ceilDiv (Z.of_nat (length xs)) c) ≤ length xs)%nat.
Proof.
  intros Hc.
  assert (¬ Z.of_nat (length xs) < ceilDiv (Z.of_nat (length xs)) c); [|lia].
  rewrite <- ceilDiv_gt by done. nia.
Qed.

Lemma chunkLoop_chunks {B} (body : list A → JsResult B) xs c fuel :
  0 < c → (length xs < fuel)%nat →
  chunkLoop fuel c 0 xs body = mapR body (chunks c xs).
Proof.
  intros Hc Hfuel. pose proof (ceilDiv_le_length xs c Hc).
  pose proof (chunkLoop_slices body xs c Hc fuel 0) as H0.
  rewrite Z.mul_0_l, Z.sub_0_r in H0. apply H0; lia.
Qed.

Lemma sliceAt_take_drop xs c k :
  0 < c → 0 ≤ k →
  sliceAt c xs k = take (Z.to_nat c) (drop (Z.to_nat (k * c)) xs).
Proof. intros. unfold sliceAt. apply jsSlice_take_drop; lia. Qed.

Lemma concat_slices xs c :
  0 < c →
  ∀ (m : nat) k, 0 ≤ k → Z.of_nat m = ceilDiv (Z.of_nat (length xs)) c - k →
    concat (map (sliceAt c xs) (seqZ k (Z.of_nat m))) = drop (Z.to_nat (k * c)) xs.
Proof.
  intros Hc. induction m as [|m IH]; intros k Hk Hm.
  - simpl. rewrite drop_ge; [done|].
    assert (¬ k * c < Z.of_nat (length xs)); [|lia].
    rewrite ceilDiv_gt by done. lia.
  - rewrite seqZ_cons by lia. simpl.
    replace (Z.pred (Z.of_nat (S m))) with (Z.of_nat m) by lia.
    rewrite IH by lia. rewrite sliceAt_take_drop by lia.
    replace (Z.to_nat (Z.succ k * c)) with (Z.to_nat (k * c) + Z.to_nat c)%nat by lia.
    rewrite <- drop_drop. apply take_drop.
Qed.

Lemma concat_chunks xs c : 0 < c → concat (chunks c xs) = xs.
Proof.
  intros Hc. unfold chunks.
  pose proof (ceilDiv_nonneg c (Z.of_nat (length xs)) Hc ltac:(lia)) as Hn.
  rewrite <- (Z2Nat.id _ Hn).
  rewrite (concat_slices xs c Hc _ 0); [done|lia|lia].
Qed.

Lemma length_chunks xs c :
  0 < c → Z.of_nat (length (chunks c xs)) = ceilDiv (Z.of_nat (length xs)) c.
Proof.
  intros Hc. unfold chunks. rewrite length_map, length_seqZ.
  apply Z2Nat.id, ceilDiv_nonneg; lia.
Qed.

Lemma lookup_chunks xs c (j : nat) :
  0 < c →
  Z.of_nat j < ceilDiv (Z.of_nat (length xs)) c →
  chunks c xs !! j = Some (take (Z.to_nat c) (drop (j * Z.to_nat c) xs)).
Proof.
  intros Hc Hj. unfold chunks. rewrite list_lookup_fmap, lookup_seqZ_lt by done.
  simpl. rewrite sliceAt_take_drop by lia. do 3 f_equal. lia.
Qed.

Lemma chunks_law xs c : 0 < c → chunkingLaw c xs (chunks c xs).
Proof.
  intros Hc. split; [by apply length_chunks|]. split; [by apply concat_chunks|].
  intros j ch Hj.
  assert (Z.of_nat j < ceilDiv (Z.of_nat (length xs)) c) as Hlt.
  { apply lookup_lt_Some in Hj. rewrite <- length_chunks by done. lia. }
  rewrite lookup_chunks in Hj by done. injection Hj as <-.
  split; [done|]. apply ceilDiv_gt in Hlt; [|done].
  rewrite length_take, length_drop. nia.
Qed.
End Chunking.

(** ** Outcomes of maps that may throw *)

Lemma mapR_pure {A B} (g : A → B) (xs : list A) :
  mapR (fun x => Ok (g x)) xs = Ok (map g xs).
Proof. induction xs as [|x xs IH]; simpl; [done|]. by rewrite IH. Qed.

Lemma mapR_Ok_Forall2 {A B} (f : A → JsResult B) xs ys :
  mapR f xs = Ok ys ↔ Forall2 (fun x y => f x = Ok y) xs ys.
Proof.
  revert ys. induction xs as [|x xs IH]; intros ys; simpl.
  - split; [intros [= <-]; constructor | by inversion 1].
  - split.
    + destruct (f x) as [y|] eqn:Hx; simpl; [|done].
      destruct (mapR f xs) as [ys'|] eqn:Hxs; simpl; [|done].
      intros [= <-]. constructor; [done|]. by apply IH.
    + inversion 1 as [|? y ? ys' Hx Hrest]; subst.
      rewrite Hx. simpl. apply IH in Hrest. by rewrite Hrest.
Qed.

Lemma mapR_Ok_exists {A B} (f : A → JsResult B) xs :
  Forall (fun x => ∃ y, f x = Ok y) xs → ∃ ys, mapR f xs = Ok ys.
Proof.
  induction 1 as [|x xs [y Hy] _ [ys IH]]; simpl; [by eexists|].
  rewrite Hy, IH. by eexists.
Qed.

Lemma chunks_elem_of {A} (c : Z) (xs ch : list A) x :
  0 < c → ch ∈ chunks c xs → x ∈ ch → x ∈ xs.
Proof.
  intros Hc Hch Hx. rewrite <- (concat_chunks xs c Hc).
  apply list_elem_of_In, in_concat. exists ch.
  by rewrite <- !list_elem_of_In.
Qed.



(** ** Options of a write *)



(** ** Validation of a delete *)

Section DeleteValidation.
Context {DbState : Type}.
Variable tquery : QuerySqlToken -> DbState -> JsResult QueryResult * DbState.

End DeleteValidation.

(** A delete of all users with the empty predicate: the statement that
    reaches the driver. *)
Example delete_all_users :
  let '(res, w) :=
    dbDeleteWorker Sample.quietDb 1 poolConfig (OfType Sample.User)
      {| DeleteQueryOptions.startingQuery := None; DeleteQueryOptions.finalQuery := None;
         DeleteQueryOptions.tableName := None;
         DeleteQueryOptions.whereClause := Some (SqlTemplate []) |}
      (Sample.emptyWorld ∅) in
  res = Ok [{| rows := [] |}]
  ∧ map renderSql (sent w) = ["DELETE FROM " ++ quoteIdent "users" ++ " WHERE ;"].
Proof. vm_compute. done. Qed.

(** ** Primary key values of a delete *)

Lemma falsy_values (v : JsValue) :
  truthy v = false ↔
  v = JsNum 0 ∨ v = JsStr "" ∨ v = JsBool false ∨ v = JsNull ∨ v = JsUndefined ∨ v = JsNaN.
Proof.
  split.
  - destruct v as [| |[]|n| |s|]; simpl; intros H; try discriminate; auto 10.
    + apply negb_false_iff, Z.eqb_eq in H. subst. auto.
    + apply negb_false_iff, String.eqb_eq in H. subst. auto.
  - intros [->|[->|[->|[->|[->| ->]]]]]; reflexivity.
Qed.

Lemma whereCondition_falsy (r : DbRecord) (k : string) (v : JsValue) :
  primaryKeyValue r k = Some v → truthy v = false →
  whereCondition r k = Throw (MissingKeyValue k).
Proof.
  unfold primaryKeyValue, whereCondition.
  destruct (List.find _ _) as [c|]; simpl; [|done].
  intros [= <-] Hv. by rewrite Hv.
Qed.

Lemma whereCondition_outcome (r : DbRecord) (k : string) :
  is_Some (primaryKeyValue r k) →
  match whereCondition r k with
  | Ok _ => True
  | Throw e => e = MissingKeyValue k
  end.
Proof.
  unfold primaryKeyValue, whereCondition.
  destruct (List.find _ _) as [c|]; simpl; [|by intros []].
  intros _. by destruct (truthy _).
Qed.

(** A map that can only fail in one way, and does fail somewhere, fails in
    that way. *)
Lemma mapR_Throw {A B} (P : JsError → Prop) (f : A → JsResult B) (xs : list A) :
  Forall (fun x => match f x with Ok _ => True | Throw e => P e end) xs →
  Exists (fun x => ∃ e, f x = Throw e) xs →
  ∃ e, mapR f xs = Throw e ∧ P e.
Proof.
  induction 1 as [|x xs Hx Hxs IH]; intros Hex; [by inversion Hex|].
  simpl. destruct (f x) as [y|e] eqn:Hfx; simpl; [|by eauto].
  inversion Hex as [?? [e He]|?? Hex']; subst; [congruence|].
  destruct (IH Hex') as (e & -> & He). simpl. eauto.
Qed.

Lemma mapR_outcome {A B} (P : JsError → Prop) (f : A → JsResult B) (xs : list A) :
  Forall (fun x => match f x with Ok _ => True | Throw e => P e end) xs →
  match mapR f xs with Ok _ => True | Throw e => P e end.
Proof.
  induction 1 as [|x xs Hx Hxs IH]; simpl; [done|].
  destruct (f x); simpl; [|done]. by destruct (mapR f xs).
Qed.

Lemma whereOfRecord_outcome (r : DbRecord) :
  keyed r →
  match whereOfRecord r with Ok _ => True | Throw e => isMissingKeyValue e end.
Proof.
  intros [Hpk Hcols]. unfold whereOfRecord, getWhereClause.
  destruct (getPrimaryKeys (constructor r)) as [|k ks] eqn:Hks; [done|].
  change (length (k :: ks) =? 0)%nat with false. cbv iota.
  pose proof (mapR_outcome isMissingKeyValue (whereCondition r) (k :: ks)) as Hout.
  destruct (mapR (whereCondition r) (k :: ks)) as [conds|e]; simpl; [done|].
  apply Hout, Forall_forall. intros k' Hk'.
  pose proof (whereCondition_outcome r k' (Hcols k' Hk')) as Hk.
  destruct (whereCondition r k'); [done|]. by exists k'.
Qed.

Lemma whereOfRecord_falsy (r : DbRecord) (k : string) (v : JsValue) :
  keyed r → k ∈ getPrimaryKeys (constructor r) →
  primaryKeyValue r k = Some v → truthy v = false →
  ∃ k', whereOfRecord r = Throw (MissingKeyValue k')
        ∧ getWhereClause r true = Throw (MissingKeyValue k').
Proof.
  intros [Hpk Hcols] Hk Hv Hfalsy. unfold whereOfRecord, getWhereClause.
  destruct (getPrimaryKeys (constructor r)) as [|k0 ks] eqn:Hks; [done|].
  change (length (k0 :: ks) =? 0)%nat with false. cbv iota.
  destruct (mapR_Throw isMissingKeyValue (whereCondition r) (k0 :: ks))
    as (e & -> & [k' ->]).
  - apply Forall_forall. intros k' Hk'.
    pose proof (whereCondition_outcome r k' (Hcols k' Hk')) as Hout.
    destruct (whereCondition r k'); [done|]. by exists k'.
  - apply Exists_exists. exists k. split; [done|].
    eexists. by eapply whereCondition_falsy.
  - by exists k'.
Qed.

Section DeleteKeys.
Context {DbState : Type}.
Variable tquery : QuerySqlToken -> DbState -> JsResult QueryResult * DbState.

(** C10.  A delete by instances throws the missing-key-value error, with
    nothing sent, as soon as one instance holds a falsy value in a primary
    key column: [0], the empty string, [false], [null] and [undefined] (and
    NaN) are the falsy values, and each makes [getWhereClause] throw. *)
Theorem delete_rejects_falsy_primary_key
    (fuel : nat) (config : DatabasePoolPlusConfig) (refs : OneOrMore nat)
    (options : DeleteQueryOptions.t) (w : @World DbState)
    (records : list DbRecord) (r : DbRecord) (k : string) (v : JsValue) :
  0 < deleteChunkMax config →
  (length records < fuel)%nat →
  deref (flatten refs) w = (Ok records, w) →
  DeleteQueryOptions.whereClause options = None →
  (∀ first, head records = Some first →
     noString (orString (DeleteQueryOptions.tableName options)
                 (table (recordConfig (getConfig (constructor first))))) = false) →
  Forall keyed records →
  r ∈ records →
  k ∈ getPrimaryKeys (constructor r) →
  primaryKeyValue r k = Some v →
  v = JsNum 0 ∨ v = JsStr "" ∨ v = JsBool false ∨ v = JsNull ∨ v = JsUndefined ∨ v = JsNaN →
  (∃ k', getWhereClause r true = Throw (MissingKeyValue k'))
  ∧ ∃ k', dbDeleteWorker tquery fuel config (OfRecords refs) options w
          = (Throw (MissingKeyValue k'), w).
Proof.
  intros Hc Hfuel Hderef Hwhere Htable Hkeyed Hr Hk Hv Hfalsy.
  apply falsy_values in Hfalsy.
  destruct (whereOfRecord_falsy r k v) as (k1 & Hthrow & Hclause); try done.
  { by apply (proj1 (Forall_forall _ _) Hkeyed). }
  split; [by exists k1|].
  unfold dbDeleteWorker, bindM. rewrite Hderef. simpl.
  destruct records as [|first rest]; [by apply elem_of_nil in Hr|].
  specialize (Htable first eq_refl). unfold liftR, deleteQueries.
  cbn [mbind option_bind head option_map].
  rewrite Hwhere, Htable.
  rewrite chunkLoop_chunks by done.
  set (records := first :: rest) in *.
  set (t := default "" _).
  destruct (mapR_Throw isMissingKeyValue (deleteChunkQuery t)
              (chunks (deleteChunkMax config) records)) as (e & -> & [k' ->]).
  - apply Forall_forall. intros ch Hch. unfold deleteChunkQuery.
    pose proof (mapR_outcome isMissingKeyValue whereOfRecord ch) as Hout.
    destruct (mapR whereOfRecord ch); simpl; [done|].
    apply Hout, Forall_forall. intros r' Hr'. apply whereOfRecord_outcome.
    eapply (proj1 (Forall_forall _ _) Hkeyed), chunks_elem_of; eauto.
  - assert (r ∈ concat (chunks (deleteChunkMax config) records)) as Hin
      by (by rewrite concat_chunks).
    apply list_elem_of_In, in_concat in Hin as (ch & Hch & Hrch).
    apply Exists_exists. exists ch. split; [by apply list_elem_of_In|].
    unfold deleteChunkQuery.
    destruct (mapR_Throw isMissingKeyValue whereOfRecord ch) as (e & -> & _).
    + apply Forall_forall. intros r' Hr'. apply whereOfRecord_outcome.
      eapply (proj1 (Forall_forall _ _) Hkeyed), chunks_elem_of; eauto.
      by apply list_elem_of_In.
    + apply Exists_exists. exists r. split; [by apply list_elem_of_In|]. eauto.
    + simpl. eauto.
  - by exists k'.
Qed.
End DeleteKeys.

(** A user with the key value [0] cannot be deleted by instance. *)
Lemma delete_rejects_zero_key :
  primaryKeyValue Sample.zed "id" = Some (JsNum 0)
  ∧ ∃ k', dbDeleteWorker Sample.quietDb 2 poolConfig (OfRecords (One 0%nat))
            DeleteQueryOptions.empty (Sample.emptyWorld Sample.zedHeap)
          = (Throw (MissingKeyValue k'), Sample.emptyWorld Sample.zedHeap).
Proof.
  split; [reflexivity|].
  refine (proj2 (delete_rejects_falsy_primary_key Sample.quietDb 2 poolConfig (One 0%nat)
                   DeleteQueryOptions.empty (Sample.emptyWorld Sample.zedHeap)
                   [Sample.zed] Sample.zed "id" (JsNum 0) _ _ _ _ _ _ _ _ _ _));
    try reflexivity.
  - simpl. lia.
  - intros first [= <-]. reflexivity.
  - repeat constructor; [by vm_compute|].
    intros k Hk. vm_compute in Hk. apply list_elem_of_singleton in Hk as ->.
    vm_compute. eauto.
  - apply list_elem_of_singleton. reflexivity.
  - vm_compute. apply list_elem_of_singleton. reflexivity.
  - auto.
Defined.

(** ** Registration and identifiers *)

Section RegistrationFacts.
Variable camelToSnake : string -> string.

Lemma JsMap_set_Forall {V} (P : string * V → Prop) (k : string) (v : V) (m : list (string * V)) :
  Forall P m → P (k, v) → Forall P (JsMap.set k v m).
Proof.
  intros Hm Hkv. induction Hm as [|[k' v'] m Hx Hm IH]; simpl.
  - by constructor.
  - destruct (String.eqb k k'); constructor; auto.
Qed.

Lemma withName_named (convert : bool) (key : string) (c : ColumnConfig) :
  is_Some (name (withName camelToSnake convert key c)).
Proof.
  unfold withName. destruct (name c) as [n|] eqn:Hn; [|by eexists].
  destruct (String.eqb n ""); [by eexists|]. by rewrite Hn.
Qed.

Lemma addOwnColumns_named (convert : bool) (own : list (string * ColumnConfig)) :
  allNamed (addOwnColumns camelToSnake convert own).
Proof.
  unfold addOwnColumns. generalize (@nil (string * ColumnConfig)) (Forall_nil_2 (fun e : string * ColumnConfig => is_Some (name e.2))).
  induction own as [|e own IH]; intros out Hout; simpl; [done|].
  apply IH, JsMap_set_Forall; [done|]. apply withName_named.
Qed.

Lemma addLineageColumns_named (out cols : list (string * ColumnConfig)) :
  allNamed out → allNamed cols → allNamed (addLineageColumns out cols).
Proof.
  unfold addLineageColumns. intros Hout Hcols. revert out Hout.
  induction Hcols as [|e cols He Hcols IH]; intros out Hout; simpl; [done|].
  apply IH. destruct (JsMap.has e.1 out); [done|].
  apply JsMap_set_Forall; [done|]. by destruct e.
Qed.

Lemma addLineage_outcome (out : list (string * ColumnConfig)) (lineage : list (option WithColumns)) :
  match addLineage out lineage with
  | Ok cols =>
      Forall is_Some lineage
      ∧ (allNamed out →
         Forall (fun anc => ∀ wc, anc = Some wc → allNamed (columns wc)) lineage →
         allNamed cols)
  | Throw e => e = TypeError ∧ ¬ Forall is_Some lineage
  end.
Proof.
  revert out. induction lineage as [|[anc|] lineage IH]; intros out; simpl.
  - split; [constructor|done].
  - specialize (IH (addLineageColumns out (columns anc))).
    destruct (addLineage _ lineage) as [cols|e].
    + destruct IH as [Hall Hnamed]. split; [by constructor; eauto|].
      intros Hout Hanc. inversion Hanc as [|?? Hwc Hrest]; subst.
      apply Hnamed; [|done]. apply addLineageColumns_named; [done|]. by apply Hwc.
    + destruct IH as [-> Hnot]. split; [done|]. intros Hall. apply Hnot.
      by inversion Hall.
  - split; [done|]. intros Hall. inversion Hall as [|?? Hnone ?].
    by destruct Hnone.
Qed.

(** Registration gives every column a database name, provided the
    ancestors were registered the same way. *)
Lemma record_names_set (cfg : RecordConfig) (own : option (list (string * ColumnConfig)))
    (lineage : list (option WithColumns)) (wc : WithColumns) :
  record camelToSnake cfg own lineage = Ok wc →
  Forall (fun anc => ∀ a, anc = Some a → allNamed (columns a)) lineage →
  allNamed (columns wc).
Proof.
  unfold record. intros Hrec Hlineage.
  match type of Hrec with
  | context [addLineage ?out lineage] =>
      pose proof (addLineage_outcome out lineage) as Hout;
      destruct (addLineage out lineage) as [cols|e]; simpl in Hrec; [|done];
      assert (allNamed out) as Hnamed
  end.
  { destruct own; [apply addOwnColumns_named|constructor]. }
  injection Hrec as <-. simpl. by apply Hout.
Qed.

(** Registration fails only on an ancestor without a configuration. *)
Lemma record_outcome (cfg : RecordConfig) (own : option (list (string * ColumnConfig)))
    (lineage : list (option WithColumns)) :
  match record camelToSnake cfg own lineage with
  | Ok _ => Forall is_Some lineage
  | Throw e => e = TypeError ∧ ¬ Forall is_Some lineage
  end.
Proof.
  unfold record.
  match goal with
  | |- context [addLineage ?out lineage] =>
      pose proof (addLineage_outcome out lineage) as Hout;
      destruct (addLineage out lineage) as [cols|e]; simpl
  end; [apply Hout | done].
Qed.
End RegistrationFacts.

Section IdentifierCheck.
Context {DbState : Type}.
Variable tquery : QuerySqlToken -> DbState -> JsResult QueryResult * DbState.

(** The column definition list is refused at the first output column
    whose database name is not an identifier, and only then. *)
Lemma colDefinitions_find (mode : Mode) (cols : list ColumnDetail) :
  match List.find (fun c => negb (isValidPostgresIdentifier (dbName c))) cols with
  | Some c => colDefinitions mode cols = Throw (InvalidIdentifier (dbName c))
  | None => ∃ defs, colDefinitions mode cols = Ok defs
  end.
Proof.
  induction cols as [|c cols IH]; simpl; [by eexists|].
  destruct (negb (isValidPostgresIdentifier (dbName c))); [done|].
  destruct (List.find _ cols) as [bad|].
  - by rewrite IH.
  - destruct IH as [defs ->]. simpl. by eexists.
Qed.

(** A write that fails its validation throws with the world as it was:
    nothing reached the driver and no instance changed. *)
Lemma dbSetWorker_throws_before_sending
    (fuel : nat) (thisConfig : DatabasePoolPlusConfig) (refs : OneOrMore nat)
    (mode : Mode) (opt : SetQueryOptions.t) (w : @World DbState)
    (instances : list DbRecord) (e : JsError) :
  deref (flatten refs) w = (Ok instances, w) →
  setQueries fuel thisConfig instances mode (normalizeOptions opt) = Throw e →
  dbSetWorker tquery fuel thisConfig refs mode opt w = (Throw e, w).
Proof.
  intros Hderef Hthrow. unfold dbSetWorker, bindM, liftR.
  by rewrite Hderef, Hthrow.
Qed.

(** C7, as the code has it.  Registration never raises the
    invalid-identifier error: it fails only when an ancestor has no
    configuration.  The names are checked when a write builds its column
    definition list: [createOutputObjects] throws for the first output
    column whose database name is not an unquoted identifier and succeeds
    when there is none, and a write that throws there has sent nothing. *)
Theorem identifiers_checked_when_writing
    (camelToSnake : string -> string) (cfg : RecordConfig)
    (own : option (list (string * ColumnConfig))) (lineage : list (option WithColumns))
    (mode : Mode) (options : SetQueryOptions.t) (primaryKeyColumns : list ColumnDetail)
    (knownKeys : gset string) (insertableColumns : list ColumnDetail)
    (records : list DbRecord)
    (fuel : nat) (thisConfig : DatabasePoolPlusConfig) (refs : OneOrMore nat)
    (opt : SetQueryOptions.t) (w : @World DbState) :
  match record camelToSnake cfg own lineage with
  | Ok _ => Forall is_Some lineage
  | Throw e => e = TypeError ∧ ¬ Forall is_Some lineage
  end
  ∧ match List.find (fun c => negb (isValidPostgresIdentifier (dbName c)))
            (JsMap.values (outputColumns mode options primaryKeyColumns insertableColumns)) with
    | Some c =>
        createOutputObjects mode options primaryKeyColumns knownKeys insertableColumns records
        = Throw (InvalidIdentifier (dbName c))
    | None =>
        ∃ defs,
          createOutputObjects mode options primaryKeyColumns knownKeys insertableColumns records
          = Ok (defs, imap (outputObject mode options primaryKeyColumns knownKeys
                              insertableColumns) records)
    end
  ∧ match deref (flatten refs) w with
    | (Ok instances, _) =>
        ∀ s, setQueries fuel thisConfig instances mode (normalizeOptions opt)
             = Throw (InvalidIdentifier s) →
             dbSetWorker tquery fuel thisConfig refs mode opt w
             = (Throw (InvalidIdentifier s), w)
    | (Throw _, _) => True
    end.
Proof.
  split; [apply record_outcome|]. split.
  - unfold createOutputObjects.
    pose proof (colDefinitions_find mode
                  (JsMap.values (outputColumns mode options primaryKeyColumns insertableColumns)))
      as Hfind.
    destruct (List.find _ _) as [bad|].
    + by rewrite Hfind.
    + destruct Hfind as [defs ->]. simpl. by eexists.
  - destruct (deref (flatten refs) w) as [[instances|e] w'] eqn:Hderef; [|done].
    intros s Hthrow. apply (dbSetWorker_throws_before_sending _ _ _ _ _ _ instances); [|done].
    rewrite Hderef. f_equal. unfold deref in Hderef. by injection Hderef.
Qed.
End IdentifierCheck.

(** Against C7 as stated: a column stored under the name [bad name], which
    is no identifier, is registered without complaint. *)
Lemma registration_accepts_invalid_identifier :
  isValidPostgresIdentifier "bad name" = false
  ∧ record (fun s => s) Sample.articleConfig (Some Sample.articleColumns) []
    = Ok (getConfig Sample.Article)
  ∧ ¬ ∃ s, record (fun s => s) Sample.articleConfig (Some Sample.articleColumns) []
           = Throw (InvalidIdentifier s).
Proof.
  split; [reflexivity|]. split; [reflexivity|]. by intros [s Hs].
Qed.

(** The name is refused when the first write builds its statement. *)
Example insert_refuses_invalid_identifier :
  dbSetWorker Sample.quietDb 2 poolConfig (One 0%nat) insert SetQueryOptions.empty
    (Sample.emptyWorld Sample.articleHeap)
  = (Throw (InvalidIdentifier "bad name"), Sample.emptyWorld Sample.articleHeap).
Proof. by vm_compute. Qed.

(** ** The conflict target of an upsert *)

Lemma renderSql_identifiers (names : list string) :
  renderSql (identifiers names) = joinStrings ", " (map quoteIdent names).
Proof.
  unfold identifiers. simpl. f_equal. rewrite map_map.
  apply map_ext. intros k. reflexivity.
Qed.




(** The whole statement of that upsert, as the worker builds it. *)
Example upsert_statement_of_user :
  match setQueries 2 poolConfig [Sample.alice] upsert (normalizeOptions SetQueryOptions.empty) with
  | Ok (_, _, queries) =>
      map renderSql queries
      = ["INSERT INTO " ++ quoteIdent "users" ++ " (" ++ quoteIdent "id" ++ ", "
         ++ quoteIdent "name" ++ ") SELECT " ++ quoteIdent "id" ++ ", " ++ quoteIdent "name"
         ++ " FROM jsonb_to_recordset($jsonb) AS __source__ (" ++ quoteIdent "id" ++ " int4, "
         ++ quoteIdent "name" ++ " text, " ++ quoteIdent "__dbRecordIndex__"
         ++ " int4) ON CONFLICT (" ++ quoteIdent "id" ++ ") DO UPDATE SET ("
         ++ quoteIdent "id" ++ ", " ++ quoteIdent "name" ++ ") = (EXCLUDED."
         ++ quoteIdent "id" ++ ", EXCLUDED." ++ quoteIdent "name" ++ ") "]
  | Throw _ => False
  end.
Proof. by vm_compute. Qed.

(** ** Hydration of selected rows *)

Section Hydration.
Variable ctor : Ctor.
Variable options : GetQueryOptions.

Lemma fixedObjOf_fold (obj : list (string * JsValue)) (m : gmap string JsValue) (k : string) :
  k ∉ map (fun e => resKeyOf ctor options e.1) obj →
  foldl (fun fixedObj e => <[resKeyOf ctor options e.1 := fixupValue ctor options e.1 e.2]> fixedObj)
    m obj !! k = m !! k.
Proof.
  revert m. induction obj as [|e obj IH]; intros m Hk; simpl; [done|].
  simpl in Hk. apply not_elem_of_cons in Hk as [Hne Hk].
  rewrite IH by done. by rewrite lookup_insert_ne.
Qed.

(** With no two entries of the row landing on the same property, every
    entry is found on the instance under its property name, with the value
    the loop computed for it. *)
Lemma fixupResult_lookup (obj : list (string * JsValue)) (key : string) (value : JsValue) :
  NoDup (map (fun e => resKeyOf ctor options e.1) obj) →
  (key, value) ∈ obj →
  props (fixupResult ctor options obj) !! resKeyOf ctor options key
  = Some (fixupValue ctor options key value).
Proof.
  unfold fixupResult, construct, objectAssign, fixedObjOf. simpl.
  rewrite (right_id_L ∅ (∪)).
  generalize (∅ : gmap string JsValue).
  induction obj as [|e obj IH]; intros m Hnodup Hin; [by apply elem_of_nil in Hin|].
  simpl in *. apply NoDup_cons in Hnodup as [Hfresh Hnodup].
  apply elem_of_cons in Hin as [Heq|Hin].
  - subst e. rewrite fixedObjOf_fold by done. simpl. by rewrite lookup_insert_eq.
  - by apply IH.
Qed.

(** C5, as the code has it.  A null column value reaches the read
    transformer of its column unchanged, as [null], and what the
    transformer returns is stored; for a column without a transformer the
    null is stored as [undefined].  The instance is snapshotted as
    hydrated. *)
Theorem hydration_of_null (obj : list (string * JsValue)) (key : string) :
  NoDup (map (fun e => resKeyOf ctor options e.1) obj) →
  (key, JsNull) ∈ obj →
  props (fixupResult ctor options obj) !! resKeyOf ctor options key
  = Some (match JsMap.get key (getTransformerMap ctor options) with
          | Some (InclFn transformer) => transformer JsNull
          | _ => JsUndefined
          end)
  ∧ _original (fixupResult ctor options obj) = Some (props (fixupResult ctor options obj)).
Proof.
  intros Hnodup Hin. split; [|done].
  rewrite (fixupResult_lookup obj key JsNull) by done.
  unfold fixupValue. by destruct (JsMap.get key _) as [[]|].
Qed.
End Hydration.

Lemma hydration_of_null_witness :
  NoDup (map (fun e => resKeyOf Sample.Event Sample.noGetOptions e.1) Sample.eventRow)
  ∧ ("created_at", JsNull) ∈ Sample.eventRow
  ∧ props (fixupResult Sample.Event Sample.noGetOptions Sample.eventRow) !! "createdAt"
    = Some (JsStr "transformer saw null").
Proof.
  assert (NoDup (map (fun e => resKeyOf Sample.Event Sample.noGetOptions e.1) Sample.eventRow))
    as Hnodup by (apply (bool_decide_unpack _); by vm_compute).
  assert (("created_at", JsNull) ∈ Sample.eventRow) as Hin by apply list_elem_of_here.
  split; [done|]. split; [done|].
  exact (proj1 (hydration_of_null Sample.Event Sample.noGetOptions Sample.eventRow
                  "created_at" Hnodup Hin)).
Defined.

(** Against C5 as stated: the read transformer of [createdAt] tells
    [null] from [undefined], and hydrating a row whose [created_at] is null
    stores what it answers to [null]. *)
Lemma read_transformer_receives_null :
  props (fixupResult Sample.Event Sample.noGetOptions Sample.eventRow) !! "createdAt"
  = Some (Sample.probe JsNull)
  ∧ props (fixupResult Sample.Event Sample.noGetOptions Sample.eventRow) !! "createdAt"
    ≠ Some (Sample.probe JsUndefined)
  ∧ props (fixupResult Sample.Event Sample.noGetOptions Sample.eventRow) !! "note"
    = Some JsUndefined.
Proof. split; [by vm_compute|]. split; [by vm_compute|]. by vm_compute. Qed.

(** ** Reconciliation *)

Section Reconciliation.
Variable options : SetQueryOptions.t.
Variable ctor : Ctor.
Variable primaryKeyColumns : list ColumnDetail.
Variable record : list nat.

Abbreviation reconcileRows' := (reconcileRows options ctor primaryKeyColumns record).
Abbreviation reconcileResults' := (reconcileResults options ctor primaryKeyColumns record).
Abbreviation target := (recordAt record).
Abbreviation dataOf := (columnDataOf options ctor primaryKeyColumns).
Abbreviation apply := (applyRows options ctor primaryKeyColumns record).

Lemma reconcileRows_app (h : gmap nat DbRecord) (rs1 rs2 : list (gmap string JsValue)) :
  reconcileRows' h (rs1 ++ rs2)
  = match reconcileRows' h rs1 with
    | Ok (Continue h') => reconcileRows' h' rs2
    | other => other
    end.
Proof.
  revert h. induction rs1 as [|row rs1 IH]; intros h; simpl; [done|].
  destruct (reconcileRow _ _ _ _ h row) as [[h'|h']|e]; simpl; auto.
Qed.

(** The two nested loops visit the rows of all results as one sequence. *)
Lemma reconcileResults_flat (h : gmap nat DbRecord) (results : list QueryResult) :
  reconcileResults' h results = reconcileRows' h (allRows results).
Proof.
  revert h. induction results as [|result results IH]; intros h; simpl; [done|].
  unfold allRows. simpl. rewrite reconcileRows_app.
  destruct (reconcileRows' h (rows result)) as [[h'|h']|e]; simpl; auto.
Qed.

(** A row without one of the columns ends the reconciliation on the
    spot: no error, no assignment, and no later row is looked at. *)
Lemma incomplete_row_returns (h : gmap nat DbRecord) (row : gmap string JsValue)
    (rest : list (gmap string JsValue)) :
  ¬ completeRow options ctor primaryKeyColumns row →
  reconcileRows' h (row :: rest) = Ok (Return h).
Proof.
  unfold completeRow. intros Hrow. simpl. unfold reconcileRow.
  destruct (fillColumnData _ row ∅); [|done]. destruct Hrow. by eexists.
Qed.

Lemma reconcileRows_complete (h : gmap nat DbRecord) (rs : list (gmap string JsValue)) :
  Forall (completeRow options ctor primaryKeyColumns) rs →
  Forall (indexedRow record) rs →
  reconcileRows' h rs = Ok (Continue (apply rs h)).
Proof.
  intros Hcomplete. revert h.
  induction Hcomplete as [|row rs [data Hdata] _ IH]; intros h Hindexed; simpl; [done|].
  inversion Hindexed as [|?? [ref Href] Hrest]; subst.
  unfold reconcileRow, columnDataOf. rewrite Hdata, Href. simpl. by apply IH.
Qed.

Lemma applyRows_lookup_other (rs : list (gmap string JsValue)) (h : gmap nat DbRecord)
    (ref : nat) :
  Some ref ∉ map target rs → apply rs h !! ref = h !! ref.
Proof.
  revert h. induction rs as [|row rs IH]; intros h Hnot; simpl; [done|].
  simpl in Hnot. apply not_elem_of_cons in Hnot as [Hne Hnot].
  unfold applyRows in *. simpl. rewrite IH by done.
  destruct (target row) as [ref'|]; [|done].
  apply lookup_alter_ne. congruence.
Qed.

Lemma applyRows_lookup (rs : list (gmap string JsValue)) (h : gmap nat DbRecord)
    (row : gmap string JsValue) (ref : nat) :
  NoDup (map target rs) → row ∈ rs → target row = Some ref →
  apply rs h !! ref = assignRecord (dataOf row) <$> h !! ref.
Proof.
  revert h. induction rs as [|r rs IH]; intros h Hnodup Hin Href;
    [by apply elem_of_nil in Hin|].
  simpl in Hnodup. apply NoDup_cons in Hnodup as [Hfresh Hnodup].
  apply elem_of_cons in Hin as [Heq|Hin].
  - subst r. change (apply (row :: rs) h) with
      (apply rs (match target row with
                 | Some ref => alter (assignRecord (dataOf row)) ref h
                 | None => h
                 end)).
    rewrite Href in *. rewrite applyRows_lookup_other by done.
    apply lookup_alter_eq.
  - change (apply (r :: rs) h) with
      (apply rs (match target r with
                 | Some ref => alter (assignRecord (dataOf r)) ref h
                 | None => h
                 end)).
    rewrite IH by done. f_equal.
    destruct (target r) as [ref'|] eqn:Hr; [|done].
    apply lookup_alter_ne. intros ->. apply Hfresh.
    rewrite <- Href. by apply list_elem_of_fmap_2.
Qed.

(** With distinct instances in the array, rows with distinct indices
    have distinct targets. *)
Lemma targets_distinct (rs : list (gmap string JsValue)) :
  NoDup record →
  Forall (indexedRow record) rs →
  NoDup (map (fun row : gmap string JsValue => row !! "__dbRecordIndex__") rs) →
  NoDup (map target rs).
Proof.
  intros Hrecord Hindexed. induction Hindexed as [|row rs [ref Href] Hrest IH]; simpl;
    intros Hnodup; [constructor|].
  apply NoDup_cons in Hnodup as [Hfresh Hnodup]. apply NoDup_cons. split; [|by apply IH].
  intros Hin. apply Hfresh.
  apply list_elem_of_fmap in Hin as (row' & Heq & Hrow').
  apply list_elem_of_fmap. exists row'. split; [|done].
  rewrite Href in Heq. symmetry in Heq. unfold recordAt in Href, Heq.
  destruct (row !! "__dbRecordIndex__") as [[| | |n| | |]|]; try done.
  destruct (row' !! "__dbRecordIndex__") as [[| | |n'| | |]|]; try done.
  destruct (Z.leb_spec 0 n); [|done]. destruct (Z.leb_spec 0 n'); [|done].
  pose proof (NoDup_lookup _ _ _ _ Hrecord Href Heq). do 2 f_equal. lia.
Qed.

Lemma outputObject_index (mode : Mode) (knownKeys : gset string)
    (insertableColumns : list ColumnDetail) (recordIndex : nat) (rec : DbRecord) :
  outputObject mode options primaryKeyColumns knownKeys insertableColumns recordIndex rec
    !! "__dbRecordIndex__"
  = Some (JsNum (Z.of_nat recordIndex)).
Proof.
  unfold outputObject, objectAssign. apply lookup_union_Some_l, lookup_singleton_eq.
Qed.

End Reconciliation.

Section WorkerRun.
Context {DbState : Type}.
Variable tquery : QuerySqlToken -> DbState -> JsResult QueryResult * DbState.

(** A write that passes its validation, is answered by the database and
    asked for results: the rows are reconciled on the heap the statements
    left, and then every instance of the batch is snapshotted. *)
Lemma dbSetWorker_reconciles
    (fuel : nat) (thisConfig : DatabasePoolPlusConfig) (refs : OneOrMore nat)
    (mode : Mode) (opt : SetQueryOptions.t) (w w1 : @World DbState)
    (instances : list DbRecord) (ctor : Ctor) (primaryKeyColumns : list ColumnDetail)
    (queries : list QuerySqlToken) (res : list QueryResult) (h2 : gmap nat DbRecord) :
  deref (flatten refs) w = (Ok instances, w) →
  setQueries fuel thisConfig instances mode (normalizeOptions opt)
  = Ok (ctor, primaryKeyColumns, queries) →
  performQueries tquery queries (SetQueryOptions.startingQuery opt)
    (SetQueryOptions.finalQuery opt) w = (Ok res, w1) →
  SetQueryOptions.resultType (normalizeOptions opt) ≠ Some ResultNone →
  updateDbRecordObjects (normalizeOptions opt) ctor primaryKeyColumns (flatten refs) res
    (heap w1) = Ok h2 →
  dbSetWorker tquery fuel thisConfig refs mode opt w
  = (Ok res,
     {| sent := sent w1; db := db w1;
        heap := foldl (fun h r => alter saveState r h) h2 (flatten refs) |}).
Proof.
  intros Hderef Hbuilt Hsent Hrt Hrec.
  unfold dbSetWorker, bindM, liftR. rewrite Hderef, Hbuilt. simpl.
  rewrite Hsent. rewrite bool_decide_eq_false_2 by done. simpl.
  unfold updateRecordsM. by rewrite Hrec.
Qed.
End WorkerRun.


(** The column sets of the reconciliation are made of read columns, so the
    test for a column configured with [in: false] never fires. *)
Lemma columnSet_readable (options : SetQueryOptions.t) (ctor : Ctor) (c : ColumnDetail) :
  c ∈ columnSet options ctor
        (filter (fun c => dbName c ∈ getPrimaryKeys ctor) (getSelectColumns ctor)) →
  notFalse (cfg_in (config c)) = true.
Proof.
  assert (∀ c, c ∈ getSelectColumns ctor → notFalse (cfg_in (config c)) = true) as Hsel.
  { intros c' Hc'. unfold getSelectColumns in Hc'.
    apply list_elem_of_fmap in Hc' as ([k cfg] & -> & Hin).
    apply list_elem_of_filter in Hin as [Hin _]. simpl in *.
    by apply andb_true_iff in Hin as [? _]. }
  unfold columnSet. destruct (bool_decide _); [|by apply Hsel].
  intros Hc. apply list_elem_of_filter in Hc as [_ Hc]. by apply Hsel.
Qed.

(** A row that lacks a column ends the whole reconciliation: the rows
    after it, in the same result and in the results that follow, are not
    assigned, and no error is raised. *)
Lemma incomplete_row_ends_reconciliation
    (options : SetQueryOptions.t) (ctor : Ctor) (primaryKeyColumns : list ColumnDetail)
    (record : list nat) (row : gmap string JsValue) (rest : list (gmap string JsValue))
    (results : list QueryResult) (h : gmap nat DbRecord) :
  ¬ completeRow options ctor primaryKeyColumns row →
  updateDbRecordObjects options ctor primaryKeyColumns record
    ({| rows := row :: rest |} :: results) h = Ok h.
Proof.
  intros Hrow. unfold updateDbRecordObjects.
  change (reconcileResults options ctor primaryKeyColumns record h
            ({| rows := row :: rest |} :: results))
    with (let! f := reconcileRows options ctor primaryKeyColumns record h (row :: rest) in
          match f with
          | Continue h' => reconcileResults options ctor primaryKeyColumns record h' results
          | Return h' => Ok (Return h')
          end).
  by rewrite incomplete_row_returns.
Qed.

(** C2 on a concrete input.  The two rows returned for two users are
    complete, and alone they are assigned to the users.  Behind the row of
    another statement, or behind a row that lost a column, they are not: the
    heap stays as it was, though each of the two rows has every column. *)
Theorem reconciliation_stops_at_incomplete_row :
  match updateDbRecordObjects Sample.syncOptions Sample.User Sample.userPrimaryKeyColumns
          [0%nat; 1%nat] [{| rows := [Sample.stored0; Sample.stored1] |}] Sample.userHeap with
  | Ok h' =>
      nameAt h' 0 = Some (JsStr "alice, stored") ∧ nameAt h' 1 = Some (JsStr "bob, stored")
  | Throw _ => False
  end
  ∧ nameAt Sample.userHeap 0 = Some (JsStr "alice")
  ∧ nameAt Sample.userHeap 1 = Some (JsStr "bob")
  ∧ updateDbRecordObjects Sample.syncOptions Sample.User Sample.userPrimaryKeyColumns
      [0%nat; 1%nat]
      [{| rows := [Sample.stray] |}; {| rows := [Sample.stored0; Sample.stored1] |}]
      Sample.userHeap
    = Ok Sample.userHeap
  ∧ updateDbRecordObjects Sample.syncOptions Sample.User Sample.userPrimaryKeyColumns
      [0%nat; 1%nat] [{| rows := [Sample.partial0; Sample.stored1] |}] Sample.userHeap
    = Ok Sample.userHeap.
Proof.
  split; [vm_compute; split; reflexivity|].
  split; [reflexivity|]. split; [reflexivity|]. split.
  - apply incomplete_row_ends_reconciliation.
    apply (bool_decide_unpack _). vm_compute. reflexivity.
  - apply incomplete_row_ends_reconciliation.
    apply (bool_decide_unpack _). vm_compute. reflexivity.
Qed.

(** The same through the worker: an insert that synchronises, preceded by
    a statement of the caller whose row comes back first.  The rows of the
    insert are complete, yet the users keep the values they had; without
    the first statement they take the stored values. *)
Example sync_behind_starting_query :
  (let '(res, w) :=
     dbSetWorker Sample.cannedDb 3 poolConfig (More [0%nat; 1%nat]) insert
       Sample.syncAfterStarting
       (Sample.cannedWorld [{| rows := [Sample.stray] |};
                            {| rows := [Sample.stored0; Sample.stored1] |}]
          Sample.userHeap) in
   nameAt (heap w) 0 = Some (JsStr "alice")
   ∧ nameAt (heap w) 1 = Some (JsStr "bob")
   ∧ length (sent w) = 2%nat)
  ∧ (let '(res, w) :=
       dbSetWorker Sample.cannedDb 3 poolConfig (More [0%nat; 1%nat]) insert
         Sample.syncOnly
         (Sample.cannedWorld [{| rows := [Sample.stored0; Sample.stored1] |}]
            Sample.userHeap) in
     nameAt (heap w) 0 = Some (JsStr "alice, stored")
     ∧ nameAt (heap w) 1 = Some (JsStr "bob, stored")
     ∧ length (sent w) = 1%nat).
Proof. vm_compute. split; (split; [|split]); reflexivity. Qed.

(** ** Insertion-ordered maps *)

Section JsMapFacts.
Context {V : Type}.
Implicit Types (m es : list (string * V)) (k : string) (v : V).

Lemma JsMap_set_fresh k v m :
  k ∉ map fst m → JsMap.set k v m = (m ++ [(k, v)])%list.
Proof.
  induction m as [|[k' v'] m IH]; simpl; intros Hk; [done|].
  apply not_elem_of_cons in Hk as [Hne Hk].
  destruct (String.eqb_spec k k'); [done|]. by rewrite IH.
Qed.

Lemma JsMap_ofEntries_NoDup es : NoDup (map fst es) → JsMap.ofEntries es = es.
Proof.
  unfold JsMap.ofEntries.
  assert (∀ acc, NoDup (map fst (acc ++ es)) →
            foldl (fun m kv => JsMap.set kv.1 kv.2 m) acc es = (acc ++ es)%list) as Hgen.
  { induction es as [|[k v] es IH]; intros acc Hnodup; simpl.
    - by rewrite app_nil_r.
    - rewrite JsMap_set_fresh.
      + rewrite IH; rewrite <- app_assoc; [done|]. done.
      + rewrite map_app in Hnodup. simpl in Hnodup.
        apply NoDup_app in Hnodup as (_ & Hdisj & _).
        intros Hin. apply (Hdisj k Hin). apply list_elem_of_here. }
  intros Hnodup. by apply (Hgen []).
Qed.

Lemma JsMap_get_NoDup k v m :
  NoDup (map fst m) → (k, v) ∈ m → JsMap.get k m = Some v.
Proof.
  induction m as [|[k' v'] m IH]; simpl; intros Hnodup Hin; [by apply elem_of_nil in Hin|].
  apply NoDup_cons in Hnodup as [Hfresh Hnodup].
  apply elem_of_cons in Hin as [[= <- <-]|Hin].
  - by rewrite String.eqb_refl.
  - destruct (String.eqb_spec k k') as [->|]; [|by apply IH].
    destruct Hfresh. by apply (list_elem_of_fmap_2 fst _ (k', v)).
Qed.

(** Setting a key keeps every entry it does not replace by another value. *)
Lemma JsMap_set_keeps k v k' v' m :
  (k, v) ∈ m → (k = k' → v = v') → (k, v) ∈ JsMap.set k' v' m.
Proof.
  induction m as [|[k0 v0] m IH]; simpl; intros Hin Hsame; [by apply elem_of_nil in Hin|].
  apply elem_of_cons in Hin as [[= <- <-]|Hin].
  - destruct (String.eqb_spec k' k) as [->|].
    + rewrite (Hsame eq_refl). apply list_elem_of_here.
    + apply list_elem_of_here.
  - destruct (String.eqb k' k0).
    + by apply list_elem_of_further.
    + apply list_elem_of_further. by apply IH.
Qed.

Lemma JsMap_set_elem_of k v k' v' m :
  (k, v) ∈ JsMap.set k' v' m → (k, v) ∈ m ∨ (k, v) = (k', v').
Proof.
  induction m as [|[k0 v0] m IH]; simpl.
  - intros Hin. apply list_elem_of_singleton in Hin. by right.
  - destruct (String.eqb k' k0).
    + intros [->|Hin]%elem_of_cons; [by right|]. left. by apply list_elem_of_further.
    + intros [->|Hin]%elem_of_cons; [left; apply list_elem_of_here|].
      destruct (IH Hin) as [?|?]; [left; by apply list_elem_of_further | by right].
Qed.
End JsMapFacts.
(** ** Columns of a record type *)

Lemma NoDup_fst_functional {A B} (l : list (A * B)) (k : A) (v1 v2 : B) :
  NoDup (map fst l) → (k, v1) ∈ l → (k, v2) ∈ l → v1 = v2.
Proof.
  induction l as [|[k' v'] l IH]; simpl; intros Hnodup H1 H2; [by apply elem_of_nil in H1|].
  apply NoDup_cons in Hnodup as [Hfresh Hnodup].
  apply elem_of_cons in H1 as [E1|H1]; apply elem_of_cons in H2 as [E2|H2];
    simplify_eq.
  - done.
  - destruct Hfresh. by apply (list_elem_of_fmap_2 fst _ (k', v2)).
  - destruct Hfresh. by apply (list_elem_of_fmap_2 fst _ (k', v1)).
  - by apply IH.
Qed.

Section ColumnFacts.
Variable ctor : Ctor.

Lemma getInsertColumns_details (c : ColumnDetail) :
  c ∈ getInsertColumns ctor → c ∈ allDetails ctor.
Proof.
  unfold getInsertColumns, allDetails. intros (e & -> & He)%list_elem_of_fmap.
  apply list_elem_of_fmap_2. by apply list_elem_of_filter in He as [_ ?].
Qed.

Lemma getSelectColumns_details (c : ColumnDetail) :
  c ∈ getSelectColumns ctor → c ∈ allDetails ctor.
Proof.
  unfold getSelectColumns, allDetails. intros (e & -> & He)%list_elem_of_fmap.
  apply list_elem_of_fmap_2. by apply list_elem_of_filter in He as [_ ?].
Qed.

Hypothesis names_unique : NoDup (map fst (columns (getConfig ctor))).

Lemma details_by_name (c1 c2 : ColumnDetail) :
  c1 ∈ allDetails ctor → c2 ∈ allDetails ctor → cd_name c1 = cd_name c2 → c1 = c2.
Proof.
  unfold allDetails.
  intros ([k1 v1] & -> & H1)%list_elem_of_fmap ([k2 v2] & -> & H2)%list_elem_of_fmap.
  simpl. intros <-. by rewrite (NoDup_fst_functional _ k1 v1 v2 names_unique H1 H2).
Qed.

Lemma getInsertColumns_names : NoDup (map cd_name (getInsertColumns ctor)).
Proof.
  unfold getInsertColumns. rewrite map_map. simpl.
  eapply sublist_NoDup; [exact names_unique|].
  apply fmap_sublist, sublist_filter.
Qed.
End ColumnFacts.

(** ** Column selection of an update *)

Lemma getChangedColumns_elem (r : DbRecord) (c : ColumnDetail) :
  c ∈ getChangedColumns r ↔
  c ∈ getInsertColumns (constructor r)
  ∧ match _original r with
    | None => True
    | Some orig =>
        strictEq (getProp orig (cd_name c)) (getProp (props r) (cd_name c)) = false
    end.
Proof.
  unfold getChangedColumns. destruct (_original r) as [orig|]; [|tauto].
  rewrite list_elem_of_filter, negb_true_iff. tauto.
Qed.

Lemma allChangedNames_elem (records : list DbRecord) (x : string) :
  x ∈ allChangedNames records ↔
  ∃ r, r ∈ records ∧ x ∈ map cd_name (getChangedColumns r).
Proof.
  unfold allChangedNames.
  assert (∀ acc : gset string,
            x ∈ foldl (fun acc rec =>
                         acc ∪ list_to_set (map cd_name (getChangedColumns rec))) acc records
            ↔ x ∈ acc ∨ ∃ r, r ∈ records ∧ x ∈ map cd_name (getChangedColumns r)) as Hgen.
  { induction records as [|rec records IH]; intros acc; simpl.
    - split; [auto|]. intros [?|(r & Hr & _)]; [done|by apply elem_of_nil in Hr].
    - rewrite IH, elem_of_union, elem_of_list_to_set. split.
      + intros [[?|?]|(r & Hr & Hx)]; [by left| |].
        * right. exists rec. split; [apply list_elem_of_here|done].
        * right. exists r. split; [by apply list_elem_of_further|done].
      + intros [?|(r & Hr & Hx)]; [by left; left|].
        apply elem_of_cons in Hr as [->|Hr]; [by left; right|].
        right. by exists r. }
  rewrite Hgen. split; [|by right]. intros [Hx|?]; [|done]. by apply elem_of_empty in Hx.
Qed.

Section UpdateColumns.
Variable options : SetQueryOptions.t.
Variable ctor : Ctor.
Variable knownKeys : gset string.
Variable records : list DbRecord.

Hypothesis no_column_list :
  ∀ names, SetQueryOptions.columns options ≠ Some (ColumnsList names).

Lemma getColumns_update :
  getColumns update options ctor knownKeys records
  = (filter (fun c => cd_name c ∈ allChangedNames records)
       (filter (fun c => cd_name c ∈ knownKeys) (getInsertColumns ctor)),
     filter (fun c => excludeFromUpdate (config c) = false)
       (filter (fun c => cd_name c ∈ allChangedNames records)
          (filter (fun c => cd_name c ∈ knownKeys) (getInsertColumns ctor)))).
Proof.
  unfold getColumns.
  destruct (SetQueryOptions.columns options) as [[|names]|] eqn:Hcols; try done.
  by destruct (no_column_list names).
Qed.

Lemma getColumns_update_sublist :
  (getColumns update options ctor knownKeys records).1 `sublist_of` getInsertColumns ctor.
Proof.
  rewrite getColumns_update. simpl. etrans; apply sublist_filter.
Qed.
End UpdateColumns.

(** ** Values of the output objects *)

Section OutputValues.
Variable mode : Mode.
Variable knownKeys : gset string.
Variable insertableColumns : list ColumnDetail.
Variable rec : DbRecord.

Abbreviation write := (writeColumn mode knownKeys insertableColumns rec).
Abbreviation writtenValue' := (writtenValue knownKeys insertableColumns rec).

Lemma writeColumn_other (res : gmap string JsValue) (c : ColumnDetail) (k : string) :
  k ∉ keysOf mode c → write res c !! k = res !! k.
Proof.
  unfold keysOf, writeColumn. intros Hk.
  apply not_elem_of_cons in Hk as [Hne Hk].
  destruct (isUpdate mode && hasPrimaryKey (config c)).
  - apply not_elem_of_cons in Hk as [Hne' _]. by rewrite !lookup_insert_ne.
  - by rewrite lookup_insert_ne.
Qed.

Lemma writeColumn_own (res : gmap string JsValue) (c : ColumnDetail) :
  NoDup (keysOf mode c) → write res c !! dbName c = Some (writtenValue' c).
Proof.
  unfold keysOf, writeColumn, writtenValue. intros Hnodup.
  destruct (isUpdate mode && hasPrimaryKey (config c)).
  - apply NoDup_cons in Hnodup as [Hne _].
    rewrite lookup_insert_ne; [by rewrite lookup_insert_eq|].
    intros Heq. apply Hne. by apply list_elem_of_singleton.
  - by rewrite lookup_insert_eq.
Qed.

Lemma foldl_writeColumn_other (cols : list ColumnDetail) (res : gmap string JsValue)
    (k : string) :
  k ∉ writtenKeys mode cols → foldl write res cols !! k = res !! k.
Proof.
  revert res. induction cols as [|c cols IH]; intros res Hk; simpl; [done|].
  unfold writtenKeys in Hk. cbn [map concat] in Hk. apply not_elem_of_app in Hk as [Hc Hk].
  rewrite IH by done. by apply writeColumn_other.
Qed.

Lemma foldl_writeColumn_lookup (cols : list ColumnDetail) (res : gmap string JsValue)
    (c : ColumnDetail) :
  NoDup (writtenKeys mode cols) → c ∈ cols →
  foldl write res cols !! dbName c = Some (writtenValue' c).
Proof.
  revert res. induction cols as [|c0 cols IH]; intros res Hnodup Hin;
    [by apply elem_of_nil in Hin|].
  unfold writtenKeys in Hnodup. cbn [map concat] in Hnodup. cbn [foldl].
  apply NoDup_app in Hnodup as (Hown & Hdisj & Hrest).
  apply elem_of_cons in Hin as [<-|Hin].
  - rewrite foldl_writeColumn_other; [by apply writeColumn_own|].
    apply Hdisj. apply list_elem_of_here.
  - by apply IH.
Qed.
End OutputValues.

Lemma outputColumns_keeps (options : SetQueryOptions.t) (ctor : Ctor)
    (primaryKeyColumns insertableColumns : list ColumnDetail) (c : ColumnDetail) :
  NoDup (map fst (columns (getConfig ctor))) →
  (∀ pk, pk ∈ primaryKeyColumns → pk ∈ getSelectColumns ctor) →
  insertableColumns `sublist_of` getInsertColumns ctor →
  c ∈ insertableColumns →
  c ∈ JsMap.values (outputColumns update options primaryKeyColumns insertableColumns).
Proof.
  intros Hnames Hpk Hsub Hc.
  assert (NoDup (map cd_name insertableColumns)) as Hnodup.
  { eapply sublist_NoDup; [by apply getInsertColumns_names|]. by apply fmap_sublist. }
  assert (c ∈ allDetails ctor) as Hdetail.
  { apply getInsertColumns_details. eapply elem_of_sublist; eauto. }
  unfold outputColumns, JsMap.values.
  rewrite JsMap_ofEntries_NoDup by (by rewrite map_map).
  assert ((cd_name c, c) ∈ map (fun c => (cd_name c, c)) insertableColumns) as Hin
    by (by apply (list_elem_of_fmap_2 (fun c => (cd_name c, c)))).
  change (isUpdate update) with true. rewrite orb_true_r.
  revert Hin. generalize (map (fun c => (cd_name c, c)) insertableColumns).
  induction primaryKeyColumns as [|pk pks IH]; intros m Hin; simpl.
  - by apply (list_elem_of_fmap_2 snd _ (cd_name c, c)).
  - apply IH.
    + intros pk' Hpk'. apply Hpk. by apply list_elem_of_further.
    + apply JsMap_set_keeps; [done|]. intros Hname.
      apply (details_by_name ctor Hnames); [done| |done].
      apply getSelectColumns_details, Hpk, list_elem_of_here.
Qed.




(** * Further properties of the code *)

(** ** Running statements in a transaction *)

Section PerformQueries.
Context {DbState : Type}.
Variable tquery : QuerySqlToken -> DbState -> JsResult QueryResult * DbState.

Lemma queryAll_heap (qs : list QuerySqlToken) (w : @World DbState) :
  heap (queryAll tquery qs w).2 = heap w.
Proof.
  revert w. induction qs as [|q qs IH]; intros w; simpl; [done|].
  unfold bindM, queryM. destruct (tquery q (db w)) as [[r|e] d]; simpl; [|done].
  match goal with |- context [queryAll tquery qs ?w1] => specialize (IH w1) end.
  by destruct (queryAll tquery qs _) as [[rs|e] w'].
Qed.

Lemma performQueries_heap (queries : list QuerySqlToken)
    (startingQuery finalQuery : option QuerySqlToken) (w : @World DbState) :
  heap (performQueries tquery queries startingQuery finalQuery w).2 = heap w.
Proof. apply queryAll_heap. Qed.

(** [performQueries] hands the driver the starting statement, the
    statements of the batch and the final statement, in that order, and
    collects one result for each.  When a statement fails it is the last one
    sent: none of those after it reaches the driver.  The instances are not
    touched either way. *)
Theorem performQueries_in_order (queries : list QuerySqlToken)
    (startingQuery finalQuery : option QuerySqlToken) (w : @World DbState) :
  let statements := (option_list startingQuery ++ queries ++ option_list finalQuery)%list in
  match performQueries tquery queries startingQuery finalQuery w with
  | (Ok res, w') =>
      length res = length statements
      ∧ sent w' = (sent w ++ statements)%list
      ∧ heap w' = heap w
  | (Throw e, w') =>
      ∃ before failed after,
        statements = (before ++ failed :: after)%list
        ∧ sent w' = (sent w ++ before ++ [failed])%list
        ∧ heap w' = heap w
  end.
Proof.
  intros statements. unfold performQueries. fold statements.
  generalize statements. clear statements. intros qs. revert w.
  induction qs as [|q qs IH]; intros w; simpl.
  - by rewrite app_nil_r.
  - unfold bindM, queryM. destruct (tquery q (db w)) as [[r|e] d]; simpl.
    + match goal with |- context [queryAll tquery qs ?w1] => specialize (IH w1) end.
      destruct (queryAll tquery qs _) as [[rs|e] w']; simpl in *.
      * destruct IH as (Hlen & Hsent & Hheap). rewrite Hsent, <- app_assoc. auto.
      * destruct IH as (before & failed & after & -> & Hsent & Hheap).
        exists (q :: before), failed, after. rewrite Hsent, <- app_assoc. auto.
    + exists [], q, qs. auto.
Qed.
End PerformQueries.

(** ** Snapshots and changed columns *)

Lemma strictEq_refl (v : JsValue) : strictEq v v = false ↔ v = JsNaN.
Proof.
  destruct v as [| |b|n| |s|o]; simpl; split; try done.
  - by destruct b.
  - by rewrite Z.eqb_refl.
  - by rewrite String.eqb_refl.
  - by rewrite Nat.eqb_refl.
Qed.

(** Right after [saveState] the changed columns are the write columns
    that hold NaN, the one value that is not strictly equal to itself: an
    instance without NaN values has no changed column. *)
Theorem saveState_changed_columns (r : DbRecord) :
  getChangedColumns (saveState r)
  = filter (fun c => getProp (props r) (cd_name c) = JsNaN) (getInsertColumns (constructor r)).
Proof.
  unfold getChangedColumns. simpl. apply list_filter_iff. intros c.
  by rewrite negb_true_iff, strictEq_refl.
Qed.

Lemma snapshotted_changed_columns (r : DbRecord) :
  snapshotted r →
  getChangedColumns r
  = filter (fun c => getProp (props r) (cd_name c) = JsNaN) (getInsertColumns (constructor r)).
Proof.
  unfold snapshotted, getChangedColumns. intros ->. apply list_filter_iff. intros c.
  by rewrite negb_true_iff, strictEq_refl.
Qed.

(** ** The heap under [saveState] *)

Lemma saveStates_lookup (refs : list nat) (h : gmap nat DbRecord) (ref : nat) :
  foldl (fun h r => alter saveState r h) h refs !! ref
  = if bool_decide (ref ∈ refs) then saveState <$> h !! ref else h !! ref.
Proof.
  revert h. induction refs as [|r refs IH]; intros h; simpl; [done|].
  rewrite IH. destruct (decide (r = ref)) as [->|Hne].
  - rewrite lookup_alter_eq.
    rewrite (bool_decide_eq_true_2 (ref ∈ ref :: refs)) by apply list_elem_of_here.
    destruct (bool_decide (ref ∈ refs)); [|done]. by destruct (h !! ref).
  - rewrite lookup_alter_ne by done.
    destruct (decide (ref ∈ refs)) as [Hin|Hnot].
    + rewrite !bool_decide_eq_true_2; [done| |done]. by apply list_elem_of_further.
    + rewrite !bool_decide_eq_false_2; [done| |done].
      intros [?|?]%elem_of_cons; congruence.
Qed.

Lemma saveStates_sameProps (refs : list nat) (h : gmap nat DbRecord) :
  sameProps h (foldl (fun h r => alter saveState r h) h refs).
Proof.
  intros ref. rewrite saveStates_lookup.
  destruct (bool_decide _); [|done]. by destruct (h !! ref).
Qed.

Lemma saveStates_allSnapshotted (refs : list nat) (h : gmap nat DbRecord) :
  (∀ ref, ref ∈ refs → is_Some (h !! ref)) →
  allSnapshotted (foldl (fun h r => alter saveState r h) h refs) refs.
Proof.
  intros Hrefs ref Hin. rewrite saveStates_lookup, bool_decide_eq_true_2 by done.
  destruct (Hrefs ref Hin) as [r ->]. by exists (saveState r).
Qed.

Lemma sameProps_trans (h1 h2 h3 : gmap nat DbRecord) :
  sameProps h1 h2 → sameProps h2 h3 → sameProps h1 h3.
Proof. intros H12 H23 ref. by rewrite H23, H12. Qed.

Lemma sameProps_refl (h : gmap nat DbRecord) : sameProps h h.
Proof. done. Qed.

(** ** What reconciliation leaves alone *)

Section ReconciliationFrame.
Variable options : SetQueryOptions.t.
Variable ctor : Ctor.
Variable primaryKeyColumns : list ColumnDetail.
Variable record : list nat.

Abbreviation assignedFrom := (assignedFrom record).

Lemma assignedFrom_refl (h : gmap nat DbRecord) : assignedFrom h h.
Proof. intros ref. by destruct (h !! ref). Qed.

Lemma assignedFrom_trans (h1 h2 h3 : gmap nat DbRecord) :
  assignedFrom h1 h2 → assignedFrom h2 h3 → assignedFrom h1 h3.
Proof.
  intros H12 H23 ref. specialize (H12 ref). specialize (H23 ref).
  destruct (h1 !! ref) as [r1|], (h2 !! ref) as [r2|], (h3 !! ref) as [r3|]; try done.
  destruct H12 as (Hc & Ho & Hd & Hr), H23 as (Hc' & Ho' & Hd' & Hr').
  split; [congruence|]. split; [congruence|]. split; [set_solver|].
  intros Hnot. rewrite (Hr' Hnot). by apply Hr.
Qed.

Lemma recordAt_elem_of (row : gmap string JsValue) (ref : nat) :
  recordAt record row = Some ref → ref ∈ record.
Proof.
  unfold recordAt. destruct (row !! "__dbRecordIndex__") as [[| | |n| | |]|]; try done.
  destruct (0 <=? n); [|done]. apply list_elem_of_lookup_2.
Qed.

Lemma assignedFrom_assign (h : gmap nat DbRecord) (data : gmap string JsValue) (ref : nat) :
  ref ∈ record → assignedFrom h (alter (assignRecord data) ref h).
Proof.
  intros Hin ref'. destruct (decide (ref = ref')) as [<-|Hne].
  - rewrite lookup_alter_eq. destruct (h !! ref) as [r|]; simpl; [|done].
    split; [done|]. split; [done|]. split; [|done].
    unfold objectAssign. rewrite dom_union_L. set_solver.
  - rewrite lookup_alter_ne by done. by destruct (h !! ref').
Qed.

Lemma reconcileRows_assigned (rs : list (gmap string JsValue)) (h : gmap nat DbRecord) :
  match reconcileRows options ctor primaryKeyColumns record h rs with
  | Ok f => assignedFrom h (flowHeap f)
  | Throw _ => True
  end.
Proof.
  revert h. induction rs as [|row rs IH]; intros h; simpl; [apply assignedFrom_refl|].
  unfold reconcileRow. destruct (fillColumnData _ row ∅) as [data|]; simpl;
    [|apply assignedFrom_refl].
  destruct (recordAt record row) as [ref|] eqn:Href; simpl; [|done].
  specialize (IH (alter (assignRecord data) ref h)).
  destruct (reconcileRows _ _ _ _ _ rs) as [f|e]; [|done].
  eapply assignedFrom_trans; [|exact IH].
  by eapply assignedFrom_assign, recordAt_elem_of.
Qed.

Lemma updateDbRecordObjects_assigned (results : list QueryResult) (h : gmap nat DbRecord) :
  match updateDbRecordObjects options ctor primaryKeyColumns record results h with
  | Ok h' => assignedFrom h h'
  | Throw _ => True
  end.
Proof.
  unfold updateDbRecordObjects. rewrite reconcileResults_flat.
  pose proof (reconcileRows_assigned (allRows results) h) as Hassigned.
  by destruct (reconcileRows _ _ _ _ h _) as [f|e].
Qed.

(** Whatever rows come back, a reconciliation that ends without an error
    has only assigned properties to instances of the batch: no instance
    appears or disappears, none changes its type or its snapshot, none
    loses a property, and an instance outside the batch is not touched. *)
Theorem reconciliation_only_assigns (results : list QueryResult) (h : gmap nat DbRecord) :
  match updateDbRecordObjects options ctor primaryKeyColumns record results h with
  | Ok h' =>
      dom h' = dom h
      ∧ (∀ ref r r', h !! ref = Some r → h' !! ref = Some r' →
           constructor r' = constructor r ∧ _original r' = _original r
           ∧ dom (props r) ⊆ dom (props r'))
      ∧ (∀ ref, ref ∉ record → h' !! ref = h !! ref)
  | Throw _ => True
  end.
Proof.
  unfold updateDbRecordObjects. rewrite reconcileResults_flat.
  pose proof (reconcileRows_assigned (allRows results) h) as Hassigned.
  destruct (reconcileRows _ _ _ _ h _) as [f|e]; simpl; [|done].
  set (h' := flowHeap f) in *. split; [|split].
  - apply set_eq. intros ref. rewrite !elem_of_dom. specialize (Hassigned ref).
    destruct (h !! ref), (h' !! ref); try done; split; intros [? ?]; by eauto.
  - intros ref r r' Hr Hr'. specialize (Hassigned ref). rewrite Hr, Hr' in Hassigned.
    tauto.
  - intros ref Hnot. specialize (Hassigned ref).
    destruct (h !! ref), (h' !! ref); try done. f_equal. by apply Hassigned.
Qed.
End ReconciliationFrame.

(** ** The instances after a write or a delete *)

Section WorkerHeap.
Context {DbState : Type}.
Variable tquery : QuerySqlToken -> DbState -> JsResult QueryResult * DbState.

Lemma deref_outcome (refs : list nat) (w : @World DbState) :
  match deref refs w with
  | (Ok instances, w') =>
      w' = w ∧ Forall2 (fun ref r => heap w !! ref = Some r) refs instances
  | (Throw e, w') => w' = w
  end.
Proof.
  unfold deref. destruct (mapR _ refs) as [instances|e] eqn:Hmap; [|done].
  split; [done|]. apply mapR_Ok_Forall2 in Hmap.
  eapply Forall2_impl; [exact Hmap|]. intros ref r. simpl.
  by destruct (heap w !! ref) as [o|]; intros [=]; subst.
Qed.

Lemma deref_is_Some (refs : list nat) (w : @World DbState) (instances : list DbRecord) :
  (deref refs w).1 = Ok instances → ∀ ref, ref ∈ refs → is_Some (heap w !! ref).
Proof.
  intros Hderef ref Hin. pose proof (deref_outcome refs w) as Hout.
  destruct (deref refs w) as [[is'|e] w']; simpl in *; [|done].
  destruct Hout as [_ Hall]. injection Hderef as ->.
  apply list_elem_of_lookup in Hin as [i Hi].
  destruct (Forall2_lookup_l _ _ _ _ _ Hall Hi) as (r & _ & Hr). by exists r.
Qed.

(** Every instance of the batch is snapshotted when a write ends well,
    whether or not rows were asked for and reconciled. *)
Theorem write_snapshots_batch
    (fuel : nat) (thisConfig : DatabasePoolPlusConfig) (refs : OneOrMore nat)
    (mode : Mode) (opt : SetQueryOptions.t) (w : @World DbState) :
  match dbSetWorker tquery fuel thisConfig refs mode opt w with
  | (Ok _, w') => allSnapshotted (heap w') (flatten refs)
  | (Throw _, _) => True
  end.
Proof.
  unfold dbSetWorker, bindM, liftR.
  pose proof (deref_is_Some (flatten refs) w) as Hsome.
  pose proof (deref_outcome (flatten refs) w) as Hderef.
  destruct (deref (flatten refs) w) as [[instances|e] w0]; [|done].
  destruct Hderef as [-> _]. specialize (Hsome instances eq_refl).
  destruct (setQueries _ _ _ _ _) as [[[ctor pkc] queries]|e]; [|done].
  pose proof (performQueries_heap tquery queries
                (SetQueryOptions.startingQuery (normalizeOptions opt))
                (SetQueryOptions.finalQuery (normalizeOptions opt)) w) as Hheap.
  destruct (performQueries _ _ _ _ w) as [[res|e] w1]; [|done].
  simpl in Hheap.
  destruct (negb (bool_decide _)).
  - unfold updateRecordsM.
    pose proof (updateDbRecordObjects_assigned (normalizeOptions opt) ctor pkc
                  (flatten refs) res (heap w1)) as Hframe.
    destruct (updateDbRecordObjects _ _ _ _ res (heap w1)) as [h2|e]; [|done].
    simpl. apply saveStates_allSnapshotted. intros ref Hin.
    specialize (Hframe ref). destruct (Hsome ref Hin) as [r Hr].
    rewrite Hheap, Hr in Hframe. by destruct (h2 !! ref).
  - simpl. apply saveStates_allSnapshotted. intros ref Hin. rewrite Hheap. by apply Hsome.
Qed.

(** A write that asks for no rows changes no property of any instance:
    it sends its statements and takes the snapshots, and that is all. *)
Theorem write_without_results_keeps_properties
    (fuel : nat) (thisConfig : DatabasePoolPlusConfig) (refs : OneOrMore nat)
    (mode : Mode) (opt : SetQueryOptions.t) (w : @World DbState) :
  SetQueryOptions.resultType (normalizeOptions opt) = Some ResultNone →
  sameProps (heap w) (heap (dbSetWorker tquery fuel thisConfig refs mode opt w).2).
Proof.
  intros Hnone. unfold dbSetWorker, bindM, liftR.
  pose proof (deref_outcome (flatten refs) w) as Hderef.
  destruct (deref (flatten refs) w) as [[instances|e] w0]; simpl;
    [destruct Hderef as [-> _] | by subst].
  destruct (setQueries _ _ _ _ _) as [[[ctor pkc] queries]|e]; [|done].
  pose proof (performQueries_heap tquery queries
                (SetQueryOptions.startingQuery (normalizeOptions opt))
                (SetQueryOptions.finalQuery (normalizeOptions opt)) w) as Hheap.
  destruct (performQueries _ _ _ _ w) as [[res|e] w1]; cbv beta iota zeta;
    simpl in Hheap.
  - rewrite (bool_decide_eq_true_2 _ Hnone). simpl. rewrite <- Hheap.
    apply saveStates_sameProps.
  - simpl. by rewrite Hheap.
Qed.

(** A delete changes no property of any instance.  When it ends well the
    instances it was given are snapshotted; when it fails the heap is as it
    was. *)
Theorem delete_effect_on_instances
    (fuel : nat) (config : DatabasePoolPlusConfig) (recordOrCtor : DeleteTarget)
    (options : DeleteQueryOptions.t) (w : @World DbState) :
  let refs := match recordOrCtor with
              | OfType _ => []
              | OfRecords r => flatten r
              end in
  match dbDeleteWorker tquery fuel config recordOrCtor options w with
  | (Ok _, w') => sameProps (heap w) (heap w') ∧ allSnapshotted (heap w') refs
  | (Throw _, w') => heap w' = heap w
  end.
Proof.
  unfold dbDeleteWorker, bindM, liftR.
  destruct recordOrCtor as [c|r]; cbv beta iota zeta.
  - unfold ret at 1. destruct (deleteQueries _ _ _ _ _) as [queries|e]; [|done].
    pose proof (performQueries_heap tquery queries
                  (DeleteQueryOptions.startingQuery options)
                  (DeleteQueryOptions.finalQuery options) w) as Hheap.
    destruct (performQueries _ _ _ _ w) as [[res|e] w1]; simpl in *.
    + rewrite Hheap. split; [done|]. by intros ref Hin%elem_of_nil.
    + done.
  - pose proof (deref_is_Some (flatten r) w) as Hsome.
    pose proof (deref_outcome (flatten r) w) as Hderef.
    destruct (deref (flatten r) w) as [[instances|e] w0]; simpl;
      [destruct Hderef as [-> _] | by subst].
    specialize (Hsome instances eq_refl).
    destruct (deleteQueries _ _ _ _ _) as [queries|e]; [|done].
    pose proof (performQueries_heap tquery queries
                  (DeleteQueryOptions.startingQuery options)
                  (DeleteQueryOptions.finalQuery options) w) as Hheap.
    destruct (performQueries _ _ _ _ w) as [[res|e] w1]; simpl in *.
    + rewrite <- Hheap. split.
      * apply saveStates_sameProps.
      * apply saveStates_allSnapshotted. intros ref Hin. rewrite Hheap. by apply Hsome.
    + done.
Qed.
End WorkerHeap.

(** A plain insert of two users leaves their properties as they were. *)
Lemma write_without_results_witness :
  SetQueryOptions.resultType (normalizeOptions SetQueryOptions.empty) = Some ResultNone
  ∧ sameProps Sample.userHeap
      (heap (dbSetWorker Sample.quietDb 2 poolConfig (More [0%nat; 1%nat]) insert
               SetQueryOptions.empty (Sample.emptyWorld Sample.userHeap)).2).
Proof.
  split; [reflexivity|].
  exact (write_without_results_keeps_properties Sample.quietDb 2 poolConfig
           (More [0%nat; 1%nat]) insert SetQueryOptions.empty
           (Sample.emptyWorld Sample.userHeap) eq_refl).
Defined.

(** ** Validation of a write *)

Lemma collectKnownKeys_outcome (ctor : Ctor) (record : list DbRecord) (knownKeys : gset string) :
  match collectKnownKeys ctor knownKeys record with
  | Ok keys =>
      Forall (fun r => ctorId (constructor r) = ctorId ctor) record
      ∧ ∀ k, k ∈ keys ↔
             k ∈ knownKeys ∨ k ≠ "_original" ∧ ∃ r, r ∈ record ∧ k ∈ dom (props r)
  | Throw e =>
      e = MixedTypes ∧ Exists (fun r => ctorId (constructor r) ≠ ctorId ctor) record
  end.
Proof.
  revert knownKeys. induction record as [|rec rest IH]; intros knownKeys; simpl.
  - split; [constructor|]. intros k. split; [auto|].
    intros [?|(_ & r & Hr & _)]; [done|by apply elem_of_nil in Hr].
  - destruct (ctorId (constructor rec) =? ctorId ctor)%nat eqn:Hid; simpl.
    + apply Nat.eqb_eq in Hid.
      specialize (IH (knownKeys ∪ filter (fun key => key ≠ "_original") (dom (props rec)))).
      destruct (collectKnownKeys _ _ rest) as [keys|e].
      * destruct IH as [Hall Hkeys]. split; [by constructor|].
        intros k. rewrite Hkeys, elem_of_union, elem_of_filter. split.
        -- intros [[?|[Hne Hk]]|(Hne & r & Hr & Hk)]; [by left| |].
           ++ right. split; [done|]. exists rec. split; [apply list_elem_of_here|done].
           ++ right. split; [done|]. exists r. split; [by apply list_elem_of_further|done].
        -- intros [?|(Hne & r & Hr & Hk)]; [by left; left|].
           apply elem_of_cons in Hr as [->|Hr]; [by left; right|].
           right. split; [done|]. by exists r.
      * destruct IH as [-> Hex]. split; [done|]. by apply Exists_cons_tl.
    + apply Nat.eqb_neq in Hid. split; [done|]. by apply Exists_cons_hd.
Qed.

Ltac in_list := repeat first [apply list_elem_of_here | apply list_elem_of_further].

Lemma filter_none {A} (P : A → Prop) `{!∀ x, Decision (P x)} (l : list A) :
  (∀ x, x ∈ l → ¬ P x) → filter P l = [].
Proof.
  induction l as [|x l IH]; intros Hl; [done|].
  rewrite filter_cons_False by (apply Hl, list_elem_of_here).
  apply IH. intros y Hy. by apply Hl, list_elem_of_further.
Qed.

Lemma getColumns_unchanged (options : SetQueryOptions.t) (ctor : Ctor)
    (knownKeys : gset string) (records : list DbRecord) :
  (∀ names, SetQueryOptions.columns options ≠ Some (ColumnsList names)) →
  Forall (fun r => getChangedColumns r = []) records →
  getColumns update options ctor knownKeys records = ([], []).
Proof.
  intros Hcols Hunchanged. rewrite getColumns_update by done.
  rewrite (filter_none (fun c => cd_name c ∈ allChangedNames records)); [done|].
  intros c _ (r & Hr & Hc)%allChangedNames_elem.
  rewrite (proj1 (Forall_forall _ _) Hunchanged r Hr) in Hc. by apply elem_of_nil in Hc.
Qed.

Section WriteValidation.
Context {DbState : Type}.
Variable tquery : QuerySqlToken -> DbState -> JsResult QueryResult * DbState.

Lemma deref_all (refs : list nat) (w : @World DbState) :
  (∀ ref, ref ∈ refs → is_Some (heap w !! ref)) →
  ∃ instances,
    deref refs w = (Ok instances, w)
    ∧ Forall2 (fun ref r => heap w !! ref = Some r) refs instances.
Proof.
  intros Hall. pose proof (deref_outcome refs w) as Hout.
  unfold deref in *.
  destruct (mapR_Ok_exists
              (fun r => match heap w !! r with Some o => Ok o | None => Throw BadReference end)
              refs) as [instances Hmap].
  { apply Forall_forall. intros ref Hin. destruct (Hall ref Hin) as [r ->]. by eexists. }
  rewrite Hmap in *. exists instances. by destruct Hout.
Qed.

Lemma setQueries_unchanged
    (fuel : nat) (thisConfig : DatabasePoolPlusConfig) (record : list DbRecord)
    (options : SetQueryOptions.t) :
  (∀ names, SetQueryOptions.columns options ≠ Some (ColumnsList names)) →
  Forall (fun r => getChangedColumns r = []) record →
  ∃ e, setQueries fuel thisConfig record update options = Throw e
       ∧ e ∈ [EmptyBatch; IncompatibleOptions; MissingTable; MixedTypes; NoColumnsToUpdate].
Proof.
  intros Hcols Hunchanged. unfold setQueries.
  destruct record as [|first rest]; [exists EmptyBatch; split; [done|in_list]|].
  destruct (_ && isSet _); [exists IncompatibleOptions; split; [done|in_list]|].
  destruct (noString _); [exists MissingTable; split; [done|in_list]|].
  pose proof (collectKnownKeys_outcome (constructor first) (first :: rest) ∅) as Hkeys.
  destruct (collectKnownKeys _ _ _) as [knownKeys|e]; cbn [bindR].
  - rewrite getColumns_unchanged by done. simpl.
    exists NoColumnsToUpdate; split; [done|in_list].
  - destruct Hkeys as [-> _]. exists MixedTypes; split; [done|in_list].
Qed.

(** An update of instances none of which has a changed column never
    reaches the database: it throws during validation, with the world as
    it was.  The error is the one for a batch with nothing to update unless
    an earlier check of the validation fails. *)
Theorem update_without_changes
    (fuel : nat) (thisConfig : DatabasePoolPlusConfig) (refs : OneOrMore nat)
    (opt : SetQueryOptions.t) (w : @World DbState) :
  (∀ names, SetQueryOptions.columns opt ≠ Some (ColumnsList names)) →
  (∀ ref, ref ∈ flatten refs → ∃ r, heap w !! ref = Some r ∧ getChangedColumns r = []) →
  ∃ e, dbSetWorker tquery fuel thisConfig refs update opt w = (Throw e, w)
       ∧ e ∈ [EmptyBatch; IncompatibleOptions; MissingTable; MixedTypes; NoColumnsToUpdate].
Proof.
  intros Hcols Hunchanged. unfold dbSetWorker, bindM, liftR.
  destruct (deref_all (flatten refs) w) as (instances & -> & Hinst).
  { intros ref Hin. by destruct (Hunchanged ref Hin) as (r & -> & _). }
  destruct (setQueries_unchanged fuel thisConfig instances (normalizeOptions opt))
    as (e & -> & He); [done| |by exists e].
  apply Forall_forall. intros r Hr.
  apply list_elem_of_lookup in Hr as [i Hi].
  destruct (Forall2_lookup_r _ _ _ _ _ Hinst Hi) as (ref & Href & Hr).
  destruct (Hunchanged ref) as (r' & Hr' & Hnone); [by eapply list_elem_of_lookup_2|].
  by simplify_eq.
Qed.
End WriteValidation.

Section WriteStatements.
Context {DbState : Type}.
Variable tquery : QuerySqlToken -> DbState -> JsResult QueryResult * DbState.

Lemma setQueries_update_without_keys
    (fuel : nat) (thisConfig : DatabasePoolPlusConfig) (first : DbRecord)
    (rest : list DbRecord) (options : SetQueryOptions.t) :
  getPrimaryKeys (constructor first) = [] →
  ∃ e, setQueries fuel thisConfig (first :: rest) update options = Throw e.
Proof.
  intros Hkeys. unfold setQueries.
  destruct (_ && isSet _); [by eexists|].
  destruct (noString _); [by eexists|].
  destruct (collectKnownKeys _ _ _) as [knownKeys|e]; cbn [bindR]; [|by eexists].
  destruct (getColumns _ _ _ _ _) as [insertableColumns updatableColumns].
  destruct (_ || _); [by eexists|].
  destruct (createOutputObjects _ _ _ _ _ _) as [[defs objs]|e]; cbn [bindR]; [|by eexists].
  unfold createQueries, makePrepareQueryOptions. rewrite Hkeys. by eexists.
Qed.

(** An update of instances whose type declares no primary key never
    reaches the database, whatever the options and the chunk limit: the
    worker throws with the world as it was. *)
Theorem update_needs_primary_key
    (fuel : nat) (thisConfig : DatabasePoolPlusConfig) (refs : OneOrMore nat)
    (opt : SetQueryOptions.t) (w : @World DbState)
    (ref : nat) (others : list nat) (first : DbRecord) :
  flatten refs = ref :: others →
  heap w !! ref = Some first →
  getPrimaryKeys (constructor first) = [] →
  ∃ e, dbSetWorker tquery fuel thisConfig refs update opt w = (Throw e, w).
Proof.
  intros Hrefs Hfirst Hkeys. unfold dbSetWorker, bindM, liftR.
  pose proof (deref_outcome (flatten refs) w) as Hderef.
  destruct (deref (flatten refs) w) as [[instances|e] w1].
  - destruct Hderef as [-> Hinst]. rewrite Hrefs in Hinst.
    apply Forall2_cons_inv_l in Hinst as (first' & rest & Hfirst' & _ & ->).
    assert (first' = first) as -> by congruence.
    destruct (setQueries_update_without_keys fuel thisConfig first rest (normalizeOptions opt))
      as [e ->]; [done|]. by exists e.
  - subst w1. by exists e.
Qed.

Lemma chunkLoop_stuck {A B} (body : list A → JsResult B) (xs : list A) (max i : Z)
    (fuel : nat) :
  max ≤ 0 → i ≤ 0 → xs ≠ [] → (∀ ch, ∃ q, body ch = Ok q) →
  chunkLoop fuel max i xs body = Throw OutOfFuel.
Proof.
  intros Hmax Hi Hxs Hbody. revert i Hi.
  induction fuel as [|fuel IH]; intros i Hi; simpl; [done|].
  assert ((i <? Z.of_nat (length xs)) = true) as ->.
  { apply Z.ltb_lt. destruct xs; [done|]. simpl. lia. }
  destruct (Hbody (jsSlice i (i + max) xs)) as [q ->]. simpl.
  rewrite IH by lia. done.
Qed.

(** With an insert chunk limit of zero or less the loop that builds the
    statements of a write never ends: a write that passes the validation
    (it builds its statements under some other configuration) runs out of
    every amount of fuel. *)
Theorem nonpositive_chunk_limit_never_ends
    (thisConfig otherConfig : DatabasePoolPlusConfig) (record : list DbRecord) (mode : Mode)
    (options : SetQueryOptions.t) (fuel0 : nat)
    (built : Ctor * list ColumnDetail * list QuerySqlToken) :
  insertChunkMax thisConfig ≤ 0 →
  setQueries fuel0 otherConfig record mode options = Ok built →
  ∀ fuel, setQueries fuel thisConfig record mode options = Throw OutOfFuel.
Proof.
  intros Hmax Hbuilt fuel. unfold setQueries in *.
  destruct record as [|first rest]; [done|].
  destruct (_ && isSet _); [done|].
  destruct (noString _); [done|].
  destruct (collectKnownKeys _ _ _) as [knownKeys|e]; cbn [bindR] in *; [|done].
  destruct (getColumns _ _ _ _ _) as [insertableColumns updatableColumns].
  destruct (_ || _); [done|].
  unfold createOutputObjects in *.
  destruct (colDefinitions _ _) as [defs|e]; cbn [bindR] in *; [|done].
  unfold createQueries in *.
  destruct (makePrepareQueryOptions _ _ _ _ _ _ _ _) as [o|e]; cbn [bindR] in *; [|done].
  rewrite chunkLoop_stuck; [done|done|lia|done|by eexists].
Qed.

Lemma colDefinitions_upsert (cols : list ColumnDetail) :
  colDefinitions upsert cols = colDefinitions insert cols.
Proof. induction cols as [|c cols IH]; simpl; [done|]. by rewrite IH. Qed.

Lemma outputColumns_upsert (options : SetQueryOptions.t)
    (primaryKeyColumns insertableColumns : list ColumnDetail) :
  conflictKeyGiven (SetQueryOptions.conflictKey options) = true ∨ primaryKeyColumns = [] →
  outputColumns upsert options primaryKeyColumns insertableColumns
  = outputColumns insert options primaryKeyColumns insertableColumns.
Proof.
  unfold outputColumns. intros [-> | ->]; [done|].
  by destruct (_ || _).
Qed.

Lemma conflictKeys_none (options : SetQueryOptions.t) (primaryKeys : list string) :
  conflictKeys options primaryKeys = [] →
  conflictKeyGiven (SetQueryOptions.conflictKey options) = true ∨ primaryKeys = [].
Proof.
  unfold conflictKeys. destruct (SetQueryOptions.conflictKey options) as [k|]; [|by right].
  destruct (conflictKeyGiven (Some k)); [by left|by right].
Qed.

(** An upsert that has no conflict keys to name, because none are given
    and the type declares no primary key (or because an empty array is
    given), builds exactly the statements of an insert: there is no
    [ON CONFLICT] clause, and the outcome of the validation is the same. *)
Theorem upsert_without_conflict_keys_is_insert
    (fuel : nat) (thisConfig : DatabasePoolPlusConfig) (first : DbRecord)
    (rest : list DbRecord) (options : SetQueryOptions.t) :
  conflictKeys options (getPrimaryKeys (constructor first)) = [] →
  setQueries fuel thisConfig (first :: rest) upsert options
  = setQueries fuel thisConfig (first :: rest) insert options.
Proof.
  intros Hkeys. unfold setQueries.
  destruct (_ && isSet _); [done|].
  destruct (noString _); [done|].
  destruct (collectKnownKeys _ _ _) as [knownKeys|e]; cbn [bindR]; [|done].
  change (getColumns upsert options (constructor first) knownKeys (first :: rest))
    with (getColumns insert options (constructor first) knownKeys (first :: rest)).
  destruct (getColumns _ _ _ _ _) as [insertableColumns updatableColumns].
  change (bool_decide (upsert = update)) with (bool_decide (insert = update)).
  destruct (_ || _); [done|].
  set (primaryKeyColumns := filter _ (getSelectColumns (constructor first))).
  assert (outputColumns upsert options primaryKeyColumns insertableColumns
          = outputColumns insert options primaryKeyColumns insertableColumns) as Hout.
  { apply outputColumns_upsert.
    destruct (conflictKeys_none _ _ Hkeys) as [?|Hnone]; [by left|right].
    unfold primaryKeyColumns. apply filter_none. intros c _. rewrite Hnone.
    apply not_elem_of_nil. }
  unfold createOutputObjects. rewrite Hout, colDefinitions_upsert.
  destruct (colDefinitions insert _) as [defs|e]; cbn [bindR]; [|done].
  assert (∀ i rec,
            outputObject upsert options primaryKeyColumns knownKeys insertableColumns i rec
            = outputObject insert options primaryKeyColumns knownKeys insertableColumns i rec)
    as Hobj.
  { intros i rec. unfold outputObject. by rewrite Hout. }
  rewrite (imap_ext _ _ _ (fun i rec _ => Hobj i rec)).
  unfold createQueries, makePrepareQueryOptions, makeUpsertStatement.
  rewrite Hkeys. done.
Qed.
Lemma chunkLoop_altered {A} (alter : QuerySqlToken → QuerySqlToken)
    (body : list A → QuerySqlToken) (xs : list A) (max i : Z) (fuel : nat) :
  chunkLoop fuel max i xs (fun ch => Ok (alter (body ch)))
  = let! queries := chunkLoop fuel max i xs (fun ch => Ok (body ch)) in
    Ok (map alter queries).
Proof.
  revert i. induction fuel as [|fuel IH]; intros i; simpl; [done|].
  destruct (i <? _); [|done]. simpl. rewrite IH.
  by destruct (chunkLoop fuel max (i + max) xs _).
Qed.

(** [alterSql] is applied to each statement of a write on its own and
    touches nothing else: the statements are those of the same write
    without [alterSql], each one altered, and the validation has the same
    outcome. *)
Theorem alterSql_alters_each_statement
    (fuel : nat) (thisConfig : DatabasePoolPlusConfig) (record : list DbRecord) (mode : Mode)
    (options : SetQueryOptions.t) (alter : QuerySqlToken → QuerySqlToken) :
  isSet (SetQueryOptions.syncRecords options) = false →
  setQueries fuel thisConfig record mode (withAlterSql (Some alter) options)
  = let! built := setQueries fuel thisConfig record mode (withAlterSql None options) in
    Ok (built.1, map alter built.2).
Proof.
  intros Hsync. unfold setQueries.
  destruct record as [|first rest]; [done|].
  cbn [SetQueryOptions.alterSql SetQueryOptions.syncRecords SetQueryOptions.tableName
       withAlterSql].
  rewrite Hsync, andb_false_r. cbn [andb].
  destruct (noString _); [done|].
  destruct (collectKnownKeys _ _ _) as [knownKeys|e]; cbn [bindR]; [|done].
  change (getColumns mode (withAlterSql (Some alter) options))
    with (getColumns mode (withAlterSql None options)).
  destruct (getColumns _ _ _ _ _) as [insertableColumns updatableColumns].
  destruct (_ || _); [done|].
  change (createOutputObjects mode (withAlterSql (Some alter) options))
    with (createOutputObjects mode (withAlterSql None options)).
  destruct (createOutputObjects _ _ _ _ _ _) as [[defs objs]|e]; cbn [bindR]; [|done].
  unfold createQueries.
  change (makePrepareQueryOptions mode (withAlterSql (Some alter) options))
    with (makePrepareQueryOptions mode (withAlterSql None options)).
  destruct (makePrepareQueryOptions _ _ _ _ _ _ _ _) as [o|e]; cbn [bindR]; [|done].
  unfold addQuery. cbn [SetQueryOptions.alterSql withAlterSql].
  change (prepareQuery mode (withAlterSql (Some alter) options))
    with (prepareQuery mode (withAlterSql None options)).
  rewrite (chunkLoop_altered alter).
  by destruct (chunkLoop _ _ _ _ _).
Qed.
End WriteStatements.

(** A saved user that was not touched has nothing to update. *)
Lemma update_without_changes_witness :
  getChangedColumns Sample.bobSaved = []
  ∧ ∃ e, dbSetWorker Sample.quietDb 2 poolConfig (One 0%nat) update SetQueryOptions.empty
           (Sample.emptyWorld Sample.savedHeap)
         = (Throw e, Sample.emptyWorld Sample.savedHeap)
         ∧ e ∈ [EmptyBatch; IncompatibleOptions; MissingTable; MixedTypes; NoColumnsToUpdate].
Proof.
  split; [by vm_compute|].
  apply update_without_changes.
  - intros names. discriminate.
  - intros ref Hin. apply list_elem_of_singleton in Hin as ->.
    exists Sample.bobSaved. split; [reflexivity|by vm_compute].
Defined.

(** Events have no primary key: an update of one is refused. *)
Lemma update_needs_primary_key_witness :
  getPrimaryKeys Sample.Event = []
  ∧ ∃ e, dbSetWorker Sample.quietDb 2 poolConfig (One 0%nat) update SetQueryOptions.empty
           (Sample.emptyWorld Sample.eventHeap)
         = (Throw e, Sample.emptyWorld Sample.eventHeap).
Proof.
  split; [reflexivity|].
  by apply (update_needs_primary_key Sample.quietDb 2 poolConfig (One 0%nat)
              SetQueryOptions.empty (Sample.emptyWorld Sample.eventHeap)
              0%nat [] Sample.launch).
Defined.

(** The insert of one user under a chunk limit of zero. *)
Lemma nonpositive_chunk_limit_witness :
  insertChunkMax Sample.noChunks ≤ 0
  ∧ ∀ fuel, setQueries fuel Sample.noChunks [Sample.alice] insert SetQueryOptions.empty
            = Throw OutOfFuel.
Proof.
  split; [done|].
  destruct (setQueries 2 poolConfig [Sample.alice] insert SetQueryOptions.empty)
    as [built|e] eqn:Hbuilt.
  - by apply (nonpositive_chunk_limit_never_ends Sample.noChunks poolConfig [Sample.alice]
                insert SetQueryOptions.empty 2 built).
  - vm_compute in Hbuilt. discriminate Hbuilt.
Defined.

(** An upsert of an event is an insert. *)
Lemma upsert_without_conflict_keys_witness :
  conflictKeys SetQueryOptions.empty (getPrimaryKeys Sample.Event) = []
  ∧ setQueries 2 poolConfig [Sample.launch] upsert SetQueryOptions.empty
    = setQueries 2 poolConfig [Sample.launch] insert SetQueryOptions.empty.
Proof.
  split; [reflexivity|].
  by apply (upsert_without_conflict_keys_is_insert 2 poolConfig Sample.launch []
              SetQueryOptions.empty).
Defined.

(** The statement of an insert, prefixed by the caller. *)
Lemma alterSql_witness :
  setQueries 2 poolConfig [Sample.alice] insert
    (withAlterSql (Some Sample.explain) SetQueryOptions.empty)
  = let! built := setQueries 2 poolConfig [Sample.alice] insert
                    (withAlterSql None SetQueryOptions.empty) in
    Ok (built.1, map Sample.explain built.2).
Proof.
  by apply (alterSql_alters_each_statement 2 poolConfig [Sample.alice] insert
              SetQueryOptions.empty Sample.explain).
Defined.

(** ** The payload of a write *)

Ltac set_cases :=
  apply set_eq; intros ?;
  rewrite ?elem_of_union, ?elem_of_list_to_set, ?elem_of_app, ?elem_of_cons, ?elem_of_nil,
    ?elem_of_union, ?elem_of_singleton, ?elem_of_empty;
  tauto.

Section Payload.
Variable mode : Mode.
Variable options : SetQueryOptions.t.
Variable primaryKeyColumns : list ColumnDetail.
Variable knownKeys : gset string.
Variable insertableColumns : list ColumnDetail.

Abbreviation outputs := (JsMap.values (outputColumns mode options primaryKeyColumns insertableColumns)).

Lemma dom_writeColumn (rec : DbRecord) (res : gmap string JsValue) (c : ColumnDetail) :
  dom (writeColumn mode knownKeys insertableColumns rec res c)
  = dom res ∪ list_to_set (keysOf mode c).
Proof.
  unfold writeColumn, keysOf.
  destruct (isUpdate mode && hasPrimaryKey (config c)); simpl;
    rewrite ?dom_insert_L; set_cases.
Qed.

Lemma dom_foldl_writeColumn (rec : DbRecord) (cols : list ColumnDetail)
    (res : gmap string JsValue) :
  dom (foldl (writeColumn mode knownKeys insertableColumns rec) res cols)
  = dom res ∪ list_to_set (writtenKeys mode cols).
Proof.
  revert res. induction cols as [|c cols IH]; intros res.
  - unfold writtenKeys. simpl. set_cases.
  - cbn [foldl]. rewrite IH, dom_writeColumn. unfold writtenKeys. cbn [map concat].
    rewrite list_to_set_app_L. set_cases.
Qed.

(** The keys of an output object are fixed by the output columns alone:
    the database name of every output column, [original_] keys for the
    primary key columns of an update, and the record index.  No other
    property of an instance reaches the payload, and every object of a
    batch has the same keys, whatever properties its instance has. *)
Theorem output_object_keys (recordIndex : nat) (rec : DbRecord) :
  dom (outputObject mode options primaryKeyColumns knownKeys insertableColumns recordIndex rec)
  = list_to_set (writtenKeys mode outputs) ∪ {[ "__dbRecordIndex__" ]}.
Proof.
  unfold outputObject, objectAssign.
  rewrite dom_union_L, dom_singleton_L, dom_foldl_writeColumn, dom_empty_L.
  set_cases.
Qed.
End Payload.

Section OriginalKeys.
Variable options : SetQueryOptions.t.
Variable primaryKeyColumns : list ColumnDetail.
Variable knownKeys : gset string.
Variable insertableColumns : list ColumnDetail.
Variable rec : DbRecord.

Lemma writeColumn_original (res : gmap string JsValue) (c : ColumnDetail) :
  hasPrimaryKey (config c) = true →
  writeColumn update knownKeys insertableColumns rec res c !! ("original_" ++ dbName c)
  = Some (getProp (default (props rec) (_original rec)) (cd_name c)).
Proof.
  unfold writeColumn. intros ->. change (isUpdate update) with true. cbn [andb].
  by rewrite lookup_insert_eq.
Qed.

Lemma foldl_writeColumn_original (cols : list ColumnDetail) (res : gmap string JsValue)
    (c : ColumnDetail) :
  NoDup (writtenKeys update cols) → c ∈ cols → hasPrimaryKey (config c) = true →
  foldl (writeColumn update knownKeys insertableColumns rec) res cols
    !! ("original_" ++ dbName c)
  = Some (getProp (default (props rec) (_original rec)) (cd_name c)).
Proof.
  revert res. induction cols as [|c0 cols IH]; intros res Hnodup Hin Hpk;
    [by apply elem_of_nil in Hin|].
  unfold writtenKeys in Hnodup. cbn [map concat] in Hnodup. cbn [foldl].
  apply NoDup_app in Hnodup as (Hown & Hdisj & Hrest).
  apply elem_of_cons in Hin as [<-|Hin].
  - rewrite foldl_writeColumn_other; [by apply writeColumn_original|].
    apply Hdisj. unfold keysOf. rewrite Hpk. change (isUpdate update) with true.
    cbn [andb]. apply list_elem_of_further, list_elem_of_here.
  - by apply IH.
Qed.

(** An update addresses each row by the key its instance was loaded
    with: for every primary key column among the output columns, the output
    object carries under [original_] and the column's database name the
    value of the snapshot, or the present value when the instance has no
    snapshot.  The output keys are assumed distinct. *)
Theorem update_carries_original_key (recordIndex : nat) (c : ColumnDetail) :
  NoDup (writtenKeys update
           (JsMap.values (outputColumns update options primaryKeyColumns insertableColumns))
         ++ ["__dbRecordIndex__"]) →
  c ∈ JsMap.values (outputColumns update options primaryKeyColumns insertableColumns) →
  hasPrimaryKey (config c) = true →
  outputObject update options primaryKeyColumns knownKeys insertableColumns recordIndex rec
    !! ("original_" ++ dbName c)
  = Some (getProp (default (props rec) (_original rec)) (cd_name c)).
Proof.
  intros Hkeys Hc Hpk. apply NoDup_app in Hkeys as (Hwritten & Hindex & _).
  unfold outputObject, objectAssign. rewrite lookup_union_r.
  - by apply foldl_writeColumn_original.
  - apply lookup_singleton_None. intros Heq. apply (Hindex ("original_" ++ dbName c)).
    + unfold writtenKeys. apply list_elem_of_In, in_concat.
      exists (keysOf update c). split; [apply in_map; by apply list_elem_of_In|].
      apply list_elem_of_In. unfold keysOf. rewrite Hpk. change (isUpdate update) with true.
      cbn [andb]. apply list_elem_of_further, list_elem_of_here.
    + rewrite <- Heq. apply list_elem_of_here.
Qed.
End OriginalKeys.

(** ** The values a reconciliation assigns *)

Section ReconciledValues.
Variable options : SetQueryOptions.t.
Variable ctor : Ctor.
Variable primaryKeyColumns : list ColumnDetail.

Lemma fillColumnData_outcome (cols : list ColumnDetail) (row columnData : gmap string JsValue) :
  match fillColumnData cols row columnData with
  | Some data =>
      Forall (fun c => is_Some (row !! dbName c) ∧ notFalse (cfg_in (config c)) = true) cols
      ∧ data = foldl (fun d c =>
                        <[cd_name c := applyTransformer (Some (cfg_in (config c)))
                                         (getProp row (dbName c))]> d)
                 columnData cols
  | None =>
      Exists (fun c => row !! dbName c = None ∨ notFalse (cfg_in (config c)) = false) cols
  end.
Proof.
  revert columnData. induction cols as [|c cols IH]; intros columnData; simpl; [done|].
  destruct (decide (is_Some (row !! dbName c))) as [Hsome|Hnone].
  - rewrite bool_decide_eq_true_2 by done. simpl.
    destruct (notFalse (cfg_in (config c))) eqn:Hin; simpl.
    + match goal with |- context [fillColumnData cols row ?d] => specialize (IH d) end.
      destruct (fillColumnData cols row _) as [data|].
      * destruct IH as [Hall ->]. split; [by constructor|done].
      * by apply Exists_cons_tl.
    + apply Exists_cons_hd. by right.
  - rewrite bool_decide_eq_false_2 by done. simpl.
    apply Exists_cons_hd. left. by apply eq_None_not_Some.
Qed.

Abbreviation assignColumn row :=
  (fun (d : gmap string JsValue) (c : ColumnDetail) =>
     <[cd_name c := applyTransformer (Some (cfg_in (config c))) (getProp row (dbName c))]> d).

Lemma foldl_assignColumn_other (row : gmap string JsValue) (cols : list ColumnDetail)
    (acc : gmap string JsValue) (k : string) :
  k ∉ map cd_name cols → foldl (assignColumn row) acc cols !! k = acc !! k.
Proof.
  revert acc. induction cols as [|c cols IH]; intros acc Hk; simpl; [done|].
  simpl in Hk. apply not_elem_of_cons in Hk as [Hne Hk].
  rewrite IH by done. by rewrite lookup_insert_ne.
Qed.

Lemma foldl_assignColumn_own (row : gmap string JsValue) (cols : list ColumnDetail)
    (acc : gmap string JsValue) (c : ColumnDetail) :
  NoDup (map cd_name cols) → c ∈ cols →
  foldl (assignColumn row) acc cols !! cd_name c
  = Some (applyTransformer (Some (cfg_in (config c))) (getProp row (dbName c))).
Proof.
  revert acc. induction cols as [|c0 cols IH]; intros acc Hnodup Hin;
    [by apply elem_of_nil in Hin|].
  cbn [map] in Hnodup. cbn [foldl]. apply NoDup_cons in Hnodup as [Hfresh Hnodup].
  apply elem_of_cons in Hin as [<-|Hin].
  - rewrite foldl_assignColumn_other by done. by rewrite lookup_insert_eq.
  - by apply IH.
Qed.

Lemma dom_foldl_assignColumn (row : gmap string JsValue) (cols : list ColumnDetail)
    (acc : gmap string JsValue) :
  dom (foldl (assignColumn row) acc cols) = dom acc ∪ list_to_set (map cd_name cols).
Proof.
  revert acc. induction cols as [|c cols IH]; intros acc; simpl.
  - set_cases.
  - rewrite IH, dom_insert_L. set_cases.
Qed.

(** What a complete row assigns to its instance: for every column of the
    column set, under the column's property name, the value the row holds
    under the column's database name, passed through the read transformer
    unless it is [null] or [undefined], which are assigned as they are;
    and nothing for any other property.  The property names of the column
    set are assumed distinct. *)
Theorem reconciled_values (row : gmap string JsValue) :
  completeRow options ctor primaryKeyColumns row →
  NoDup (map cd_name (columnSet options ctor primaryKeyColumns)) →
  dom (columnDataOf options ctor primaryKeyColumns row)
  = list_to_set (map cd_name (columnSet options ctor primaryKeyColumns))
  ∧ ∀ c, c ∈ columnSet options ctor primaryKeyColumns →
      is_Some (row !! dbName c)
      ∧ columnDataOf options ctor primaryKeyColumns row !! cd_name c
        = Some (match cfg_in (config c) with
                | InclFn transformer =>
                    if isNullish (getProp row (dbName c)) then getProp row (dbName c)
                    else transformer (getProp row (dbName c))
                | InclFlag _ => getProp row (dbName c)
                end).
Proof.
  unfold completeRow, columnDataOf. intros [data Hdata] Hnodup.
  pose proof (fillColumnData_outcome (columnSet options ctor primaryKeyColumns) row ∅) as Hout.
  rewrite Hdata in *. simpl. destruct Hout as [Hall ->]. split.
  - rewrite dom_foldl_assignColumn, dom_empty_L. set_cases.
  - intros c Hc. split; [by apply (proj1 (Forall_forall _ _) Hall c Hc)|].
    rewrite foldl_assignColumn_own by done. unfold applyTransformer.
    by destruct (cfg_in (config c)).
Qed.
End ReconciledValues.

(** A user loaded under the key 1 and re-keyed to 7 is addressed by 1. *)
Lemma update_carries_original_key_witness :
  hasPrimaryKey (config Sample.idColumn) = true
  ∧ outputObject update SetQueryOptions.empty Sample.userPrimaryKeyColumns Sample.userKeys
      [Sample.idColumn] 0 Sample.rekeyed !! "original_id"
    = Some (JsNum 1).
Proof.
  split; [reflexivity|].
  apply (update_carries_original_key SetQueryOptions.empty Sample.userPrimaryKeyColumns
           Sample.userKeys [Sample.idColumn] Sample.rekeyed 0 Sample.idColumn).
  - apply (bool_decide_unpack _). by vm_compute.
  - exact (list_elem_of_here Sample.idColumn []).
  - reflexivity.
Defined.

(** The row stored for the first user assigns its name. *)
Lemma reconciled_values_witness :
  completeRow Sample.syncOptions Sample.User Sample.userPrimaryKeyColumns Sample.stored0
  ∧ columnDataOf Sample.syncOptions Sample.User Sample.userPrimaryKeyColumns Sample.stored0
      !! "name"
    = Some (JsStr "alice, stored").
Proof.
  assert (completeRow Sample.syncOptions Sample.User Sample.userPrimaryKeyColumns
            Sample.stored0) as Hcomplete.
  { unfold completeRow. apply (bool_decide_unpack _). by vm_compute. }
  split; [exact Hcomplete|].
  destruct (reconciled_values Sample.syncOptions Sample.User Sample.userPrimaryKeyColumns
              Sample.stored0 Hcomplete) as [_ Hvalues].
  - apply (bool_decide_unpack _). by vm_compute.
  - destruct (Hvalues Sample.nameColumn) as [_ Hname].
    + exact (list_elem_of_further _ _ _ (list_elem_of_here Sample.nameColumn [])).
    + exact Hname.
Defined.

(** ** More on insertion-ordered maps *)

Section JsMapMore.
Context {V : Type}.
Implicit Types (m es : list (string * V)) (k : string) (v : V).

Lemma JsMap_get_set k k' v m :
  JsMap.get k' (JsMap.set k v m) = if String.eqb k' k then Some v else JsMap.get k' m.
Proof.
  induction m as [|[k0 v0] m IH]; simpl; [done|].
  destruct (String.eqb_spec k k0) as [->|Hne]; simpl.
  - by destruct (String.eqb k' k0).
  - rewrite IH. destruct (String.eqb_spec k' k0) as [->|]; [|done].
    by destruct (String.eqb_spec k0 k).
Qed.

Lemma JsMap_get_None k m : JsMap.get k m = None ↔ k ∉ map fst m.
Proof.
  induction m as [|[k0 v0] m IH]; simpl.
  - split; [intros _; apply not_elem_of_nil|done].
  - rewrite not_elem_of_cons, <- IH.
    destruct (String.eqb_spec k k0); [|tauto]. split; [done|]. by intros [? _].
Qed.

Lemma JsMap_set_keys k v m :
  map fst (JsMap.set k v m)
  = if bool_decide (k ∈ map fst m) then map fst m else (map fst m ++ [k])%list.
Proof.
  induction m as [|[k0 v0] m IH]; simpl; [done|].
  destruct (String.eqb_spec k k0) as [->|Hne]; simpl.
  - rewrite bool_decide_eq_true_2; [done|]. apply list_elem_of_here.
  - rewrite IH. destruct (decide (k ∈ map fst m)) as [Hin|Hnot].
    + rewrite !bool_decide_eq_true_2; [done| |done]. by apply list_elem_of_further.
    + rewrite !bool_decide_eq_false_2; [done| |done].
      by intros [?|?]%elem_of_cons.
Qed.

Lemma JsMap_set_NoDup k v m : NoDup (map fst m) → NoDup (map fst (JsMap.set k v m)).
Proof.
  intros Hm. rewrite JsMap_set_keys. destruct (decide (k ∈ map fst m)).
  - by rewrite bool_decide_eq_true_2.
  - rewrite bool_decide_eq_false_2 by done. apply NoDup_app. split; [done|]. split.
    + intros x Hx ->%list_elem_of_singleton. done.
    + apply NoDup_singleton.
Qed.

Lemma JsMap_ofEntries_keys es k :
  k ∈ map fst (JsMap.ofEntries es) ↔ k ∈ map fst es.
Proof.
  unfold JsMap.ofEntries.
  assert (∀ acc, k ∈ map fst (foldl (fun m kv => JsMap.set kv.1 kv.2 m) acc es)
                 ↔ k ∈ map fst acc ∨ k ∈ map fst es) as Hgen.
  { induction es as [|[k0 v0] es IH]; intros acc; simpl.
    - rewrite elem_of_nil. tauto.
    - rewrite IH, JsMap_set_keys, elem_of_cons. simpl.
      destruct (decide (k0 ∈ map fst acc)) as [Hin|Hnot].
      + rewrite bool_decide_eq_true_2 by done. split; [tauto|].
        intros [?|[->|?]]; tauto.
      + rewrite bool_decide_eq_false_2 by done. rewrite elem_of_app, list_elem_of_singleton.
        tauto. }
  rewrite Hgen. simpl. rewrite elem_of_nil. tauto.
Qed.
End JsMapMore.

(** ** The columns a registration leaves *)

Section RegistrationColumns.
Variable camelToSnake : string -> string.

Lemma addOwnColumns_entries (convert : bool) (own : list (string * ColumnConfig)) :
  NoDup (map fst own) →
  addOwnColumns camelToSnake convert own
  = map (fun e => (e.1, withName camelToSnake convert e.1 e.2)) own.
Proof.
  intros Hnodup. unfold addOwnColumns.
  rewrite <- (JsMap_ofEntries_NoDup
                (map (fun e => (e.1, withName camelToSnake convert e.1 e.2)) own))
    by (by rewrite map_map).
  unfold JsMap.ofEntries. by rewrite foldl_fmap.
Qed.

Lemma JsMap_get_fmap {A B} (f : string → A → B) (key : string) (m : list (string * A)) :
  JsMap.get key (map (fun e => (e.1, f e.1 e.2)) m) = f key <$> JsMap.get key m.
Proof.
  induction m as [|[k v] m IH]; simpl; [done|].
  destruct (String.eqb_spec key k) as [->|]; [done|]. apply IH.
Qed.

Lemma addLineageColumns_NoDup (out cols : list (string * ColumnConfig)) :
  NoDup (map fst out) → NoDup (map fst (addLineageColumns out cols)).
Proof.
  unfold addLineageColumns. revert out.
  induction cols as [|e cols IH]; intros out Hout; simpl; [done|].
  apply IH. destruct (JsMap.has e.1 out); [done|]. by apply JsMap_set_NoDup.
Qed.

Lemma addLineageColumns_get (out cols : list (string * ColumnConfig)) (key : string) :
  JsMap.get key (addLineageColumns out cols)
  = match JsMap.get key out with
    | Some c => Some c
    | None => JsMap.get key cols
    end.
Proof.
  unfold addLineageColumns. revert out.
  induction cols as [|[k c] cols IH]; intros out; simpl.
  - by destruct (JsMap.get key out).
  - rewrite IH. unfold JsMap.has.
    destruct (JsMap.get k out) as [c'|] eqn:Hk.
    + destruct (JsMap.get key out) as [c0|] eqn:Hkey; [done|].
      destruct (String.eqb_spec key k) as [->|]; [congruence|done].
    + rewrite JsMap_get_set.
      destruct (String.eqb_spec key k) as [->|]; [by rewrite Hk|done].
Qed.

Lemma addLineage_columns (out : list (string * ColumnConfig))
    (lineage : list (option WithColumns)) (cols : list (string * ColumnConfig)) :
  addLineage out lineage = Ok cols →
  (NoDup (map fst out) → NoDup (map fst cols))
  ∧ ∀ key, JsMap.get key cols
           = match JsMap.get key out with
             | Some c => Some c
             | None => inherited key lineage
             end.
Proof.
  revert out. induction lineage as [|[anc|] lineage IH]; intros out; simpl; [| |done].
  - intros [= <-]. split; [done|]. intros key. by destruct (JsMap.get key out).
  - intros Hcols. destruct (IH _ Hcols) as [Hnodup Hget]. split.
    + intros Hout. by apply Hnodup, addLineageColumns_NoDup.
    + intros key. rewrite Hget, addLineageColumns_get.
      by destruct (JsMap.get key out).
Qed.

(** The columns a registration leaves on a record type: every property
    name once; for a name the type declares itself its own configuration
    (with the database name filled in when it was left out), and for any
    other name the configuration of the nearest ancestor that has it. *)
Theorem registration_columns (cfg : RecordConfig)
    (own : option (list (string * ColumnConfig))) (lineage : list (option WithColumns)) :
  NoDup (map fst (default [] own)) →
  match record camelToSnake cfg own lineage with
  | Ok wc =>
      NoDup (map fst (columns wc))
      ∧ ∀ key, JsMap.get key (columns wc)
               = match JsMap.get key (default [] own) with
                 | Some c =>
                     Some (withName camelToSnake (default true (convertCases cfg)) key c)
                 | None => inherited key lineage
                 end
  | Throw _ => True
  end.
Proof.
  intros Hown. unfold record.
  set (convert := default true (convertCases (mergeRecordDefaults cfg))).
  assert (convert = default true (convertCases cfg)) as Hconvert by done.
  set (out := match own with
              | Some own => addOwnColumns camelToSnake convert own
              | None => []
              end).
  assert (out = map (fun e => (e.1, withName camelToSnake convert e.1 e.2)) (default [] own))
    as Hout.
  { unfold out. destruct own as [own|]; [|done]. by apply addOwnColumns_entries. }
  destruct (addLineage out lineage) as [cols|e] eqn:Hcols; simpl; [|done].
  destruct (addLineage_columns _ _ _ Hcols) as [Hnodup Hget]. split.
  - apply Hnodup. rewrite Hout, map_map. done.
  - intros key. rewrite Hget, Hout, JsMap_get_fmap, <- Hconvert.
    by destruct (JsMap.get key (default [] own)).
Qed.
End RegistrationColumns.

(** An administrator keeps its own [name], gets a database name for
    [level] and inherits [id] from the user. *)
Lemma registration_columns_witness :
  NoDup (map fst Sample.adminColumns)
  ∧ match record (fun s => s) Sample.adminConfig (Some Sample.adminColumns)
            [Some Sample.userConfig] with
    | Ok wc =>
        map fst (columns wc) = ["name"; "level"; "id"]
        ∧ (name <$> JsMap.get "name" (columns wc)) = Some (Some "admin_name")
        ∧ (name <$> JsMap.get "level" (columns wc)) = Some (Some "level")
        ∧ JsMap.get "id" (columns wc) = JsMap.get "id" (columns Sample.userConfig)
    | Throw _ => False
    end.
Proof.
  assert (NoDup (map fst Sample.adminColumns)) as Hnodup.
  { apply (bool_decide_unpack _). by vm_compute. }
  split; [exact Hnodup|].
  pose proof (registration_columns (fun s => s) Sample.adminConfig (Some Sample.adminColumns)
                [Some Sample.userConfig] Hnodup) as Hrec.
  destruct (record _ _ _ _) as [wc|e] eqn:Hwc; [|by vm_compute in Hwc].
  destruct Hrec as [_ Hget]. split; [|by rewrite !Hget].
  vm_compute in Hwc. by injection Hwc as <-.
Defined.

(** ** The properties of a hydrated instance *)

Section HydratedProperties.
Variable ctor : Ctor.
Variable options : GetQueryOptions.

Lemma dom_fixedObjOf (obj : list (string * JsValue)) (m : gmap string JsValue) :
  dom (foldl (fun fixedObj e =>
                <[resKeyOf ctor options e.1 := fixupValue ctor options e.1 e.2]> fixedObj)
         m obj)
  = dom m ∪ list_to_set (map (fun e => resKeyOf ctor options e.1) obj).
Proof.
  revert m. induction obj as [|e obj IH]; intros m; simpl.
  - set_cases.
  - rewrite IH, dom_insert_L. set_cases.
Qed.

Lemma unselected_key (key : string) :
  key ∉ map dbName (selectedColumns ctor options) →
  JsMap.get key (getKeyMap ctor options) = None
  ∧ JsMap.get key (getTransformerMap ctor options) = None.
Proof.
  intros Hkey. unfold getKeyMap, getTransformerMap.
  split; apply JsMap_get_None; rewrite JsMap_ofEntries_keys, map_map; exact Hkey.
Qed.

(** A hydrated instance has one property for every entry of the row,
    named after the selected column the entry belongs to; an entry that
    belongs to no selected column is kept under its own name, with [null]
    turned into [undefined].  The entries are assumed to land on distinct
    properties. *)
Theorem hydrated_properties (obj : list (string * JsValue)) :
  NoDup (map (fun e => resKeyOf ctor options e.1) obj) →
  dom (props (fixupResult ctor options obj))
  = list_to_set (map (fun e => resKeyOf ctor options e.1) obj)
  ∧ ∀ key value, (key, value) ∈ obj →
      key ∉ map dbName (selectedColumns ctor options) →
      props (fixupResult ctor options obj) !! key = Some (nullishCoalesce value JsUndefined).
Proof.
  intros Hnodup. split.
  - unfold fixupResult, construct, objectAssign, fixedObjOf. simpl.
    rewrite (right_id_L ∅ (∪)), dom_fixedObjOf, dom_empty_L. set_cases.
  - intros key value Hin Hkey. destruct (unselected_key key Hkey) as [Hmap Htransformer].
    pose proof (fixupResult_lookup ctor options obj key value Hnodup Hin) as Hlookup.
    unfold resKeyOf, fixupValue in Hlookup. by rewrite Hmap, Htransformer in Hlookup.
Qed.
End HydratedProperties.

(** An event read with a column [total] that is none of its own. *)
Lemma hydrated_properties_witness :
  NoDup (map (fun e => resKeyOf Sample.Event Sample.noGetOptions e.1) Sample.countedRow)
  ∧ props (fixupResult Sample.Event Sample.noGetOptions Sample.countedRow) !! "total"
    = Some JsUndefined.
Proof.
  assert (NoDup (map (fun e => resKeyOf Sample.Event Sample.noGetOptions e.1)
                   Sample.countedRow)) as Hnodup.
  { apply (bool_decide_unpack _). by vm_compute. }
  split; [exact Hnodup|].
  destruct (hydrated_properties Sample.Event Sample.noGetOptions Sample.countedRow Hnodup)
    as [_ Hkept].
  apply (Hkept "total" JsNull).
  - apply list_elem_of_further, list_elem_of_here.
  - apply (bool_decide_unpack _). by vm_compute.
Defined.

(** ** The primary keys of a record type *)

Section SortByKey.
Context {A : Type}.
Variable key : A → Z.

Lemma insertByKey_Permutation (x : A) (l : list A) : insertByKey key x l ≡ₚ x :: l.
Proof.
  induction l as [|y l IH]; simpl; [done|].
  destruct (key y <=? key x); [|done]. rewrite IH. apply Permutation_swap.
Qed.

Lemma insertByKey_sorted (x : A) (l : list A) :
  StronglySorted (fun a b => key a ≤ key b) l →
  StronglySorted (fun a b => key a ≤ key b) (insertByKey key x l).
Proof.
  induction 1 as [|y l Hl IH Hy]; simpl; [by repeat constructor|].
  destruct (Z.leb_spec (key y) (key x)) as [Hle|Hlt].
  - constructor; [done|]. rewrite insertByKey_Permutation. by constructor.
  - constructor; [by constructor|]. constructor; [lia|].
    eapply Forall_impl; [exact Hy|]. simpl. intros; lia.
Qed.

Lemma sortByKey_spec (l : list A) :
  sortByKey key l ≡ₚ l ∧ StronglySorted (fun a b => key a ≤ key b) (sortByKey key l).
Proof.
  unfold sortByKey.
  assert (∀ acc, StronglySorted (fun a b => key a ≤ key b) acc →
            foldl (fun acc x => insertByKey key x acc) acc l ≡ₚ (acc ++ l)%list
            ∧ StronglySorted (fun a b => key a ≤ key b)
                (foldl (fun acc x => insertByKey key x acc) acc l)) as Hgen.
  { induction l as [|x l IH]; intros acc Hacc; simpl.
    - by rewrite app_nil_r.
    - destruct (IH (insertByKey key x acc)) as [Hperm Hsorted];
        [by apply insertByKey_sorted|].
      split; [|done]. rewrite Hperm, insertByKey_Permutation. simpl.
      apply Permutation_middle. }
  apply (Hgen []). constructor.
Qed.
End SortByKey.

(** The primary keys of a type are the database names of the columns
    whose [primaryKey] is [true] or a number that is not negative, each
    column once, in ascending order of that number, [true] counting
    as 1. *)
Theorem primary_keys_in_ordinal_order (ctor : Ctor) :
  ∃ keyColumns,
    getPrimaryKeys ctor = map nameOf keyColumns
    ∧ keyColumns ≡ₚ filter (fun c => isPrimaryKey c = true)
                      (map snd (columns (getConfig ctor)))
    ∧ StronglySorted (fun a b => pkOrder a ≤ pkOrder b) keyColumns
    ∧ Forall (fun c => ∃ p, primaryKey c = Some p
                          ∧ pkOrder c = match p with PkTrue => 1 | PkOrdinal n => n end
                          ∧ 0 ≤ pkOrder c)
        keyColumns.
Proof.
  unfold getPrimaryKeys.
  set (qualifying := filter (fun c => isPrimaryKey c = true)
                       (map snd (columns (getConfig ctor)))).
  destruct (sortByKey_spec pkOrder qualifying) as [Hperm Hsorted].
  exists (sortByKey pkOrder qualifying). split; [done|]. split; [done|]. split; [done|].
  rewrite Hperm. apply Forall_forall. intros c [Hc _]%list_elem_of_filter.
  unfold isPrimaryKey, pkOrder, pkNumber in *.
  destruct (primaryKey c) as [p|]; [|done]. exists p.
  split; [done|]. split; [done|]. by apply Z.leb_le.
Qed.

(** ** The where clause of an instance *)

Abbreviation keyCondition :=
  (fun (k : string) (v : JsValue) => SqlTemplate [SqlIdentifier [k]; SqlText " = "; SqlBind v]).

Lemma whereCondition_cases (r : DbRecord) (k : string) :
  match whereCondition r k with
  | Ok condition =>
      ∃ v, primaryKeyValue r k = Some v ∧ truthy v = true ∧ condition = keyCondition k v
  | Throw e =>
      e = TypeError ∧ primaryKeyValue r k = None
      ∨ e = MissingKeyValue k ∧ ∃ v, primaryKeyValue r k = Some v ∧ truthy v = false
  end.
Proof.
  unfold whereCondition, primaryKeyValue.
  destruct (List.find _ _) as [c|]; simpl; [|by left].
  destruct (truthy _) eqn:Hv; [by eexists|]. right. split; [done|]. by eexists.
Qed.

Lemma whereConditions_cases (r : DbRecord) (keys : list string) :
  match mapR (whereCondition r) keys with
  | Ok conditions =>
      ∃ values,
        Forall2 (fun k v => primaryKeyValue r k = Some v ∧ truthy v = true) keys values
        ∧ conditions = zip_with keyCondition keys values
  | Throw e =>
      ∃ k, k ∈ keys
           ∧ (e = TypeError ∧ primaryKeyValue r k = None
              ∨ e = MissingKeyValue k ∧ ∃ v, primaryKeyValue r k = Some v ∧ truthy v = false)
  end.
Proof.
  induction keys as [|k keys IH]; simpl; [by exists []|].
  pose proof (whereCondition_cases r k) as Hk.
  destruct (whereCondition r k) as [condition|e]; simpl.
  - destruct Hk as (v & Hv & Htruthy & ->).
    destruct (mapR (whereCondition r) keys) as [conditions|e]; simpl.
    + destruct IH as (values & Hvalues & ->). exists (v :: values).
      split; [by constructor|done].
    + destruct IH as (k' & Hin & Hk'). exists k'. split; [by apply list_elem_of_further|done].
  - exists k. split; [apply list_elem_of_here|done].
Qed.

(** The where clause of an instance.  A type without primary keys has
    none.  Otherwise the clause joins with [AND] one condition
    [key = value] per primary key, in the order of the keys, binding the
    value the instance holds now, behind [WHERE] unless that is left out;
    and asking for it throws when a key is no write column or its value is
    falsy. *)
Theorem where_clause_of_instance (r : DbRecord) (noLeadingWhere : bool) :
  let keys := getPrimaryKeys (constructor r) in
  match getWhereClause r noLeadingWhere with
  | Ok None => keys = []
  | Ok (Some clause) =>
      keys ≠ []
      ∧ ∃ values,
          Forall2 (fun k v => primaryKeyValue r k = Some v ∧ truthy v = true) keys values
          ∧ clause
            = let conditions := SqlJoin (zip_with keyCondition keys values) (SqlText " AND ") in
              if noLeadingWhere then conditions
              else SqlTemplate [SqlText "WHERE "; conditions]
  | Throw e =>
      keys ≠ []
      ∧ ∃ k, k ∈ keys
             ∧ (e = TypeError ∧ primaryKeyValue r k = None
                ∨ e = MissingKeyValue k
                  ∧ ∃ v, primaryKeyValue r k = Some v ∧ truthy v = false)
  end.
Proof.
  intros keys. unfold getWhereClause. fold keys.
  destruct keys as [|k keys'] eqn:Hkeys; [done|].
  cbn [length Nat.eqb].
  pose proof (whereConditions_cases r (k :: keys')) as Hconditions.
  destruct (mapR (whereCondition r) (k :: keys')) as [conditions|e]; simpl.
  - destruct Hconditions as (values & Hvalues & ->). split; [done|]. by exists values.
  - split; [done|]. exact Hconditions.
Qed.

(** ** Picking and omitting properties *)

(** [pick] and [omit] split an object in two: no property is in both
    parts, the two parts together are the object, and neither part has a
    property of the other kind. *)
Theorem pick_omit_partition (obj : gmap string JsValue) (keys : list string) :
  pick obj keys ##ₘ omit obj keys
  ∧ pick obj keys ∪ omit obj keys = obj
  ∧ omit (pick obj keys) keys = ∅
  ∧ pick (omit obj keys) keys = ∅
  ∧ ∀ k, pick obj keys !! k = (if bool_decide (k ∈ keys) then obj !! k else None)
         ∧ omit obj keys !! k = (if bool_decide (k ∈ keys) then None else obj !! k).
Proof.
  unfold pick, omit.
  assert (∀ k, filter (fun e : string * JsValue => e.1 ∈ keys) obj !! k
               = (if bool_decide (k ∈ keys) then obj !! k else None)) as Hpick.
  { intros k. apply option_eq. intros v. rewrite map_lookup_filter_Some. simpl.
    destruct (decide (k ∈ keys)).
    - rewrite bool_decide_eq_true_2 by done. tauto.
    - rewrite bool_decide_eq_false_2 by done. split; [tauto|done]. }
  assert (∀ k, filter (fun e : string * JsValue => e.1 ∉ keys) obj !! k
               = (if bool_decide (k ∈ keys) then None else obj !! k)) as Homit.
  { intros k. apply option_eq. intros v. rewrite map_lookup_filter_Some. simpl.
    destruct (decide (k ∈ keys)).
    - rewrite bool_decide_eq_true_2 by done. split; [tauto|done].
    - rewrite bool_decide_eq_false_2 by done. tauto. }
  split; [|split; [|split; [|split]]].
  - apply map_disjoint_spec. intros k v1 v2. rewrite Hpick, Homit.
    by destruct (bool_decide (k ∈ keys)).
  - apply map_eq. intros k. rewrite lookup_union, Hpick, Homit.
    destruct (bool_decide (k ∈ keys)); by destruct (obj !! k).
  - apply map_eq. intros k. rewrite lookup_empty. apply eq_None_not_Some. intros [v Hv].
    apply map_lookup_filter_Some in Hv as [Hv Hk].
    apply map_lookup_filter_Some in Hv as [_ Hin]. done.
  - apply map_eq. intros k. rewrite lookup_empty. apply eq_None_not_Some. intros [v Hv].
    apply map_lookup_filter_Some in Hv as [Hv Hk].
    apply map_lookup_filter_Some in Hv as [_ Hin]. done.
  - intros k. by rewrite Hpick, Homit.
Qed.

(** ** A delete of instances by a predicate *)

Section DeleteByPredicate.
Context {DbState : Type}.
Variable tquery : QuerySqlToken -> DbState -> JsResult QueryResult * DbState.

(** When a predicate is given, the instances handed to a delete only
    name the table: the worker sends the one statement a delete of their
    type by that predicate sends, with the same results, whatever the
    number of instances, the chunk limit and their key values; they are
    snapshotted when it succeeds. *)
Theorem delete_by_predicate_ignores_instances
    (fuel : nat) (config : DatabasePoolPlusConfig) (refs : OneOrMore nat)
    (options : DeleteQueryOptions.t) (predicate : SqlToken) (w : @World DbState)
    (ref : nat) (others : list nat) (first : DbRecord) :
  DeleteQueryOptions.whereClause options = Some predicate →
  flatten refs = ref :: others →
  heap w !! ref = Some first →
  (∀ other, other ∈ others → is_Some (heap w !! other)) →
  let byInstances := dbDeleteWorker tquery fuel config (OfRecords refs) options w in
  let byType := dbDeleteWorker tquery fuel config (OfType (constructor first)) options w in
  byInstances.1 = byType.1
  ∧ sent byInstances.2 = sent byType.2
  ∧ db byInstances.2 = db byType.2
  ∧ heap byType.2 = heap w
  ∧ match byInstances.1 with
    | Ok _ => allSnapshotted (heap byInstances.2) (flatten refs)
              ∧ sameProps (heap w) (heap byInstances.2)
    | Throw _ => heap byInstances.2 = heap w
    end.
Proof.
  intros Hwhere Hrefs Hfirst Hothers byInstances byType.
  unfold byInstances, byType, dbDeleteWorker, bindM, liftR, ret. cbn [default].
  destruct (deref_all (flatten refs) w) as (instances & Hderef & Hinst).
  { rewrite Hrefs. intros r [->|Hin]%elem_of_cons; [by eexists|by apply Hothers]. }
  rewrite Hderef. rewrite Hrefs in Hinst.
  apply Forall2_cons_inv_l in Hinst as (first' & rest & Hfirst' & _ & ->).
  assert (first' = first) as -> by congruence.
  cbn [mbind option_bind head option_map].
  unfold deleteQueries. rewrite Hwhere.
  destruct (noString _); [done|].
  pose proof (performQueries_heap tquery
                [deleteWhereQuery
                   (default "" (orString (DeleteQueryOptions.tableName options)
                                  (table (recordConfig (getConfig (constructor first))))))
                   predicate]
                (DeleteQueryOptions.startingQuery options)
                (DeleteQueryOptions.finalQuery options) w) as Hheap.
  destruct (performQueries _ _ _ _ w) as [[res|e] w1]; simpl in *; [|done].
  split; [done|]. split; [done|]. split; [done|]. split; [done|]. split.
  - apply saveStates_allSnapshotted. intros r Hin. rewrite Hheap.
    rewrite Hrefs in Hin. apply elem_of_cons in Hin as [->|Hin]; [by eexists|by apply Hothers].
  - rewrite <- Hheap. apply saveStates_sameProps.
Qed.
End DeleteByPredicate.

(** Two users deleted by a predicate of the caller. *)
Lemma delete_by_predicate_witness :
  let options :=
    {| DeleteQueryOptions.startingQuery := None; DeleteQueryOptions.finalQuery := None;
       DeleteQueryOptions.tableName := None;
       DeleteQueryOptions.whereClause := Some (SqlTemplate [SqlText "banned"]) |} in
  sent (dbDeleteWorker Sample.quietDb 0 Sample.smallChunks (OfRecords (More [0; 1]%nat))
          options (Sample.emptyWorld Sample.userHeap)).2
  = sent (dbDeleteWorker Sample.quietDb 0 Sample.smallChunks (OfType Sample.User)
            options (Sample.emptyWorld Sample.userHeap)).2.
Proof.
  intros options.
  destruct (delete_by_predicate_ignores_instances Sample.quietDb 0 Sample.smallChunks
              (More [0; 1]%nat) options (SqlTemplate [SqlText "banned"])
              (Sample.emptyWorld Sample.userHeap) 0%nat [1%nat] Sample.alice)
    as (_ & Hsent & _).
  - reflexivity.
  - reflexivity.
  - reflexivity.
  - intros other Hother. apply list_elem_of_singleton in Hother as ->. by eexists.
  - exact Hsent.
Defined.

(** ** The value of a column as it is written *)

Lemma transformerMap_get (insertableColumns : list ColumnDetail) (c : ColumnDetail) :
  NoDup (map cd_name insertableColumns) → c ∈ insertableColumns →
  JsMap.get (cd_name c) (transformerMap insertableColumns) = Some (cfg_out (config c)).
Proof.
  intros Hnodup Hc.
  unfold transformerMap. rewrite JsMap_ofEntries_NoDup by (by rewrite map_map).
  apply JsMap_get_NoDup; [by rewrite map_map|].
  by apply (list_elem_of_fmap_2 (fun c => (cd_name c, cfg_out (config c)))).
Qed.

Section OutputValue.
Variable r : DbRecord.
Variable knownKeys : gset string.
Variable insertableColumns : list ColumnDetail.

Hypothesis names_unique : NoDup (map fst (columns (getConfig (constructor r)))).
Hypothesis insertable : insertableColumns `sublist_of` getInsertColumns (constructor r).

Lemma find_column (c : ColumnDetail) :
  c ∈ getInsertColumns (constructor r) →
  List.find (fun c' => String.eqb (cd_name c') (cd_name c)) (getInsertColumns (constructor r))
  = Some c.
Proof.
  intros Hc.
  pose proof (getInsertColumns_names (constructor r) names_unique) as Hnodup.
  revert Hc Hnodup. generalize (getInsertColumns (constructor r)).
  induction l as [|c0 l IH]; intros Hc Hnodup; [by apply elem_of_nil in Hc|].
  simpl in *. apply NoDup_cons in Hnodup as [Hfresh Hnodup].
  destruct (String.eqb_spec (cd_name c0) (cd_name c)) as [Heq|Hne].
  - apply elem_of_cons in Hc as [->|Hc]; [done|].
    destruct Hfresh. rewrite Heq. by apply (list_elem_of_fmap_2 cd_name).
  - apply elem_of_cons in Hc as [->|Hc]; [done|]. by apply IH.
Qed.

(** [getColumnOutputValue] gives, for a column of a write, the value the
    write puts into the payload, as long as the instance holds a value
    for it; for [null] and [undefined] the two differ, since the payload
    takes them as they are and [getColumnOutputValue] hands them to the
    write transformer. *)
Theorem column_output_value (c : ColumnDetail) :
  c ∈ insertableColumns →
  isNullish (getProp (props r) (cd_name c)) = false →
  getColumnOutputValue r (cd_name c) = writtenValue knownKeys insertableColumns r c.
Proof.
  intros Hc Hvalue. unfold getColumnOutputValue, writtenValue.
  rewrite find_column by (by eapply elem_of_sublist).
  rewrite transformerMap_get; [|eapply sublist_NoDup;
    [by apply getInsertColumns_names|by apply fmap_sublist]|done].
  simpl.
  assert (nullishCoalesce (getProp (props r) (cd_name c))
            (if bool_decide (cd_name c ∈ knownKeys) then JsNull else JsUndefined)
          = getProp (props r) (cd_name c)) as ->.
  { unfold nullishCoalesce. by rewrite Hvalue. }
  unfold applyTransformer. rewrite Hvalue. by destruct (cfg_out (config c)).
Qed.
End OutputValue.

(** The name of a user, as it is written. *)
Lemma column_output_value_witness :
  getColumnOutputValue Sample.alice "name"
  = writtenValue Sample.userKeys (getInsertColumns Sample.User) Sample.alice Sample.nameColumn.
Proof.
  refine (column_output_value Sample.alice Sample.userKeys (getInsertColumns Sample.User)
            _ _ Sample.nameColumn _ _).
  - apply (bool_decide_unpack _). by vm_compute.
  - reflexivity.
  - exact (list_elem_of_further _ _ _ (list_elem_of_here Sample.nameColumn [])).
  - reflexivity.
Defined.

(** ** A write followed by a read *)

Section RoundTrip.
Variable ctor : Ctor.
Variable options : GetQueryOptions.
Variable setOptions : SetQueryOptions.t.
Variable primaryKeyColumns : list ColumnDetail.
Variable knownKeys : gset string.
Variable insertableColumns : list ColumnDetail.

Hypothesis names_unique : NoDup (map fst (columns (getConfig ctor))).
Hypothesis dbNames_unique : NoDup (map dbName (allDetails ctor)).
Hypothesis insertable : insertableColumns `sublist_of` getInsertColumns ctor.

Lemma getInsertColumns_sublist : getInsertColumns ctor `sublist_of` allDetails ctor.
Proof. unfold getInsertColumns, allDetails. apply fmap_sublist, sublist_filter. Qed.

Lemma selectedColumns_sublist : selectedColumns ctor options `sublist_of` allDetails ctor.
Proof.
  unfold selectedColumns, getSelectColumns, allDetails.
  etrans; [apply sublist_filter|]. apply fmap_sublist, sublist_filter.
Qed.

Lemma allDetails_names : NoDup (map cd_name (allDetails ctor)).
Proof. unfold allDetails. by rewrite map_map. Qed.

Lemma insertable_names : NoDup (map cd_name insertableColumns).
Proof.
  eapply sublist_NoDup; [exact allDetails_names|].
  apply fmap_sublist. etrans; [exact insertable|apply getInsertColumns_sublist].
Qed.

Lemma writtenKeys_insert (cols : list ColumnDetail) : writtenKeys insert cols = map dbName cols.
Proof.
  unfold writtenKeys. induction cols as [|c cols IH]; [done|].
  cbn [map concat]. by rewrite IH.
Qed.

Lemma outputColumns_insert :
  JsMap.values (outputColumns insert setOptions primaryKeyColumns insertableColumns)
  = insertableColumns.
Proof.
  unfold outputColumns, JsMap.values.
  change (isUpdate insert) with false. change (bool_decide (insert = upsert)) with false.
  cbn [andb orb]. rewrite JsMap_ofEntries_NoDup.
  - rewrite map_map. simpl. apply map_id.
  - rewrite map_map. simpl. eapply sublist_NoDup; [exact allDetails_names|].
    apply fmap_sublist. etrans; [exact insertable|apply getInsertColumns_sublist].
Qed.

Lemma payload_lookup (recordIndex : nat) (r : DbRecord) (c : ColumnDetail) :
  c ∈ insertableColumns → dbName c ≠ "__dbRecordIndex__" →
  outputObject insert setOptions primaryKeyColumns knownKeys insertableColumns recordIndex r
    !! dbName c
  = Some (writtenValue knownKeys insertableColumns r c).
Proof.
  intros Hc Hindex. unfold outputObject, objectAssign.
  rewrite lookup_union_r by (by apply lookup_singleton_None).
  rewrite outputColumns_insert. apply foldl_writeColumn_lookup; [|done].
  rewrite writtenKeys_insert. eapply sublist_NoDup; [exact dbNames_unique|].
  apply fmap_sublist. etrans; [exact insertable|apply getInsertColumns_sublist].
Qed.

Lemma selected_get {B} (f : ColumnDetail → B) (c : ColumnDetail) :
  c ∈ selectedColumns ctor options →
  JsMap.get (dbName c)
    (JsMap.ofEntries (map (fun c => (dbName c, f c)) (selectedColumns ctor options)))
  = Some (f c).
Proof.
  intros Hc.
  assert (NoDup (map dbName (selectedColumns ctor options))) as Hnodup.
  { eapply sublist_NoDup; [exact dbNames_unique|].
    apply fmap_sublist, selectedColumns_sublist. }
  rewrite JsMap_ofEntries_NoDup by (by rewrite map_map).
  apply JsMap_get_NoDup; [by rewrite map_map|].
  by apply (list_elem_of_fmap_2 (fun c => (dbName c, f c))).
Qed.

Lemma storedRow_keys (payload : gmap string JsValue) :
  map (fun e => resKeyOf ctor options e.1) (storedRow (selectedColumns ctor options) payload)
  = map cd_name (selectedColumns ctor options).
Proof.
  unfold storedRow. rewrite map_map. simpl. apply map_ext_in.
  intros c Hc%list_elem_of_In. unfold resKeyOf, getKeyMap. by rewrite selected_get.
Qed.

(** A value survives a write followed by a read, except that [null] comes
    back as [undefined]: when the payload of an inserted instance is
    stored as it is, the instance hydrated from the stored row holds, for
    every column that is written and read without a transformer, the value
    the written instance held.  Property names and database names of the
    type are assumed distinct. *)
Theorem write_read_round_trip (recordIndex : nat) (r : DbRecord) (c : ColumnDetail) :
  c ∈ insertableColumns →
  c ∈ selectedColumns ctor options →
  cfg_out (config c) = InclFlag true →
  cfg_in (config c) = InclFlag true →
  dbName c ≠ "__dbRecordIndex__" →
  let payload :=
    outputObject insert setOptions primaryKeyColumns knownKeys insertableColumns
      recordIndex r in
  props (fixupResult ctor options (storedRow (selectedColumns ctor options) payload))
    !! cd_name c
  = Some (nullishCoalesce (getProp (props r) (cd_name c)) JsUndefined).
Proof.
  intros Hwritten Hread Hout Hin Hindex payload.
  assert (resKeyOf ctor options (dbName c) = cd_name c) as Hkey.
  { unfold resKeyOf, getKeyMap. by rewrite selected_get. }
  rewrite <- Hkey.
  rewrite (fixupResult_lookup ctor options _ (dbName c)
             (nullishCoalesce (getProp payload (dbName c)) JsNull)).
  - unfold fixupValue, getTransformerMap. rewrite selected_get, Hin by done.
    unfold payload, getProp at 1. rewrite payload_lookup by done. simpl.
    unfold writtenValue. rewrite transformerMap_get, Hout; [|exact insertable_names|done].
    unfold applyTransformer, nullishCoalesce. rewrite !Hkey.
    destruct (isNullish (getProp (props r) (cd_name c))) eqn:Hvalue.
    + by destruct (bool_decide _).
    + cbv beta iota. by rewrite !Hvalue.
  - rewrite storedRow_keys. eapply sublist_NoDup; [exact allDetails_names|].
    apply fmap_sublist, selectedColumns_sublist.
  - unfold storedRow.
    by apply (list_elem_of_fmap_2
                (fun c => (dbName c, nullishCoalesce (getProp payload (dbName c)) JsNull))).
Qed.
End RoundTrip.

(** The name of a user comes back as it was written. *)
Lemma write_read_round_trip_witness :
  props (fixupResult Sample.User Sample.noGetOptions
           (storedRow (selectedColumns Sample.User Sample.noGetOptions)
              (outputObject insert SetQueryOptions.empty Sample.userPrimaryKeyColumns
                 Sample.userKeys (getInsertColumns Sample.User) 0 Sample.alice)))
    !! "name"
  = Some (JsStr "alice").
Proof.
  refine (write_read_round_trip Sample.User Sample.noGetOptions SetQueryOptions.empty
            Sample.userPrimaryKeyColumns Sample.userKeys (getInsertColumns Sample.User)
            _ _ _ 0 Sample.alice Sample.nameColumn _ _ _ _ _).
  - apply (bool_decide_unpack _). by vm_compute.
  - apply (bool_decide_unpack _). by vm_compute.
  - reflexivity.
  - exact (list_elem_of_further _ _ _ (list_elem_of_here Sample.nameColumn [])).
  - exact (list_elem_of_further _ _ _ (list_elem_of_here Sample.nameColumn [])).
  - reflexivity.
  - reflexivity.
  - discriminate.
Defined.

(** ** The statements a write sends *)

Section StatementCount.
Context {DbState : Type}.
Variable tquery : QuerySqlToken -> DbState -> JsResult QueryResult * DbState.

Lemma queryAll_sent (qs : list QuerySqlToken) (w w' : @World DbState)
    (res : list QueryResult) :
  queryAll tquery qs w = (Ok res, w') →
  sent w' = (sent w ++ qs)%list ∧ length res = length qs.
Proof.
  revert w res. induction qs as [|q qs IH]; intros w res; simpl.
  - intros [= <- <-]. by rewrite app_nil_r.
  - unfold bindM, queryM. destruct (tquery q (db w)) as [[r|e] d]; simpl; [|done].
    destruct (queryAll tquery qs _) as [[rs|e] w1] eqn:Hrest; [|done].
    intros [= <- <-]. destruct (IH _ _ Hrest) as [-> Hlen]. simpl.
    rewrite <- app_assoc. by rewrite Hlen.
Qed.

Lemma setQueries_count (fuel : nat) (thisConfig : DatabasePoolPlusConfig)
    (record : list DbRecord) (mode : Mode) (options : SetQueryOptions.t)
    (ctor : Ctor) (primaryKeyColumns : list ColumnDetail) (queries : list QuerySqlToken) :
  0 < insertChunkMax thisConfig →
  (length record < fuel)%nat →
  setQueries fuel thisConfig record mode options = Ok (ctor, primaryKeyColumns, queries) →
  Z.of_nat (length queries) = ceilDiv (Z.of_nat (length record)) (insertChunkMax thisConfig).
Proof.
  intros Hmax Hfuel. unfold setQueries.
  destruct record as [|first rest] eqn:Hrecord; [done|]. rewrite <- Hrecord in *.
  destruct (_ && isSet _); [done|].
  destruct (noString _); [done|].
  destruct (collectKnownKeys _ _ _) as [knownKeys|e]; cbn [bindR]; [|done].
  destruct (getColumns _ _ _ _ _) as [insertableColumns updatableColumns].
  destruct (_ || _); [done|].
  unfold createOutputObjects.
  destruct (colDefinitions _ _) as [defs|e]; cbn [bindR]; [|done].
  unfold createQueries.
  destruct (makePrepareQueryOptions _ _ _ _ _ _ _ _) as [o|e]; cbn [bindR]; [|done].
  rewrite chunkLoop_chunks, mapR_pure; [|done|by rewrite length_imap].
  cbn [bindR]. intros [= _ _ <-].
  rewrite length_map, length_chunks, length_imap by done. done.
Qed.

(** A write that ends well has sent one statement for every block of
    [insertChunkMax] instances, the last block possibly smaller, between
    the starting and the final statement when these are given, and returns
    one result per statement sent.  The chunk limit is positive and there
    is fuel for every round of the loop. *)
Theorem write_sends_one_statement_per_chunk
    (fuel : nat) (thisConfig : DatabasePoolPlusConfig) (refs : OneOrMore nat)
    (mode : Mode) (opt : SetQueryOptions.t) (w : @World DbState) :
  0 < insertChunkMax thisConfig →
  (length (flatten refs) < fuel)%nat →
  match dbSetWorker tquery fuel thisConfig refs mode opt w with
  | (Ok res, w') =>
      ∃ queries,
        sent w' = (sent w ++ option_list (SetQueryOptions.startingQuery opt)
                     ++ queries ++ option_list (SetQueryOptions.finalQuery opt))%list
        ∧ Z.of_nat (length queries)
          = ceilDiv (Z.of_nat (length (flatten refs))) (insertChunkMax thisConfig)
        ∧ length res
          = (length (option_list (SetQueryOptions.startingQuery opt)) + length queries
             + length (option_list (SetQueryOptions.finalQuery opt)))%nat
  | (Throw _, _) => True
  end.
Proof.
  intros Hmax Hfuel. unfold dbSetWorker, bindM, liftR.
  pose proof (deref_outcome (flatten refs) w) as Hderef.
  destruct (deref (flatten refs) w) as [[instances|e] w0]; [|done].
  destruct Hderef as [-> Hinst]. apply Forall2_length in Hinst.
  destruct (setQueries _ _ _ _ _) as [[[ctor pkc] queries]|e] eqn:Hbuilt; [|done].
  apply setQueries_count in Hbuilt; [|done|lia].
  destruct (performQueries _ _ _ _ w) as [[res|e] w1] eqn:Hsent; [|done].
  apply queryAll_sent in Hsent as [Hsent Hres].
  change (SetQueryOptions.startingQuery (normalizeOptions opt))
    with (SetQueryOptions.startingQuery opt) in *.
  change (SetQueryOptions.finalQuery (normalizeOptions opt))
    with (SetQueryOptions.finalQuery opt) in *.
  destruct (negb (bool_decide _)).
  - unfold updateRecordsM.
    destruct (updateDbRecordObjects _ _ _ _ res (heap w1)) as [h2|e]; [|done].
    simpl. exists queries. rewrite Hsent, Hres, !length_app, Hinst. split; [done|].
    split; [done|lia].
  - simpl. exists queries. rewrite Hsent, Hres, !length_app, Hinst. split; [done|].
    split; [done|lia].
Qed.
End StatementCount.

(** Three users under a chunk limit of two: two statements. *)
Lemma write_sends_one_statement_per_chunk_witness :
  match dbSetWorker Sample.quietDb 4 Sample.smallChunks (More [0; 1; 2]%nat) insert
          SetQueryOptions.empty
          (Sample.emptyWorld {[ 0%nat := Sample.alice; 1%nat := Sample.bob;
                                2%nat := Sample.carol ]}) with
  | (Ok res, w') => length (sent w') = 2%nat ∧ length res = 2%nat
  | (Throw _, _) => False
  end.
Proof.
  pose proof (write_sends_one_statement_per_chunk Sample.quietDb 4 Sample.smallChunks
                (More [0; 1; 2]%nat) insert SetQueryOptions.empty
                (Sample.emptyWorld {[ 0%nat := Sample.alice; 1%nat := Sample.bob;
                                      2%nat := Sample.carol ]})
                ltac:(reflexivity) ltac:(simpl; lia)) as Hcount.
  destruct (dbSetWorker _ _ _ _ _ _ _) as [[res|e] w'] eqn:Hrun.
  - destruct Hcount as (queries & Hsent & Hlen & Hres). simpl in *.
    assert (length queries = 2%nat) as Hq.
    { apply Nat2Z.inj. rewrite Hlen. reflexivity. }
    rewrite Hsent, Hres, !length_app, Hq. simpl. split; reflexivity.
  - vm_compute in Hrun. discriminate Hrun.
Defined.

(** ** The payloads of the statements of a write *)

Lemma joinLists_nil {A} (xs : list (list A)) :
  Forall (fun x => x = []) xs → joinLists [] xs = [].
Proof.
  induction 1 as [|x xs -> Hxs IH]; [done|]. simpl. destruct xs; [done|]. exact IH.
Qed.

Lemma payloads_join {A} (f : A → SqlToken) (l : list A) (glue : SqlToken) :
  (∀ x, payloads (f x) = []) → payloads glue = [] → payloads (SqlJoin (map f l) glue) = [].
Proof.
  intros Hf Hglue. simpl. rewrite Hglue. apply joinLists_nil.
  rewrite map_map. apply Forall_fmap, Forall_forall. intros x _. apply Hf.
Qed.

Lemma payloads_joined (members : list SqlToken) (glue : SqlToken) :
  Forall (fun m => payloads m = []) members → payloads glue = [] →
  payloads (SqlJoin members glue) = [].
Proof.
  intros Hmembers Hglue. simpl. rewrite Hglue. apply joinLists_nil. by apply Forall_fmap.
Qed.

Lemma payloads_template (p : SqlToken) (parts : list SqlToken) :
  payloads (SqlTemplate (p :: parts)) = (payloads p ++ payloads (SqlTemplate parts))%list.
Proof. done. Qed.

Lemma payloads_fragment (text : string) : payloads (fragment text) = [].
Proof. done. Qed.

Ltac payloads_step :=
  repeat first
    [ rewrite payloads_template
    | rewrite payloads_fragment
    | progress change (payloads (SqlTemplate [])) with (@nil (list (gmap string JsValue)))
    | progress change (payloads (SqlText ?s)) with (@nil (list (gmap string JsValue)))
    | progress change (payloads (SqlIdentifier ?n)) with (@nil (list (gmap string JsValue)))
    | progress change (payloads (SqlBind ?v)) with (@nil (list (gmap string JsValue)))
    | progress change (payloads (SqlJsonb ?b)) with [b] ].

Lemma payloads_identifiers (names : list string) : payloads (identifiers names) = [].
Proof. unfold identifiers. by apply payloads_join. Qed.

Lemma colDefinitions_payloads (mode : Mode) (cols : list ColumnDetail) (defs : list SqlToken) :
  colDefinitions mode cols = Ok defs → Forall (fun d => payloads d = []) defs.
Proof.
  revert defs. induction cols as [|c cols IH]; intros defs; simpl.
  - intros [= <-]. constructor.
  - destruct (negb _); [done|].
    destruct (colDefinitions mode cols) as [more|e]; simpl; [|done].
    intros [= <-]. constructor; [done|]. apply Forall_app. split; [|by apply IH].
    destruct (_ && _); by repeat constructor.
Qed.

Section Payloads.
Variable options : SetQueryOptions.t.
Variable ctor : Ctor.
Variable tableName : string.
Variable primaryKeys : list string.
Variable primaryKeyColumns insertableColumns updatableColumns : list ColumnDetail.

Lemma payloads_upsertStatement (mode : Mode) (ids : SqlToken) :
  payloads ids = [] →
  payloads (makeUpsertStatement mode options primaryKeys insertableColumns updatableColumns ids)
  = [].
Proof.
  intros Hids. unfold makeUpsertStatement, parenthesizeIfMultipleKeys.
  destruct (_ && _); [|done].
  assert (payloads (SqlJoin (map (fun k => SqlTemplate [SqlText "EXCLUDED."; SqlIdentifier [k]])
                               (JsMap.values (updatableKeyMap updatableColumns)))
                      (fragment ", ")) = []) as Hvalues by (by apply payloads_join).
  destruct (_ <? _)%nat; destruct (_ <? _)%nat; payloads_step;
    by rewrite ?payloads_identifiers, ?Hids, ?Hvalues.
Qed.

Lemma payloads_prepareQuery (mode : Mode) (defs : list SqlToken)
    (block : list (gmap string JsValue)) (o : PrepareQueryOptions) :
  Forall (fun d => payloads d = []) defs →
  makePrepareQueryOptions mode options ctor tableName primaryKeys primaryKeyColumns
    insertableColumns updatableColumns = Ok o →
  payloads (prepareQuery mode options ctor primaryKeyColumns defs block o) = [block].
Proof.
  intros Hdefs Ho.
  assert (payloads (SqlJoin defs (fragment ", ")) = []) as Hjoin by (by apply payloads_joined).
  assert (∀ cols (f : ColumnDetail → SqlToken), (∀ c, payloads (f c) = []) →
            payloads (SqlJoin (map f cols) (fragment ", ")) = []) as Hreturning.
  { intros cols f Hf. by apply payloads_join. }
  assert (∀ (f : string → SqlToken) keys glue, (∀ k, payloads (f k) = []) →
            payloads (SqlJoin (map f keys) (fragment glue)) = []) as Htokens.
  { intros f keys glue Hf. by apply payloads_join. }
  unfold makePrepareQueryOptions in Ho. unfold prepareQuery.
  destruct mode.
  - injection Ho as <-. cbn [isResultTypeQuery fromAlias tableIdentifier keyIdentifiers
                             upsertStatement default id].
    destruct (negb (bool_decide _)); cbn [negb]; payloads_step;
      rewrite ?Hjoin, ?payloads_identifiers, ?payloads_upsertStatement, ?Hreturning;
      try done; apply payloads_identifiers.
  - injection Ho as <-. cbn [isResultTypeQuery fromAlias tableIdentifier keyIdentifiers
                             upsertStatement default id].
    destruct (negb (bool_decide _)); cbn [negb]; payloads_step;
      rewrite ?Hjoin, ?payloads_identifiers, ?payloads_upsertStatement, ?Hreturning;
      try done; apply payloads_identifiers.
  - destruct (length primaryKeys =? 0)%nat; [done|]. injection Ho as <-.
    cbn [isResultTypeQuery fromAlias tableIdentifier keyIdentifiers
         updateSetClauseTokens updateWhereClauseTokens default id].
    destruct (negb (bool_decide _)); cbn [negb]; payloads_step;
      rewrite ?Hjoin, ?Hreturning, ?Htokens; done.
Qed.

Lemma mapR_pure_payloads (defs : list SqlToken) (mode : Mode) (o : PrepareQueryOptions)
    (blocks : list (list (gmap string JsValue))) :
  Forall (fun d => payloads d = []) defs →
  makePrepareQueryOptions mode options ctor tableName primaryKeys primaryKeyColumns
    insertableColumns updatableColumns = Ok o →
  map payloads (map (fun block => prepareQuery mode options ctor primaryKeyColumns defs block o)
                  blocks)
  = map (fun block => [block]) blocks.
Proof.
  intros Hdefs Ho. rewrite map_map. apply map_ext. intros block.
  by apply payloads_prepareQuery.
Qed.
End Payloads.

Lemma concat_singletons {A} (xs : list A) : concat (map (fun x => [x]) xs) = xs.
Proof. induction xs as [|x xs IH]; simpl; [done|]. by rewrite IH. Qed.

(** Every instance of a write is sent exactly once.  When a write
    without [alterSql] builds its statements, each statement binds one
    jsonb payload, and the payloads of the statements put together are the
    output objects of the instances: one object per instance, in the order
    of the batch, each carrying the position of its instance as record
    index. *)
Theorem every_instance_is_sent_once
    (fuel : nat) (thisConfig : DatabasePoolPlusConfig) (record : list DbRecord) (mode : Mode)
    (options : SetQueryOptions.t) (ctor : Ctor) (primaryKeyColumns : list ColumnDetail)
    (queries : list QuerySqlToken) :
  0 < insertChunkMax thisConfig →
  (length record < fuel)%nat →
  SetQueryOptions.alterSql options = None →
  setQueries fuel thisConfig record mode options = Ok (ctor, primaryKeyColumns, queries) →
  Forall (fun q => length (payloads q) = 1%nat) queries
  ∧ ∃ knownKeys insertableColumns,
      concat (concat (map payloads queries))
      = imap (outputObject mode options primaryKeyColumns knownKeys insertableColumns) record
      ∧ ∀ (i : nat) o, concat (concat (map payloads queries)) !! i = Some o →
          o !! "__dbRecordIndex__" = Some (JsNum (Z.of_nat i)).
Proof.
  intros Hmax Hfuel Halter. unfold setQueries.
  destruct record as [|first rest] eqn:Hrecord; [done|]. rewrite <- Hrecord in *.
  destruct (_ && isSet _); [done|].
  destruct (noString _); [done|].
  destruct (collectKnownKeys _ _ _) as [knownKeys|e]; cbn [bindR]; [|done].
  destruct (getColumns _ _ _ _ _) as [insertableColumns updatableColumns].
  destruct (_ || _); [done|].
  unfold createOutputObjects.
  destruct (colDefinitions _ _) as [defs|e] eqn:Hdefs; cbn [bindR]; [|done].
  apply colDefinitions_payloads in Hdefs.
  assert (Forall (fun d => payloads d = [])
            (defs ++ [SqlText (quoteIdent "__dbRecordIndex__" ++ " int4")])) as Hall.
  { apply Forall_app. split; [done|]. by repeat constructor. }
  unfold createQueries.
  destruct (makePrepareQueryOptions _ _ _ _ _ _ _ _) as [o|e] eqn:Ho; cbn [bindR]; [|done].
  rewrite chunkLoop_chunks, mapR_pure; [|done|by rewrite length_imap].
  cbn [bindR]. intros [= <- <- <-].
  unfold addQuery. rewrite Halter.
  set (pkc := filter _ (getSelectColumns (constructor first))).
  set (objects := imap (outputObject mode options pkc knownKeys insertableColumns) record).
  assert (map payloads
            (map (fun block =>
                    prepareQuery mode options (constructor first) pkc
                      (defs ++ [SqlText (quoteIdent "__dbRecordIndex__" ++ " int4")])
                      block o)
               (chunks (insertChunkMax thisConfig) objects))
          = map (fun block => [block]) (chunks (insertChunkMax thisConfig) objects))
    as Hpayloads by (by eapply mapR_pure_payloads).
  split.
  - apply Forall_forall. intros q (block & -> & _)%list_elem_of_fmap.
    by erewrite payloads_prepareQuery.
  - exists knownKeys, insertableColumns. rewrite Hpayloads.
    rewrite concat_singletons, concat_chunks by done. split; [done|].
    intros i obj Hobj. unfold objects in Hobj. rewrite list_lookup_imap in Hobj.
    destruct (record !! i) as [r|]; [|done]. injection Hobj as <-.
    apply outputObject_index.
Qed.


(** Three users under a chunk limit of two: two statements with one
    payload each, three objects in all. *)
Lemma every_instance_is_sent_once_witness :
  match setQueries 4 Sample.smallChunks [Sample.alice; Sample.bob; Sample.carol] insert
          SetQueryOptions.empty with
  | Ok (_, _, queries) =>
      Forall (fun q => length (payloads q) = 1%nat) queries
      ∧ length (concat (concat (map payloads queries))) = 3%nat
  | Throw _ => False
  end.
Proof.
  destruct (setQueries 4 Sample.smallChunks [Sample.alice; Sample.bob; Sample.carol] insert
              SetQueryOptions.empty) as [[[ctor pkc] queries]|e] eqn:Hbuilt.
  - destruct (every_instance_is_sent_once 4 Sample.smallChunks
                [Sample.alice; Sample.bob; Sample.carol] insert SetQueryOptions.empty
                ctor pkc queries) as (Hone & knownKeys & insertableColumns & Hall & _).
    + reflexivity.
    + simpl. lia.
    + reflexivity.
    + exact Hbuilt.
    + split; [exact Hone|]. rewrite Hall. by rewrite length_imap.
  - vm_compute in Hbuilt. discriminate Hbuilt.
Defined.

(** ** The columns an insert writes *)

(** An insert or upsert without a column list writes exactly the write
    columns that at least one instance of the batch has as a property, and
    sets on conflict those of them that are not excluded from updates. *)
Theorem insert_column_selection
    (mode : Mode) (options : SetQueryOptions.t) (ctor : Ctor) (record : list DbRecord)
    (knownKeys : gset string) :
  mode ≠ update →
  (∀ names, SetQueryOptions.columns options ≠ Some (ColumnsList names)) →
  collectKnownKeys ctor ∅ record = Ok knownKeys →
  ∀ c, cd_name c ≠ "_original" →
    (c ∈ (getColumns mode options ctor knownKeys record).1 ↔
     c ∈ getInsertColumns ctor ∧ ∃ r, r ∈ record ∧ is_Some (props r !! cd_name c))
    ∧ (c ∈ (getColumns mode options ctor knownKeys record).2 ↔
       c ∈ (getColumns mode options ctor knownKeys record).1
       ∧ excludeFromUpdate (config c) = false).
Proof.
  intros Hmode Hcols Hkeys c Hname.
  pose proof (collectKnownKeys_outcome ctor record ∅) as Hknown. rewrite Hkeys in Hknown.
  destruct Hknown as [_ Hknown].
  unfold getColumns.
  assert (isUpdate mode = false) as -> by (by destruct mode).
  destruct (SetQueryOptions.columns options) as [[|names]|] eqn:Hlist;
    [|by destruct (Hcols names)|]; cbn [fst snd];
    rewrite !list_elem_of_filter, Hknown, elem_of_empty;
    (split; [|tauto]); split.
  all: try (intros [[[]|(_ & r & Hr & Hdom%elem_of_dom)] Hc]; split; [done|]; by exists r).
  all: intros (Hc & r & Hr & Hsome); split; [|done]; right; split; [done|];
    exists r; split; [done|]; by apply elem_of_dom.
Qed.

(** A user built with its key alone: an insert writes [id] only. *)
Lemma insert_column_selection_witness :
  map cd_name (getColumns insert SetQueryOptions.empty Sample.User {[ "id" ]}
                 [Sample.newcomer]).1 = ["id"]
  ∧ (Sample.nameColumn ∈ (getColumns insert SetQueryOptions.empty Sample.User {[ "id" ]}
                            [Sample.newcomer]).1 ↔
     Sample.nameColumn ∈ getInsertColumns Sample.User
     ∧ ∃ r, r ∈ [Sample.newcomer] ∧ is_Some (props r !! cd_name Sample.nameColumn)).
Proof.
  split; [by vm_compute|].
  refine (proj1 (insert_column_selection insert SetQueryOptions.empty Sample.User
                   [Sample.newcomer] {[ "id" ]} _ _ _ Sample.nameColumn _)).
  - discriminate.
  - intros names. discriminate.
  - by vm_compute.
  - discriminate.
Defined.

(** ** The chunk limit of a delete *)

Section DeleteChunkLimit.
Context {DbState : Type}.
Variable tquery : QuerySqlToken -> DbState -> JsResult QueryResult * DbState.

Lemma chunkLoop_never_ends {A B} (body : list A → JsResult B) (xs : list A) (max i : Z)
    (fuel : nat) :
  max ≤ 0 → i ≤ 0 → xs ≠ [] → ∃ e, chunkLoop fuel max i xs body = Throw e.
Proof.
  intros Hmax Hi Hxs. revert i Hi.
  induction fuel as [|fuel IH]; intros i Hi; simpl; [by eexists|].
  assert ((i <? Z.of_nat (length xs)) = true) as ->.
  { apply Z.ltb_lt. destruct xs; [done|]. simpl. lia. }
  destruct (body _) as [q|e]; simpl; [|by eexists].
  destruct (IH (i + max)) as [e ->]; [lia|]. by eexists.
Qed.

End DeleteChunkLimit.

